(** * A shallow embedding of the SMTP agent/client and server

    The development follows the Python sources module by module:
    - [Re]         the fragment of Python's [re] the sources rely on,
    - [Exceptions] exceptions.py,
    - [Parse]      parse.py   (cursor and grammar productions),
    - [Msg]        message.py (command classifier),
    - [Mail]       email.py   (mail transaction and conversation driver),
    - [Server]     server.py  (session state machine).

    Python [str] values are modelled as [string]; a character is an [ascii].
    The patterns of the sources tell characters apart only below code point
    128, so every character above it behaves like any other one above it.
    Mutable objects are threaded explicitly: a parser is a function of the
    [RemainingString] it mutates, the driver and the session thread the
    socket and the log of observable events.  The bytes a socket delivers are
    strings as well; the codec that makes text of them, or fails to, is taken
    from the host like its name. *)

From Stdlib Require Import Strings.String Strings.Ascii Lists.List Bool.Bool
  Arith.Arith Arith.PeanoNat micromega.Lia.
Import ListNotations.
Open Scope string_scope.
Open Scope bool_scope.

(** ** Characters and strings *)

Definition TAB : ascii := "009"%char.
Definition LF : ascii := "010"%char.
Definition NL : string := String LF "".

Definition in_range (lo hi : nat) (c : ascii) : bool :=
  ((lo <=? nat_of_ascii c)%nat && (nat_of_ascii c <=? hi)%nat).

(** [s[n:]] *)
Fixpoint drop (n : nat) (s : string) : string :=
  match n, s with
  | 0, _ => s
  | S n', String _ s' => drop n' s'
  | S _, EmptyString => EmptyString
  end.

(** [s[:n]] *)
Fixpoint take (n : nat) (s : string) : string :=
  match n, s with
  | 0, _ => EmptyString
  | S n', String a s' => String a (take n' s')
  | S _, EmptyString => EmptyString
  end.

Fixpoint forall_chars (p : ascii -> bool) (s : string) : bool :=
  match s with
  | EmptyString => true
  | String a s' => p a && forall_chars p s'
  end.

Fixpoint mem_char (c : ascii) (s : string) : bool :=
  match s with
  | EmptyString => false
  | String a s' => Ascii.eqb a c || mem_char c s'
  end.

(** [s.rstrip] of trailing newlines *)
Fixpoint rstrip_nl (s : string) : string :=
  match s with
  | EmptyString => EmptyString
  | String a s' =>
      match rstrip_nl s' with
      | EmptyString => if Ascii.eqb a LF then EmptyString else String a EmptyString
      | t => String a t
      end
  end.

(** [sep.join(l)] *)
Fixpoint join (sep : string) (l : list string) : string :=
  match l with
  | [] => ""
  | [x] => x
  | x :: l' => x ++ sep ++ join sep l'
  end.

(** ** The fragment of Python's [re] used by the sources

    Patterns are anchored at the start of the subject ([re.match]) and are
    matched by a backtracking matcher written in continuation-passing
    style: greedy repetition first tries one more iteration and falls back
    to the rest of the pattern.  An iteration that consumes nothing ends the
    repetition, as in CPython. *)
Module Re.

Inductive regexp : Type :=
| REps
| RChar (c : ascii)
| RClass (p : ascii -> bool)
| RSeq (r1 r2 : regexp)
| RStar (r : regexp).

Definition RPlus (r : regexp) : regexp := RSeq r (RStar r).

Fixpoint RLit (s : string) : regexp :=
  match s with
  | EmptyString => REps
  | String c s' => RSeq (RChar c) (RLit s')
  end.

Definition star_loop (body : string -> (string -> option string) -> option string)
    (k : string -> option string) : nat -> string -> option string :=
  fix loop (n : nat) (s : string) : option string :=
    match n with
    | 0 => k s
    | S n' =>
        match body s (fun s' => if (String.length s' <? String.length s)%nat
                                then loop n' s' else None) with
        | Some x => Some x
        | None => k s
        end
    end.

(** [rmatch r s k]: match [r] at the start of [s] and hand the unconsumed rest
    to [k]; the result is the rest of the subject after the whole match. *)
Fixpoint rmatch (r : regexp) (s : string) (k : string -> option string)
    {struct r} : option string :=
  match r with
  | REps => k s
  | RChar c =>
      match s with
      | String a s' => if Ascii.eqb a c then k s' else None
      | EmptyString => None
      end
  | RClass p =>
      match s with
      | String a s' => if p a then k s' else None
      | EmptyString => None
      end
  | RSeq r1 r2 => rmatch r1 s (fun s' => rmatch r2 s' k)
  | RStar r1 => star_loop (rmatch r1) k (String.length s) s
  end.

(** [re.match(r, s)]: [None], or the matched text [m[0]]. *)
Definition re_match (r : regexp) (s : string) : option string :=
  match rmatch r s Some with
  | Some rest => Some (take (String.length s - String.length rest) s)
  | None => None
  end.

(** [re.search(r, s)]: the leftmost match. *)
Fixpoint re_search (r : regexp) (s : string) : option string :=
  match re_match r s with
  | Some m => Some m
  | None =>
      match s with
      | EmptyString => None
      | String _ s' => re_search r s'
      end
  end.

(** Character classes of the patterns in parse.py, email.py and server.py. *)

Definition DQUOTE : ascii := "034"%char.

(** class [ \t] *)
Definition cls_SP (c : ascii) : bool := Ascii.eqb c " " || Ascii.eqb c TAB.
(** class [A-Za-z] *)
Definition cls_letter (c : ascii) : bool := in_range 65 90 c || in_range 97 122 c.
(** class [A-Za-z0-9] *)
Definition cls_let_dig (c : ascii) : bool :=
  in_range 65 90 c || in_range 97 122 c || in_range 48 57 c.
(** class [ -~] *)
Definition cls_printable (c : ascii) : bool := in_range 32 126 c.
(** the negated class of parse_string: anything but the thirteen specials
    (angle, round and square brackets, backslash, dot, comma, semicolon,
    colon, at sign, double quote), space, tab and newline *)
Definition cls_char (c : ascii) : bool :=
  negb (mem_char c ("<>()[]\.,;:@" ++ String DQUOTE (String " " (String TAB NL)))).
(** the dot of a pattern: any character but the newline *)
Definition cls_dot (c : ascii) : bool := negb (Ascii.eqb c LF).

(** [ \t]+ *)
Definition pat_whitespace : regexp := RPlus (RClass cls_SP).
(** any number of [ \t] *)
Definition pat_nullspace : regexp := RStar (RClass cls_SP).
(** an element: a letter, then any number of letters or digits *)
Definition pat_element : regexp := RSeq (RClass cls_letter) (RStar (RClass cls_let_dig)).
(** the pattern of parse_domain: an element, then any number of groups
    made of a dot and an element *)
Definition pat_domain : regexp :=
  RSeq pat_element (RStar (RSeq (RChar ".") pat_element)).
(** the negated class of parse_string, one or more times *)
Definition pat_string : regexp := RPlus (RClass cls_char).
(** [ -~]+ *)
Definition pat_arbitrary_text : regexp := RPlus (RClass cls_printable).
(** a left angle bracket, any number of dots, a right angle bracket *)
Definition pat_bracketed : regexp :=
  RSeq (RChar "<") (RSeq (RStar (RClass cls_dot)) (RChar ">")).
(** an at sign, any number of dots, a right angle bracket *)
Definition pat_at_to_bracket : regexp :=
  RSeq (RChar "@") (RSeq (RStar (RClass cls_dot)) (RChar ">")).

End Re.
Import Re.

(** ** exceptions.py *)
Module Exceptions.

Inductive exn : Type :=
| ConsumptionError
| ParsingError (msg : string)
| MessageParsingError (msg : string)
| ParameterArgumentParsingError (msg : string)
| EarlyTerminationError
| SocketError
| SMTPBreakOfProtocolError
(* built-in exceptions the sources can run into *)
| TypeError
| AttributeError
| UnboundLocalError
| OSError
| UnicodeDecodeError.

(** [isinstance(e, ParsingError)]: [MessageParsingError] and
    [ParameterArgumentParsingError] are subclasses of [ParsingError]. *)
Definition is_ParsingError (e : exn) : bool :=
  match e with
  | ParsingError _ | MessageParsingError _ | ParameterArgumentParsingError _ => true
  | _ => false
  end.

(** [str(e)] *)
Definition str (e : exn) : string :=
  match e with
  | ParsingError m | MessageParsingError m | ParameterArgumentParsingError m => m
  | _ => ""
  end.

End Exceptions.
Import Exceptions.

(** ** Effects: state passing with exceptions

    A computation over a mutable object of type [S] either returns or
    raises, and in both cases leaves the object as mutated so far. *)
Module Eff.

Definition ST (S A : Type) : Type := S -> (exn + A) * S.

Definition ret {S A} (a : A) : ST S A := fun st => (inr a, st).
Definition raise {S A} (e : exn) : ST S A := fun st => (inl e, st).
Definition bind {S A B} (m : ST S A) (f : A -> ST S B) : ST S B :=
  fun st => match m st with
            | (inl e, st') => (inl e, st')
            | (inr a, st') => f a st'
            end.

(** [try: m  except <clauses>]: the first clause that accepts the exception
    handles it, an exception no clause accepts propagates. *)
Definition handler (S A : Type) : Type := exn -> option (ST S A).

Definition try_except {S A} (m : ST S A) (h : handler S A) : ST S A :=
  fun st => match m st with
            | (inl e, st') =>
                match h e with
                | Some k => k st'
                | None => (inl e, st')
                end
            | r => r
            end.

Definition except_ConsumptionError {S A} (k : ST S A) : handler S A :=
  fun e => match e with ConsumptionError => Some k | _ => None end.
Definition except_ParsingError {S A} (k : exn -> ST S A) : handler S A :=
  fun e => if is_ParsingError e then Some (k e) else None.
Definition or_except {S A} (h1 h2 : handler S A) : handler S A :=
  fun e => match h1 e with Some k => Some k | None => h2 e end.

(** [for x in items: body(x)] over a generator: an item is either yielded
    or is the exception the generator raises when asked for it. *)
Fixpoint for_each {S A} (items : list (exn + A)) (body : A -> ST S unit) : ST S unit :=
  match items with
  | [] => ret tt
  | inl e :: _ => raise e
  | inr a :: rest => bind (body a) (fun _ => for_each rest body)
  end.

End Eff.
Import Eff.

Notation "x <- m ;; k" := (bind m (fun x => k))
  (at level 61, m at next level, right associativity).
Notation "m ;; k" := (bind m (fun _ => k))
  (at level 61, right associativity).

(** ** parse.py *)
Module Parse.

(** Wrapper class for the unparsed portion of a string. *)
Record RemainingString : Type := mkRS { _remaining_string : string }.

Definition get (rs : RemainingString) : string := _remaining_string rs.
Definition set (rs : RemainingString) (remaining_string : string) : RemainingString :=
  mkRS remaining_string.
Definition is_empty (rs : RemainingString) : bool :=
  match _remaining_string rs with EmptyString => true | _ => false end.
Definition get_first_char (rs : RemainingString) : string :=
  if is_empty rs then ""
  else match _remaining_string rs with
       | String a _ => String a ""
       | EmptyString => ""
       end.
Definition has_further_chars (rs : RemainingString) : bool :=
  match _remaining_string rs with EmptyString => false | _ => true end.

(** A production works on the [RemainingString] it is handed. *)
Definition M (A : Type) : Type := ST RemainingString A.

(** Attempts to match the pattern with the beginning of the remaining string;
    the matching portion is removed, otherwise ConsumptionError is raised. *)
Definition consume (regexp : regexp) : M unit :=
  fun rs =>
    match re_match regexp (get rs) with
    | None => (inl ConsumptionError, rs)
    | Some matched => (inr tt, set rs (drop (String.length matched) (get rs)))
    end.

Definition parse_whitespace : M unit :=
  try_except (consume pat_whitespace)
    (except_ConsumptionError (raise (ParsingError "whitespace"))).

Definition parse_nullspace : M unit :=
  try_except (consume pat_nullspace)
    (except_ConsumptionError (raise (ParsingError "nullspace"))).

Definition parse_CRLF : M unit :=
  try_except (consume (RLit NL))
    (except_ConsumptionError (raise (ParsingError "CRLF"))).

Definition parse_domain : M unit :=
  try_except (consume pat_domain)
    (except_ConsumptionError (raise (ParsingError "domain"))).

Definition parse_string : M unit :=
  try_except (consume pat_string)
    (except_ConsumptionError (raise (ParsingError "string"))).

Definition parse_local_part : M unit := parse_string.

Definition parse_mailbox : M unit :=
  parse_local_part ;;
  try_except (consume (RLit "@"))
    (except_ConsumptionError (raise (ParsingError "mailbox"))) ;;
  parse_domain.

Definition parse_path : M unit :=
  try_except (consume (RLit "<"))
    (except_ConsumptionError (raise (ParsingError "path"))) ;;
  parse_mailbox ;;
  try_except (consume (RLit ">"))
    (except_ConsumptionError (raise (ParsingError "path"))).

Definition parse_reverse_path : M unit := parse_path.
Definition parse_forward_path : M unit := parse_path.

Definition parse_arbitrary_text : M unit :=
  try_except (consume pat_arbitrary_text)
    (except_ConsumptionError (raise (ParsingError "arbitrary-text"))).

(** The one-character look-ahead of parse_helo_msg, parse_data_cmd and
    parse_quit_cmd. *)
Definition lookahead (rs : RemainingString) : bool :=
  is_empty rs || String.eqb (get_first_char rs) " "
  || String.eqb (get_first_char rs) (String TAB "")
  || String.eqb (get_first_char rs) NL.

Definition parse_helo_msg : M unit :=
  try_except (consume (RLit "HELO"))
    (except_ConsumptionError (raise (MessageParsingError "helo-msg"))) ;;
  fun rs =>
    if lookahead rs then
      try_except
        (parse_whitespace ;; parse_arbitrary_text ;; parse_nullspace ;; parse_CRLF)
        (except_ParsingError (fun e => raise (ParameterArgumentParsingError (str e))))
        rs
    else raise (MessageParsingError "helo-msg") rs.

Definition parse_mail_from_cmd : M unit :=
  try_except
    (consume (RLit "MAIL") ;; parse_whitespace ;; consume (RLit "FROM:"))
    (or_except
       (except_ConsumptionError (raise (MessageParsingError "mail-from-cmd")))
       (except_ParsingError (fun e => raise (MessageParsingError (str e))))) ;;
  try_except
    (parse_nullspace ;; parse_reverse_path ;; parse_nullspace ;; parse_CRLF)
    (except_ParsingError (fun e => raise (ParameterArgumentParsingError (str e)))).

Definition parse_rcpt_to_cmd : M unit :=
  try_except
    (consume (RLit "RCPT") ;; parse_whitespace ;; consume (RLit "TO:"))
    (or_except
       (except_ConsumptionError (raise (MessageParsingError "rcpt-to-cmd")))
       (except_ParsingError (fun e => raise (MessageParsingError (str e))))) ;;
  try_except
    (parse_nullspace ;; parse_forward_path ;; parse_nullspace ;; parse_CRLF)
    (except_ParsingError (fun e => raise (ParameterArgumentParsingError (str e)))).

Definition parse_data_cmd : M unit :=
  try_except (consume (RLit "DATA"))
    (except_ConsumptionError (raise (MessageParsingError "data-cmd"))) ;;
  fun rs =>
    if lookahead rs then
      try_except (parse_nullspace ;; parse_CRLF)
        (except_ParsingError (fun e => raise (ParameterArgumentParsingError (str e))))
        rs
    else raise (MessageParsingError "data-cmd") rs.

Definition parse_quit_cmd : M unit :=
  try_except (consume (RLit "QUIT"))
    (except_ConsumptionError (raise (MessageParsingError "quit-cmd"))) ;;
  fun rs =>
    if lookahead rs then
      try_except (parse_nullspace ;; parse_CRLF)
        (except_ParsingError (fun e => raise (ParameterArgumentParsingError (str e))))
        rs
    else raise (MessageParsingError "quit-cmd") rs.

(** The response-code productions; the names they raise are the source's. *)
Definition parse_220_resp_code_msg : M unit :=
  try_except (consume (RLit "220"))
    (except_ConsumptionError (raise (ParsingError "server-greeting"))) ;;
  parse_whitespace ;; parse_arbitrary_text ;; parse_CRLF.

Definition parse_221_resp_code_msg : M unit :=
  try_except (consume (RLit "221"))
    (except_ConsumptionError (raise (ParsingError "250-resp-code-msg"))) ;;
  parse_whitespace ;; parse_arbitrary_text ;; parse_CRLF.

Definition parse_250_resp_code_msg : M unit :=
  try_except (consume (RLit "250"))
    (except_ConsumptionError (raise (ParsingError "250-resp-code-msg"))) ;;
  parse_whitespace ;; parse_arbitrary_text ;; parse_CRLF.

Definition parse_354_resp_code_msg : M unit :=
  try_except (consume (RLit "354"))
    (except_ConsumptionError (raise (ParsingError "250-resp-code-msg"))) ;;
  parse_whitespace ;; parse_arbitrary_text ;; parse_CRLF.

(** [parse_comma_sep_mailboxes]: the body of the [while True] loop, run at
    most [fuel] times; [None] when the fuel runs out before the loop is left. *)
Fixpoint comma_sep_loop (fuel : nat) (rs : RemainingString)
    : option ((exn + unit) * RemainingString) :=
  match fuel with
  | 0 => None
  | S fuel' =>
      match parse_mailbox rs with
      | (inl e, rs1) => Some (inl e, rs1)
      | (inr _, rs1) =>
          if is_empty rs1 then Some (inr tt, rs1)
          else
            match try_except (consume (RLit ","))
                    (except_ConsumptionError (raise (ParsingError "comma-sep-mailboxes")))
                    rs1 with
            | (inl e, rs2) => Some (inl e, rs2)
            | (inr _, rs2) =>
                match parse_nullspace rs2 with
                | (inl e, rs3) => Some (inl e, rs3)
                | (inr _, rs3) => comma_sep_loop fuel' rs3
                end
            end
      end
  end.

(** Every pass through the loop removes at least one character, so one more
    pass than the text has characters is always enough. *)
Definition parse_comma_sep_mailboxes (rs : RemainingString)
    : option ((exn + unit) * RemainingString) :=
  comma_sep_loop (S (String.length (get rs))) rs.

End Parse.
Import Parse.

(** ** message.py *)
Module Msg.

(** Possible message types *)
Inductive msg_type : Type :=
| _UNRECOGNIZED | _HELO | _MAIL_FROM | _RCPT_TO | _DATA | _QUIT.

Definition msg_type_eqb (a b : msg_type) : bool :=
  match a, b with
  | _UNRECOGNIZED, _UNRECOGNIZED | _HELO, _HELO | _MAIL_FROM, _MAIL_FROM
  | _RCPT_TO, _RCPT_TO | _DATA, _DATA | _QUIT, _QUIT => true
  | _, _ => false
  end.

Record Message : Type := mkMessage {
  _msg_type : msg_type;
  _param_arg_error : bool
}.

(** One [try ... except MessageParsingError: pass  except
    ParameterArgumentParsingError: ...  else: ...] block of [__init__],
    run on a fresh [RemainingString(ms)]; [next] is the code after the block. *)
Definition attempt (parse : M unit) (ms : string) (t : msg_type)
    (next : exn + Message) : exn + Message :=
  match fst (parse (mkRS ms)) with
  | inl (MessageParsingError _) => next
  | inl (ParameterArgumentParsingError _) => inr (mkMessage t true)
  | inl e => inl e
  | inr _ => inr (mkMessage t false)
  end.

(** [Message(ms)]: the constructed object, or the exception that escapes. *)
Definition Message_init (ms : string) : exn + Message :=
  attempt parse_helo_msg ms _HELO
  (attempt parse_mail_from_cmd ms _MAIL_FROM
  (attempt parse_rcpt_to_cmd ms _RCPT_TO
  (attempt parse_data_cmd ms _DATA
  (attempt parse_quit_cmd ms _QUIT
  (inr (mkMessage _UNRECOGNIZED false)))))).

Definition is_recognized (m : Message) : bool :=
  negb (msg_type_eqb (_msg_type m) _UNRECOGNIZED).
Definition is_helo_msg (m : Message) : bool := msg_type_eqb (_msg_type m) _HELO.
Definition is_mail_from_cmd (m : Message) : bool := msg_type_eqb (_msg_type m) _MAIL_FROM.
Definition is_rcpt_to_cmd (m : Message) : bool := msg_type_eqb (_msg_type m) _RCPT_TO.
Definition is_data_cmd (m : Message) : bool := msg_type_eqb (_msg_type m) _DATA.
Definition is_quit_cmd (m : Message) : bool := msg_type_eqb (_msg_type m) _QUIT.
Definition has_valid_params_args (m : Message) : bool := negb (_param_arg_error m).

End Msg.
Import Msg.

(** ** The outside world: sockets, files and the terminal

    A socket is given by what its successive [recv] calls return ([None]:
    the call raises; an exhausted list: the peer has closed, [recv] returns
    the empty string) and by whether its successive [send] calls succeed.
    What the program does to the world is kept in a log of events.  Bytes
    and text are not distinguished: [encode] and [decode] are the identity. *)
Module Net.

Inductive event : Type :=
| EvSend (msg : string)
| EvRecv (msg : string)
| EvClose
| EvPrint (text : string)
| EvOpen (path : string)
| EvWrite (path : string) (line : string).

Record socket : Type := mkSocket {
  rx : list (option string);
  tx_ok : list bool
}.

Definition sock_recv (sk : socket) : option string * socket :=
  match rx sk with
  | [] => (Some "", sk)
  | r :: rx' => (r, mkSocket rx' (tx_ok sk))
  end.

Definition sock_send (sk : socket) : bool * socket :=
  match tx_ok sk with
  | [] => (true, sk)
  | b :: tx' => (b, mkSocket (rx sk) tx')
  end.

(** A socket on which nothing fails and the peer answers [rs]. *)
Definition reliable (rs : list string) : socket := mkSocket (map Some rs) [].

(** [bytes.decode()]: the text of the bytes, [None] when they are not valid
    UTF-8 and decoding raises UnicodeDecodeError.  The codec belongs to the
    host: the sessions take it as they take the socket. *)
Definition codec : Type := string -> option string.

(** UTF-8 on the characters of the model, the code points below 256: a byte
    below 128 is its character, a byte 194 or 195 followed by a byte from 128
    to 191 is one of the characters from 128 to 255, and no other sequence of
    bytes is the encoding of such a text. *)
Fixpoint utf8 (bytes : string) : option string :=
  match bytes with
  | EmptyString => Some ""
  | String b rest =>
      if in_range 0 127 b then option_map (String b) (utf8 rest)
      else
        match rest with
        | String b2 rest2 =>
            if in_range 128 191 b2 then
              if Ascii.eqb b "194" then option_map (String b2) (utf8 rest2)
              else if Ascii.eqb b "195" then
                option_map (String (ascii_of_nat (nat_of_ascii b2 + 64))) (utf8 rest2)
              else None
            else None
        | EmptyString => None
        end
  end.

End Net.
Import Net.

(** ** email.py *)
Module Mail.

Record Email : Type := mkEmail {
  _reverse_path : string;
  _forward_paths : list string;
  _subject : string;
  _message_lines : list string;
  _attachment_filename : string
}.

(** String used at the beginning of a new line to insert or check for the
    end-of-message-data sequence. *)
Definition EOMD_SEQ : string := "." ++ NL.

(** [Email()] *)
Definition Email_init : Email := mkEmail "" [] "" [] "".

Definition set_reverse_path (e : Email) (reverse_path : string) : Email :=
  mkEmail reverse_path (_forward_paths e) (_subject e) (_message_lines e)
    (_attachment_filename e).
Definition add_forward_path (e : Email) (forward_path : string) : Email :=
  mkEmail (_reverse_path e) (_forward_paths e ++ [forward_path]) (_subject e)
    (_message_lines e) (_attachment_filename e).
Definition set_forward_paths (e : Email) (forward_paths : list string) : Email :=
  mkEmail (_reverse_path e) forward_paths (_subject e) (_message_lines e)
    (_attachment_filename e).
Definition set_subject (e : Email) (subject : string) : Email :=
  mkEmail (_reverse_path e) (_forward_paths e) subject (_message_lines e)
    (_attachment_filename e).
Definition add_message_line (e : Email) (message_line : string) : Email :=
  mkEmail (_reverse_path e) (_forward_paths e) (_subject e)
    (_message_lines e ++ [message_line]) (_attachment_filename e).
Definition set_attachment_filename (e : Email) (attachment_filename : string) : Email :=
  mkEmail (_reverse_path e) (_forward_paths e) (_subject e) (_message_lines e)
    attachment_filename.

(** [m[1:-1]] *)
Definition slice_1_m1 (m : string) : string :=
  take (String.length m - 2) (drop 1 m).

(** The set of domain names found amongst the forward paths.  The set is
    kept as a list without duplicates, in order of first occurrence;
    subscripting a failed search raises TypeError. *)
Fixpoint domain_names (forward_paths : list string) : exn + list string :=
  match forward_paths with
  | [] => inr []
  | forward_path :: rest =>
      match re_search pat_at_to_bracket forward_path with
      | None => inl TypeError
      | Some m =>
          match domain_names rest with
          | inl e => inl e
          | inr l => inr (slice_1_m1 m :: l)
          end
      end
  end.

Definition domain_specific_forward_file_names (e : Email) : exn + list string :=
  match domain_names (_forward_paths e) with
  | inl x => inl x
  | inr l => inr (nodup string_dec l)
  end.

(** The generator of the lines written to a forward file: it yields the
    message lines. *)
Definition forward_file_ready_text_lines (e : Email) : list string :=
  _message_lines e.

(** What the client needs from its host: its name, the MIME type guessed
    for a file name, and the base64 encoding of a readable file. *)
Record host : Type := mkHost {
  getfqdn : string;
  guess_type : string -> option string;
  read_base64 : string -> option string;
  decode : codec
}.

Definition _get_helo_msg (h : host) : string := "HELO " ++ getfqdn h ++ NL.
Definition _get_mail_from_cmd (e : Email) : string :=
  "MAIL FROM: " ++ _reverse_path e ++ NL.
Definition _get_rcpt_to_cmds (e : Email) : list (exn + string) :=
  map (fun forward_path => inr ("RCPT TO: " ++ forward_path ++ NL)) (_forward_paths e).
Definition _get_data_cmd : string := "DATA" ++ NL.
Definition _get_eomd_seq : string := EOMD_SEQ.
Definition _get_quit_cmd : string := "QUIT" ++ NL.

Definition _get_SMTP_MIME_message_data_lines (h : host) (e : Email)
    : list (exn + string) :=
  [ inr ("From: " ++ _reverse_path e ++ NL);
    inr ("To: " ++ join ", " (_forward_paths e) ++ NL);
    inr ("Subject: " ++ _subject e ++ NL);
    inr ("MIME-Version: 1.0" ++ NL);
    inr ("Content-Type: multipart/mixed; boundary=98766789" ++ NL);
    inr NL;
    inr ("--98766789" ++ NL);
    inr ("Content-Transfer-Encoding: quoted-printable" ++ NL);
    inr ("Content-Type: text/plain" ++ NL);
    inr NL ]
  ++ map inr (_message_lines e)
  ++ [ inr ("--98766789" ++ NL);
       inr ("Content-Transfer-Encoding: base64" ++ NL);
       match guess_type h (_attachment_filename e) with
       | Some t => inr ("Content-Type: " ++ t ++ NL)
       | None => inl TypeError
       end;
       inr NL;
       match read_base64 h (_attachment_filename e) with
       | Some b => inr b
       | None => inl OSError
       end;
       inr ("--98766789--" ++ NL) ].

(** The client side of a connection: the socket and the log. *)
Record client : Type := mkClient {
  client_socket : socket;
  client_log : list event
}.

Definition D (A : Type) : Type := ST client A.

Definition emit (evs : list event) : D unit :=
  fun w => (inr tt, mkClient (client_socket w) (client_log w ++ evs)).

Definition _send_msg (msg : string) : D string :=
  fun w =>
    let (ok, sk) := sock_send (client_socket w) in
    if ok then (inr msg, mkClient sk (client_log w ++ [EvSend msg]))
    else (inl SocketError,
          mkClient sk (client_log w ++
            [EvClose;
             EvPrint ("Error sending the following message: " ++ rstrip_nl msg ++ NL)])).

Definition is_command_type (sent_msg_type : option string) (rcpt : string) : bool :=
  match sent_msg_type with
  | Some t => String.eqb t "HELO" || String.eqb t "MAIL_FROM" || String.eqb t rcpt
              || String.eqb t "DATA" || String.eqb t "QUIT"
  | None => false
  end.

(** The text chosen by an [if ... elif ... elif] chain over the sent message
    type: [inl] when building it raises, [inr None] when no branch binds it. *)
Definition error_output (rcpt : string) (sent_msg_type sent_msg : option string)
    (command_text : string -> string) (data_text greeting_text : string)
    : exn + option string :=
  if is_command_type sent_msg_type rcpt then
    match sent_msg with
    | Some m => inr (Some (command_text m))
    | None => inl AttributeError
    end
  else match sent_msg_type with
       | Some t => if String.eqb t "MESSAGE_DATA" then inr (Some data_text) else inr None
       | None => inr (Some greeting_text)
       end.

(** Close connection, alert, and raise exception. *)
Definition close_alert_raise {A} (output : exn + option string) (e : exn) : D A :=
  match output with
  | inl x => raise x
  | inr None => emit [EvClose] ;; raise UnboundLocalError
  | inr (Some text) => emit [EvClose; EvPrint text] ;; raise e
  end.

Definition parsing_procedure (expected_msg_type : string) : option (M unit) :=
  if String.eqb expected_msg_type "220" then Some parse_220_resp_code_msg
  else if String.eqb expected_msg_type "221" then Some parse_221_resp_code_msg
  else if String.eqb expected_msg_type "250" then Some parse_250_resp_code_msg
  else if String.eqb expected_msg_type "354" then Some parse_354_resp_code_msg
  else None.

(** Receiving and decoding stand in one [try]: bytes that are not text are
    handled like a failure to receive. *)
Definition _receive_and_validate (h : host) (expected_msg_type : string)
    (sent_msg_type sent_msg : option string) : D unit :=
  fun w =>
    let receive_error w0 :=
      close_alert_raise
        (error_output "RCTP_TO" sent_msg_type sent_msg
           (fun m => "Error receiving server response. Sent: " ++ rstrip_nl m)
           "Error receiving server response after sending message data."
           "Error receiving server greeting.")
        SocketError w0 in
    match sock_recv (client_socket w) with
    | (None, sk) => receive_error (mkClient sk (client_log w))
    | (Some bytes, sk) =>
      match decode h bytes with
      | None => receive_error (mkClient sk (client_log w))
      | Some msg_str =>
        let w' := mkClient sk (client_log w ++ [EvRecv msg_str]) in
        match parsing_procedure expected_msg_type with
        | None => (inl UnboundLocalError, w')
        | Some parse =>
            match fst (parse (mkRS msg_str)) with
            | inr _ => (inr tt, w')
            | inl e =>
                if is_ParsingError e then
                  close_alert_raise
                    (error_output "RCPT_TO" sent_msg_type sent_msg
                       (fun m => "unexpected server response. Sent "
                                 ++ rstrip_nl m ++ ". Received: " ++ rstrip_nl msg_str)
                       ("Unexpected server response. Sent message data. Received: "
                        ++ rstrip_nl msg_str)
                       ("Unexpected server greeting. Received: " ++ rstrip_nl msg_str))
                    SMTPBreakOfProtocolError w'
                else (inl e, w')
            end
        end
      end
    end.

(** [send]: the socket is taken as created and connected ([connect_error]
    is the text of the exception otherwise). *)
Definition send (h : host) (e : Email) (connect_error : option string) : D unit :=
  match connect_error with
  | Some text =>
      emit [EvPrint ("Error creating client socket and/or initiating connection. "
                     ++ "Exception raised: " ++ text ++ NL)] ;;
      raise SocketError
  | None =>
      _receive_and_validate h "220" None None ;;
      sent_msg <- _send_msg (_get_helo_msg h) ;;
      _receive_and_validate h "250" (Some "HELO") (Some sent_msg) ;;
      sent_msg <- _send_msg (_get_mail_from_cmd e) ;;
      _receive_and_validate h "250" (Some "MAIL_FROM") (Some sent_msg) ;;
      for_each (_get_rcpt_to_cmds e) (fun rcpt_to_cmd =>
        sent_msg <- _send_msg rcpt_to_cmd ;;
        _receive_and_validate h "250" (Some "RCPT_TO") (Some sent_msg)) ;;
      sent_msg <- _send_msg _get_data_cmd ;;
      _receive_and_validate h "354" (Some "DATA") (Some sent_msg) ;;
      for_each (_get_SMTP_MIME_message_data_lines h e) (fun data_line =>
        _send_msg data_line ;; ret tt) ;;
      _send_msg _get_eomd_seq ;;
      _receive_and_validate h "250" (Some "MESSAGE_DATA") None ;;
      sent_msg <- _send_msg _get_quit_cmd ;;
      _receive_and_validate h "221" (Some "QUIT") (Some sent_msg)
  end.


(** *** Filling an email from the terminal *)

(** The terminal of the agent: the lines still to be read from standard
    input, without their line terminators, and the texts written to standard
    output so far. *)
Record terminal : Type := mkTerminal {
  stdin : list string;
  stdout : list string
}.

(** [print(text)] *)
Definition print_line (text : string) (t : terminal) : terminal :=
  mkTerminal (stdin t) (stdout t ++ [text ++ NL]).

(** [input(prompt)]: the prompt is written, then a line is read; [None]
    stands for the EOFError raised when standard input is exhausted. *)
Definition input (prompt : string) (t : terminal) : option string * terminal :=
  let out := match prompt with
             | EmptyString => stdout t
             | _ => (stdout t ++ [prompt])%list
             end in
  match stdin t with
  | [] => (None, mkTerminal [] out)
  | line :: rest => (Some line, mkTerminal rest out)
  end.

(** The characters [str.strip()] removes: the white space of Python below
    code point 256. *)
Definition is_space (c : ascii) : bool :=
  in_range 9 13 c || in_range 28 32 c || Ascii.eqb c "133" || Ascii.eqb c "160".

Fixpoint lstrip (s : string) : string :=
  match s with
  | EmptyString => ""
  | String c s' => if is_space c then lstrip s' else s
  end.

Fixpoint rstrip (s : string) : string :=
  match s with
  | EmptyString => ""
  | String c s' =>
      match rstrip s' with
      | EmptyString => if is_space c then "" else String c ""
      | r => String c r
      end
  end.

(** [s.strip()] *)
Definition strip (s : string) : string := rstrip (lstrip s).

(** [s.split(sep)] for a separator of one character. *)
Fixpoint split_on (sep : ascii) (s : string) : list string :=
  match s with
  | EmptyString => [""]
  | String c s' =>
      if Ascii.eqb c sep then "" :: split_on sep s'
      else match split_on sep s' with
           | piece :: pieces => String c piece :: pieces
           | [] => [String c ""]
           end
  end.

(** A step of [fill]: it works on the terminal and returns the email as
    mutated, or raises; [None] when a loop runs out of fuel. *)
Definition F (A : Type) : Type := terminal -> option ((exn + A) * terminal).

Definition and_then {A B} (m : F A) (k : A -> F B) : F B :=
  fun t =>
    match m t with
    | None => None
    | Some (inl x, t') => Some (inl x, t')
    | Some (inr a, t') => k a t'
    end.

Fixpoint _fill_reverse_path_loop (fuel : nat) (e : Email) : F Email :=
  fun t =>
    match fuel with
    | 0 => None
    | S fuel' =>
        match input ("From:" ++ NL) t with
        | (None, t1) => Some (inl EarlyTerminationError, t1)
        | (Some mailbox_input_string, t1) =>
            match parse_mailbox (mkRS mailbox_input_string) with
            | (inl x, _) =>
                if is_ParsingError x then
                  _fill_reverse_path_loop fuel' e
                    (print_line ("Invalid <mailbox> provided for reverse-path: error parsing for <"
                                 ++ str x ++ "> production rule.") t1)
                else Some (inl x, t1)
            | (inr _, mailbox_input_string_rem_string) =>
                if has_further_chars mailbox_input_string_rem_string then
                  _fill_reverse_path_loop fuel' e
                    (print_line ("Invalid <mailbox> provided for reverse-path: error parsing for <"
                                 ++ "mailbox> production rule.") t1)
                else Some (inr (set_reverse_path e ("<" ++ mailbox_input_string ++ ">")), t1)
            end
        end
    end.

(** Every pass through the loop reads a line, so one more pass than there
    are lines left is always enough. *)
Definition _fill_reverse_path (e : Email) : F Email :=
  fun t => _fill_reverse_path_loop (S (List.length (stdin t))) e t.

Fixpoint _fill_forward_paths_loop (fuel : nat) (e : Email) : F Email :=
  fun t =>
    match fuel with
    | 0 => None
    | S fuel' =>
        match input ("To:" ++ NL) t with
        | (None, t1) => Some (inl EarlyTerminationError, t1)
        | (Some mailboxes_input_string, t1) =>
            match parse_comma_sep_mailboxes (mkRS mailboxes_input_string) with
            | None => None
            | Some (inl x, _) =>
                if is_ParsingError x then
                  _fill_forward_paths_loop fuel' e
                    (print_line ("Invalid <mailbox> sequence for forward-paths: error parsing for <"
                                 ++ str x ++ "> production rule.") t1)
                else Some (inl x, t1)
            | Some (inr _, _) =>
                let forward_paths :=
                  map (fun mailbox => "<" ++ strip mailbox ++ ">")
                      (split_on "," mailboxes_input_string) in
                Some (inr (set_forward_paths e forward_paths), t1)
            end
        end
    end.

Definition _fill_forward_paths (e : Email) : F Email :=
  fun t => _fill_forward_paths_loop (S (List.length (stdin t))) e t.

Definition _fill_subject (e : Email) : F Email :=
  fun t =>
    match input ("Subject:" ++ NL) t with
    | (None, t1) => Some (inl EarlyTerminationError, t1)
    | (Some subject, t1) => Some (inr (set_subject e subject), t1)
    end.

Fixpoint _fill_message_lines_loop (fuel : nat) (e : Email) : F Email :=
  fun t =>
    match fuel with
    | 0 => None
    | S fuel' =>
        match input "" t with
        | (None, t1) => Some (inl EarlyTerminationError, t1)
        | (Some text, t1) =>
            let line := text ++ NL in
            if String.eqb line EOMD_SEQ then Some (inr e, t1)
            else _fill_message_lines_loop fuel' (add_message_line e line) t1
        end
    end.

Definition _fill_message_lines (e : Email) : F Email :=
  fun t =>
    let t0 := print_line "Message:" t in
    _fill_message_lines_loop (S (List.length (stdin t0))) e t0.

Definition _fill_attachment_filename (e : Email) : F Email :=
  fun t =>
    match input "" (print_line "Attachment:" t) with
    | (None, t1) => Some (inl EarlyTerminationError, t1)
    | (Some filename, t1) => Some (inr (set_attachment_filename e filename), t1)
    end.

(** [fill]: soliciting, obtaining and storing email data from a
    command-line user. *)
Definition fill (e : Email) : F Email :=
  and_then (_fill_reverse_path e) (fun e1 =>
  and_then (_fill_forward_paths e1) (fun e2 =>
  and_then (_fill_subject e2) (fun e3 =>
  and_then (_fill_message_lines e3) (fun e4 =>
  _fill_attachment_filename e4)))).

End Mail.
Import Mail.

(** ** server.py *)
Module Server.

(** The states in which the state machine expects:
    [STATE_0] a HELO message, [STATE_1] a MAIL FROM command, [STATE_2] a RCPT
    TO command, [STATE_3] either a RCPT TO command or a DATA command,
    [STATE_4] either a message data line or an end-of-message-data sequence. *)
Inductive state : Type := STATE_0 | STATE_1 | STATE_2 | STATE_3 | STATE_4.

(** *** Line framing of the socket stream

    server.py keeps the socket stream in a [RemainingString] and calls three
    methods on it that the class in parse.py does not define. *)

(** Modelled from the spec: [RemainingString.contains_complete_msg], called by
    server.py and absent from parse.py: the buffer contains a complete line
    terminator. *)
Definition contains_complete_msg (rs : RemainingString) : bool :=
  mem_char LF (get rs).

(** Modelled from the spec: [RemainingString.append], called by server.py and
    absent from parse.py: the received chunk is added at the end of the
    buffer. *)
Definition append (rs : RemainingString) (chunk : string) : RemainingString :=
  set rs (get rs ++ chunk).

(** Modelled from the spec: the split behind
    [RemainingString.consume_and_get_msg], absent from parse.py: the first line
    of [s], up to and including its terminator, and what follows it. *)
Fixpoint split_line (s : string) : string * string :=
  match s with
  | EmptyString => (EmptyString, EmptyString)
  | String a s' =>
      if Ascii.eqb a LF then (NL, s')
      else let (line, rest) := split_line s' in (String a line, rest)
  end.

(** Modelled from the spec: [RemainingString.consume_and_get_msg], called by
    server.py and absent from parse.py: exactly one line, up to and including
    the terminator, is extracted and removed from the buffer. *)
Definition consume_and_get_msg (rs : RemainingString) : string * RemainingString :=
  let (line, rest) := split_line (get rs) in (line, set rs rest).

(** *** The session *)

(** What the server needs from its host and its peer. *)
Record peer : Type := mkPeer {
  getfqdn : string;
  gethostname : string;
  client_address : string;
  decode : codec
}.

Section Engine.

Variable env : peer.

Definition GREETING_220_MSG : string := "220 " ++ getfqdn env ++ NL.
Definition CLOS_CON_221_MSG : string := "221 " ++ gethostname env ++ " closing connection" ++ NL.
Definition HELO_ACK_250_MSG_START_UNENC : string := "250 Hello ".
Definition HELO_ACK_250_MSG_END_UNENC : string := " pleased to meet you" ++ NL.
Definition OK_250_MSG : string := "250 OK" ++ NL.
Definition START_MAIL_354_MSG : string :=
  "354 Start mail input; end with <CRLF>.<CRLF>" ++ NL.
Definition SYN_COM_UNREC_ERR_500_MSG : string :=
  "500 Syntax error: command unrecognized" ++ NL.
Definition SYN_PARAM_ARG_ERR_501_MSG : string :=
  "501 Syntax error in parameters or arguments" ++ NL.
Definition BAD_SEQ_COM_ERR_503_MSG : string := "503 Bad sequence of commands" ++ NL.
Definition EOMD_SEQ : string := "." ++ NL.

(** The local variables of the connection loop, with the socket and the log
    of what the session did to the world. *)
Record session : Type := mkSession {
  st : state;
  current_email : Email;
  sock_stream_rem_string : RemainingString;
  connection_socket : socket;
  log : list event
}.

(** The session as the connection loop starts it, once the greeting has been
    sent. *)
Definition session_init (sk : socket) (l : list event) : session :=
  mkSession STATE_0 Email_init (mkRS "") sk l.

Definition with_state (s : session) (q : state) : session :=
  mkSession q (current_email s) (sock_stream_rem_string s) (connection_socket s) (log s).
Definition with_email (s : session) (e : Email) : session :=
  mkSession (st s) e (sock_stream_rem_string s) (connection_socket s) (log s).
Definition with_buffer (s : session) (rs : RemainingString) : session :=
  mkSession (st s) (current_email s) rs (connection_socket s) (log s).
Definition with_socket (s : session) (sk : socket) : session :=
  mkSession (st s) (current_email s) (sock_stream_rem_string s) sk (log s).
Definition logged (s : session) (evs : list event) : session :=
  mkSession (st s) (current_email s) (sock_stream_rem_string s) (connection_socket s)
    (log s ++ evs).

(** How one pass through the body of the connection loop ends: [continue],
    [break] (after a valid QUIT or a SocketError), or an exception that no
    handler of the loop catches. *)
Inductive outcome : Type :=
| Continue (s : session)
| Break (s : session)
| Uncaught (e : exn) (s : session).

(** [send_msg]: sends the message into the socket; on failure closes the
    socket, prints, and raises SocketError ([inl]). *)
Definition send_msg (msg : string) (s : session) : session + session :=
  let (ok, sk) := sock_send (connection_socket s) in
  if ok then inr (logged (with_socket s sk) [EvSend msg])
  else inl (logged (with_socket s sk)
              [EvClose;
               EvPrint ("Error sending message. Closing connection and awating new "
                        ++ "connection. Message intended to be sent: " ++ rstrip_nl msg)]).

(** [recv_msg]: receives from the socket; on failure closes the socket and
    builds the text to print by adding the integer state to a string, which
    raises TypeError. *)
Definition recv_msg (s : session) : (exn * session) + (string * session) :=
  match sock_recv (connection_socket s) with
  | (Some msg, sk) => inr (msg, logged (with_socket s sk) [EvRecv msg])
  | (None, sk) => inl (TypeError, logged (with_socket s sk) [EvClose])
  end.

(** [send_msg(msg, connection_socket)] followed by [k]; a SocketError ends
    the connection loop. *)
Definition reply (msg : string) (s : session) (k : session -> outcome) : outcome :=
  match send_msg msg s with
  | inl s' => Break s'
  | inr s' => k s'
  end.

(** The QUIT branch shared by all command states. *)
Definition on_quit (msg : Message) (s : session) : outcome :=
  if has_valid_params_args msg then
    reply CLOS_CON_221_MSG s (fun s' => Break (logged s' [EvClose]))
  else reply SYN_PARAM_ARG_ERR_501_MSG s Continue.

(** [re.search(<.*>, msg_str)[0]] *)
Definition bracketed_path (msg_str : string) : exn + string :=
  match re_search pat_bracketed msg_str with
  | Some m => inr m
  | None => inl TypeError
  end.

(** Writes the forward files of the current email. *)
Definition forward_events (e : Email) (ff_names : list string) : list event :=
  flat_map (fun ff_name =>
              EvOpen ("forward/" ++ ff_name)
              :: map (EvWrite ("forward/" ++ ff_name)) (forward_file_ready_text_lines e))
           ff_names.

(** The state-dependent part of the loop body, for the message [msg_str]. *)
Definition handle (msg_str : string) (s : session) : outcome :=
  match st s with
  | STATE_0 =>
      match Message_init msg_str with
      | inl e => Uncaught e s
      | inr msg =>
          if negb (is_recognized msg) then reply SYN_COM_UNREC_ERR_500_MSG s Continue
          else if negb (is_helo_msg msg) then
            if is_quit_cmd msg then on_quit msg s
            else reply BAD_SEQ_COM_ERR_503_MSG s Continue
          else if negb (has_valid_params_args msg) then
            reply SYN_PARAM_ARG_ERR_501_MSG s Continue
          else
            reply (HELO_ACK_250_MSG_START_UNENC ++ client_address env
                   ++ HELO_ACK_250_MSG_END_UNENC) s
              (fun s' => Continue (with_state s' STATE_1))
      end
  | STATE_1 =>
      match Message_init msg_str with
      | inl e => Uncaught e s
      | inr msg =>
          if negb (is_recognized msg) then reply SYN_COM_UNREC_ERR_500_MSG s Continue
          else if negb (is_mail_from_cmd msg) then
            if is_quit_cmd msg then on_quit msg s
            else reply BAD_SEQ_COM_ERR_503_MSG s Continue
          else if negb (has_valid_params_args msg) then
            reply SYN_PARAM_ARG_ERR_501_MSG s Continue
          else
            match bracketed_path msg_str with
            | inl e => Uncaught e s
            | inr p =>
                reply OK_250_MSG (with_email s (set_reverse_path (current_email s) p))
                  (fun s' => Continue (with_state s' STATE_2))
            end
      end
  | STATE_2 =>
      match Message_init msg_str with
      | inl e => Uncaught e s
      | inr msg =>
          if negb (is_recognized msg) then reply SYN_COM_UNREC_ERR_500_MSG s Continue
          else if negb (is_rcpt_to_cmd msg) then
            if is_quit_cmd msg then on_quit msg s
            else reply BAD_SEQ_COM_ERR_503_MSG s Continue
          else if negb (has_valid_params_args msg) then
            reply SYN_PARAM_ARG_ERR_501_MSG s Continue
          else
            match bracketed_path msg_str with
            | inl e => Uncaught e s
            | inr p =>
                reply OK_250_MSG (with_email s (add_forward_path (current_email s) p))
                  (fun s' => Continue (with_state s' STATE_3))
            end
      end
  | STATE_3 =>
      match Message_init msg_str with
      | inl e => Uncaught e s
      | inr msg =>
          if negb (is_recognized msg) then reply SYN_COM_UNREC_ERR_500_MSG s Continue
          else if is_quit_cmd msg then on_quit msg s
          else if is_rcpt_to_cmd msg then
            if negb (has_valid_params_args msg) then
              reply SYN_PARAM_ARG_ERR_501_MSG s Continue
            else
              match bracketed_path msg_str with
              | inl e => Uncaught e s
              | inr p =>
                  reply OK_250_MSG (with_email s (add_forward_path (current_email s) p))
                    Continue
              end
          else if is_data_cmd msg then
            if negb (has_valid_params_args msg) then
              reply SYN_PARAM_ARG_ERR_501_MSG s Continue
            else reply START_MAIL_354_MSG s (fun s' => Continue (with_state s' STATE_4))
          else reply BAD_SEQ_COM_ERR_503_MSG s Continue
      end
  | STATE_4 =>
      if String.eqb msg_str EOMD_SEQ then
        match domain_specific_forward_file_names (current_email s) with
        | inl e => Uncaught e s
        | inr ff_names =>
            reply OK_250_MSG (logged s (forward_events (current_email s) ff_names))
              (fun s' => Continue (with_state (with_email s' Email_init) STATE_1))
        end
      else Continue (with_email s (add_message_line (current_email s) msg_str))
  end.

(** One pass through the body of the connection loop.  The bytes received
    are decoded before they are appended; no handler of the loop catches the
    UnicodeDecodeError of bytes that are not text. *)
Definition iteration (s : session) : outcome :=
  if negb (contains_complete_msg (sock_stream_rem_string s)) then
    match recv_msg s with
    | inl (e, s') => Uncaught e s'
    | inr (chunk, s') =>
        match decode env chunk with
        | None => Uncaught UnicodeDecodeError s'
        | Some text =>
            Continue (with_buffer s' (append (sock_stream_rem_string s') text))
        end
    end
  else
    let (msg_str, rs) := consume_and_get_msg (sock_stream_rem_string s) in
    handle msg_str (with_buffer s rs).

(** At most [n] passes through the loop. *)
Fixpoint run (n : nat) (s : session) : outcome :=
  match n with
  | 0 => Continue s
  | S n' =>
      match iteration s with
      | Continue s' => run n' s'
      | o => o
      end
  end.

End Engine.

End Server.
Import Server.

(** * Definitions for the statements and their proofs *)

(** ** The matcher *)

(** Greedy repetition of a character class, by recursion on the subject. *)
Fixpoint backtrack (p : ascii -> bool) (k : string -> option string) (s : string)
    : option string :=
  match s with
  | EmptyString => k EmptyString
  | String a s' =>
      if p a then
        match backtrack p k s' with
        | Some x => Some x
        | None => k s
        end
      else k s
  end.

(** What is left once the longest run of [p] is removed. *)
Fixpoint skip (p : ascii -> bool) (s : string) : string :=
  match s with
  | EmptyString => EmptyString
  | String a s' => if p a then skip p s' else s
  end.

(** Every character a pattern can match satisfies [P]. *)
Fixpoint re_chars (P : ascii -> bool) (r : regexp) : Prop :=
  match r with
  | REps => True
  | RChar c => P c = true
  | RClass p => forall a, p a = true -> P a = true
  | RSeq r1 r2 => re_chars P r1 /\ re_chars P r2
  | RStar r1 => re_chars P r1
  end.

(** ** The cursor *)

(** The rest of [s] after the literal [l], if [s] starts with it. *)
Fixpoint starts_with (l s : string) : option string :=
  match l with
  | EmptyString => Some s
  | String c l' =>
      match s with
      | String a s' => if Ascii.eqb a c then starts_with l' s' else None
      | EmptyString => None
      end
  end.

(** ** Which exceptions a production can raise *)

Definition raises_only {A} (P : exn -> bool) (m : M A) : Prop :=
  forall rs, match fst (m rs) with inl e => P e = true | inr _ => True end.

(** The outcome of an argument block: it returns, or the arguments are
    reported malformed. *)
Definition args_outcome (r : (exn + unit) * RemainingString) : Prop :=
  match fst r with
  | inr _ => True
  | inl (ParameterArgumentParsingError _) => True
  | inl _ => False
  end.

(** ** Keywords, in the words of the specification *)

(** The one-token look-ahead: the next character is absent, a space, a tab
    or a newline. *)
Definition boundary (r : string) : bool :=
  match r with
  | EmptyString => true
  | String c _ => Ascii.eqb c " " || Ascii.eqb c TAB || Ascii.eqb c LF
  end.

(** The line starts with the keyword and the keyword ends there. *)
Definition word_then_boundary (kw line : string) : bool :=
  match starts_with kw line with
  | Some r => boundary r
  | None => false
  end.

(** The rest of the line after a two-word keyword: the first word, one or
    more spaces or tabs, the second word. *)
Definition two_words_rest (w1 w2 line : string) : option string :=
  match starts_with w1 line with
  | Some (String c r) => if cls_SP c then starts_with w2 (skip cls_SP r) else None
  | _ => None
  end.

Definition two_words (w1 w2 line : string) : bool :=
  match two_words_rest w1 w2 line with Some _ => true | None => false end.

Definition keyword_matches (t : msg_type) (line : string) : bool :=
  match t with
  | _UNRECOGNIZED => false
  | _HELO => word_then_boundary "HELO" line
  | _MAIL_FROM => two_words "MAIL" "FROM:" line
  | _RCPT_TO => two_words "RCPT" "TO:" line
  | _DATA => word_then_boundary "DATA" line
  | _QUIT => word_then_boundary "QUIT" line
  end.

(** The command grammars in priority order. *)
Definition priority : list msg_type := [_HELO; _MAIL_FROM; _RCPT_TO; _DATA; _QUIT].

(** The first grammar, in priority order, whose keyword matches. *)
Definition first_matching (line : string) : msg_type :=
  match find (fun t => keyword_matches t line) priority with
  | Some t => t
  | None => _UNRECOGNIZED
  end.

(** What a command production tells the classifier. *)
Definition kind_outcome (recognized : bool) (r : (exn + unit) * RemainingString) : Prop :=
  match fst r with
  | inr _ => recognized = true
  | inl (ParameterArgumentParsingError _) => recognized = true
  | inl (MessageParsingError _) => recognized = false
  | inl _ => False
  end.

(** ** Mailboxes, in the words of the specification *)

(** The special characters. *)
Definition specials : string := "<>()[]\.,;:@" ++ String DQUOTE "".

(** A character of a local part: printable ASCII, not special, not a space
    and not a tab. *)
Definition is_local_char (c : ascii) : bool :=
  cls_printable c && negb (mem_char c specials)
  && negb (Ascii.eqb c " ") && negb (Ascii.eqb c TAB).

Definition valid_local (l : string) : bool :=
  match l with
  | EmptyString => false
  | _ => forall_chars is_local_char l
  end.

(** An element of a domain: alphanumeric, beginning with a letter. *)
Definition is_element (e : string) : bool :=
  match e with
  | EmptyString => false
  | String a e' => cls_letter a && forall_chars cls_let_dig e'
  end.

(** A domain, as the non-empty sequence of its elements. *)
Definition valid_elements (elems : list string) : bool :=
  match elems with
  | [] => false
  | _ => forallb is_element elems
  end.

Definition render_domain (elems : list string) : string := join "." elems.
Definition render_mailbox (l : string) (elems : list string) : string :=
  l ++ "@" ++ render_domain elems.
Definition render_path (l : string) (elems : list string) : string :=
  "<" ++ render_mailbox l elems ++ ">".

(** The elements after the first, each with its dot. *)
Fixpoint dotted (elems : list string) : string :=
  match elems with
  | [] => ""
  | e :: elems' => "." ++ e ++ dotted elems'
  end.

(** Where a domain ends: not before a letter, a digit or a dot. *)
Definition domain_stop (rest : string) : Prop :=
  match rest with
  | EmptyString => True
  | String c _ => cls_let_dig c = false /\ Ascii.eqb c "." = false
  end.

(** ** What the server extracts from a valid MAIL FROM or RCPT TO line *)

(** The continuation of the two search patterns after the dots. *)
Definition then_bracket (s : string) : option string := rmatch (RChar ">") s Some.

(** A character of a mailbox is neither a newline nor an angle bracket. *)
Definition path_char (c : ascii) : bool :=
  negb (Ascii.eqb c LF) && negb (Ascii.eqb c ">") && negb (Ascii.eqb c "<").

(** A character of a local part is moreover not an at sign. *)
Definition local_char (c : ascii) : bool := path_char c && negb (Ascii.eqb c "@").

(** The line [s] carries the path [p] where the grammar of MAIL FROM and
    RCPT TO puts it. *)
Definition path_line (s p : string) : Prop :=
  exists pre l d ws tail,
    s = pre ++ "<" ++ (l ++ "@" ++ d) ++ ">" ++ ws ++ NL ++ tail
    /\ p = "<" ++ (l ++ "@" ++ d) ++ ">"
    /\ forall_chars (fun a => negb (Ascii.eqb a "<")) pre = true
    /\ forall_chars local_char l = true
    /\ forall_chars path_char d = true
    /\ forall_chars cls_SP ws = true.

(** ** The session *)




(** The forward path [p] has a domain the delivery can name a file after. *)
Definition has_domain (p : string) : bool :=
  match re_search pat_at_to_bracket p with Some _ => true | None => false end.

Definition paths_have_domains (s : session) : Prop :=
  forallb has_domain (_forward_paths (current_email s)) = true.


(** ** A sample session *)

Definition sample_peer : peer := mkPeer "mail.example" "mail" "10.0.0.7" utf8.

(** The client sends a whole transaction up to the first data line, in two
    chunks that do not end at line boundaries. *)
Definition sample_socket : socket :=
  mkSocket
    [Some ("HELO client.example" ++ NL ++ "MAIL FROM:<a@x.com>" ++ NL ++ "RCPT TO:<b@y");
     Some (".com>" ++ NL ++ "DATA" ++ NL ++ "Hello world" ++ NL)]
    [].

Definition sample_email : Email :=
  mkEmail "<a@x.com>" ["<b@y.com>"] "" ["Hello world" ++ NL] "".

Definition sample_replies : list event :=
  [EvRecv ("HELO client.example" ++ NL ++ "MAIL FROM:<a@x.com>" ++ NL ++ "RCPT TO:<b@y");
   EvSend ("250 Hello 10.0.0.7 pleased to meet you" ++ NL);
   EvSend ("250 OK" ++ NL);
   EvRecv (".com>" ++ NL ++ "DATA" ++ NL ++ "Hello world" ++ NL);
   EvSend ("250 OK" ++ NL);
   EvSend ("354 Start mail input; end with <CRLF>.<CRLF>" ++ NL)].

(** The session after seven passes: in the data state, one data line in. *)
Definition sample_data_session : session :=
  mkSession STATE_4 sample_email (mkRS "") (mkSocket [] []) sample_replies.

(** ** The conversation driver, in the words of the specification *)

(** One step of the lock-step exchange: receive one response and check it
    against the grammar of a response code, or send one message. *)
Inductive script_step : Type :=
| Expect (code : string)
| Say (msg : string).

(** Greeting, HELO, MAIL FROM, one RCPT TO per forward path in order, DATA,
    the data lines and the end-of-data marker, QUIT. *)
Definition lockstep_script (h : host) (e : Email) (data_lines : list string)
    : list script_step :=
  [Expect "220";
   Say ("HELO " ++ Mail.getfqdn h ++ NL); Expect "250";
   Say ("MAIL FROM: " ++ _reverse_path e ++ NL); Expect "250"]
  ++ flat_map (fun forward_path =>
                 [Say ("RCPT TO: " ++ forward_path ++ NL); Expect "250"])
       (_forward_paths e)
  ++ [Say ("DATA" ++ NL); Expect "354"]
  ++ map Say data_lines
  ++ [Say ("." ++ NL); Expect "250";
      Say ("QUIT" ++ NL); Expect "221"].

(** The response matches the grammar of the expected response code. *)
Definition response_matches (code msg : string) : bool :=
  match parsing_procedure code with
  | Some parse =>
      match fst (parse (mkRS msg)) with
      | inr _ => true
      | inl _ => false
      end
  | None => false
  end.

(** Playing a script against the responses of the server: the result, the
    responses not yet read, and what went over the wire.  The first response
    that does not match closes the connection and ends the exchange with a
    protocol violation; nothing is retried. *)
Fixpoint play_from (script : list script_step) (responses : list string)
    : (exn + unit) * list string * list event :=
  match script with
  | [] => (inr tt, responses, [])
  | Say msg :: script' =>
      let '(r, rest, evs) := play_from script' responses in
      (r, rest, EvSend msg :: evs)
  | Expect code :: script' =>
      let msg := hd "" responses in
      if response_matches code msg then
        let '(r, rest, evs) := play_from script' (tl responses) in
        (r, rest, EvRecv msg :: evs)
      else (inl SMTPBreakOfProtocolError, tl responses, [EvRecv msg; EvClose])
  end.

Definition play (script : list script_step) (responses : list string)
    : (exn + unit) * list event :=
  let '(r, _, evs) := play_from script responses in (r, evs).

Definition is_print (ev : event) : bool :=
  match ev with EvPrint _ => true | _ => false end.

(** What went over the wire: the log without what was printed. *)
Definition wire (l : list event) : list event :=
  filter (fun ev => negb (is_print ev)) l.

(** The chunks [bytes] are, one by one, the encodings of the [texts] for
    the codec of the host. *)
Definition encodes (h : host) (bytes texts : list string) : Prop :=
  Forall2 (fun b t => Mail.decode h b = Some t) bytes texts.

(** The driver fragment [m] plays the script [sc] against the responses
    whose encodings the socket delivers. *)
Definition implements (h : host) {A} (m : D A) (sc : list script_step) : Prop :=
  forall bytes texts lg,
    encodes h bytes texts ->
    let out := m (mkClient (reliable bytes) lg) in
    match play_from sc texts with
    | (inr _, rest, evs) =>
        (exists a, fst out = inr a)
        /\ (exists bytes', client_socket (snd out) = reliable bytes'
                           /\ encodes h bytes' rest)
        /\ wire (client_log (snd out)) = (wire lg ++ evs)%list
    | (inl x, rest, evs) =>
        fst out = inl x
        /\ (exists bytes', client_socket (snd out) = reliable bytes'
                           /\ encodes h bytes' rest)
        /\ wire (client_log (snd out)) = (wire lg ++ evs)%list
    end.

(** The data lines of an email whose attachment has the type [content_type]
    and the base64 encoding [attachment]. *)
Definition mime_data_lines (e : Email) (content_type attachment : string)
    : list string :=
  [ "From: " ++ _reverse_path e ++ NL;
    "To: " ++ join ", " (_forward_paths e) ++ NL;
    "Subject: " ++ _subject e ++ NL;
    "MIME-Version: 1.0" ++ NL;
    "Content-Type: multipart/mixed; boundary=98766789" ++ NL;
    NL;
    "--98766789" ++ NL;
    "Content-Transfer-Encoding: quoted-printable" ++ NL;
    "Content-Type: text/plain" ++ NL;
    NL ]
  ++ _message_lines e
  ++ [ "--98766789" ++ NL;
       "Content-Transfer-Encoding: base64" ++ NL;
       "Content-Type: " ++ content_type ++ NL;
       NL;
       attachment;
       "--98766789--" ++ NL ].

(** The expected type is one of the four response codes. *)
Definition known_code (code : string) : Prop :=
  exists parse, parsing_procedure code = Some parse
                /\ raises_only (fun x => is_ParsingError x) parse.

(** The sent message type is one for which the failure text is defined. *)
Definition alert_defined (sent_msg_type sent_msg : option string) : Prop :=
  forall f d g, exists text,
    error_output "RCPT_TO" sent_msg_type sent_msg f d g = inr (Some text).

(** ** A sample conversation *)

Definition sample_host : host :=
  mkHost "client.example" (fun _ => Some "text/plain") (fun _ => Some ("QUJD" ++ NL)) utf8.

Definition sample_letter : Email :=
  mkEmail "<a@x.com>" ["<b@y.com>"] "Hi" ["Hello world" ++ NL] "note.txt".

(** A host on which the attachment cannot be read. *)
Definition sample_bare_host : host :=
  mkHost "client.example" (fun _ => Some "text/plain") (fun _ => None) utf8.

(** The server accepts everything. *)
Definition sample_good_responses : list string :=
  ["220 mail.example" ++ NL; "250 Hello 10.0.0.9 pleased to meet you" ++ NL;
   "250 OK" ++ NL; "250 OK" ++ NL;
   "354 Start mail input; end with <CRLF>.<CRLF>" ++ NL;
   "250 OK" ++ NL; "221 mail closing connection" ++ NL].

(** Bytes that are no text: 255 and 254 are in no UTF-8 encoding. *)
Definition sample_garbled_greeting : string :=
  String "255" (String "254" NL).

(** The server refuses the recipient. *)
Definition sample_responses : list string :=
  ["220 mail.example" ++ NL; "250 Hello 10.0.0.9 pleased to meet you" ++ NL;
   "250 OK" ++ NL; "503 Bad sequence of commands" ++ NL].


(** ** The cursor, whatever the production *)

(** Whether it returns or raises, [m] leaves a suffix of the text it was
    handed. *)
Definition leaves_suffix {A} (m : M A) : Prop :=
  forall s, exists pre, s = pre ++ get (snd (m (mkRS s))).

(** The productions of parse.py that work on a cursor alone. *)
Definition productions : list (M unit) :=
  [parse_helo_msg; parse_mail_from_cmd; parse_rcpt_to_cmd; parse_data_cmd;
   parse_quit_cmd; parse_whitespace; parse_nullspace; parse_reverse_path;
   parse_forward_path; parse_CRLF; parse_path; parse_mailbox; parse_local_part;
   parse_domain; parse_string; parse_220_resp_code_msg; parse_221_resp_code_msg;
   parse_250_resp_code_msg; parse_354_resp_code_msg; parse_arbitrary_text].

(** A low-level match failure or a grammar error. *)
Definition is_match_failure (e : exn) : bool :=
  match e with
  | ConsumptionError => true
  | _ => is_ParsingError e
  end.

(** ** Lines, in the words of the grammar *)

(** After optional spaces and tabs comes the line terminator. *)
Definition ends_line (r : string) : bool :=
  match starts_with NL (skip cls_SP r) with
  | Some _ => true
  | None => false
  end.

(** ** Sessions *)

(** A path as the session stores it: a local part without at sign, an at
    sign and a domain, between angle brackets, all on one line. *)
Definition stored_path (p : string) : Prop :=
  exists l d,
    p = "<" ++ (l ++ "@" ++ d) ++ ">"
    /\ forall_chars local_char l = true
    /\ forall_chars path_char d = true.

(** A path of the grammar: between angle brackets, a local part of one or
    more characters of the string production, an at sign, and a domain of one
    or more elements separated by dots; the path production accepts it
    whole. *)
Definition mailbox_path (p : string) : Prop :=
  parse_path (mkRS p) = (inr tt, mkRS "")
  /\ exists l elems,
       p = "<" ++ (l ++ "@" ++ render_domain elems) ++ ">"
       /\ l <> ""
       /\ forall_chars cls_char l = true
       /\ valid_elements elems = true.

(** The line [s] carries the path [p] of the mailbox [l], [elems] where the
    grammar of MAIL FROM and RCPT TO puts it. *)
Definition grammar_line (s p : string) : Prop :=
  exists pre l elems ws tail,
    s = pre ++ "<" ++ (l ++ "@" ++ render_domain elems) ++ ">" ++ ws ++ NL ++ tail
    /\ p = "<" ++ (l ++ "@" ++ render_domain elems) ++ ">"
    /\ forall_chars (fun a => negb (Ascii.eqb a "<")) pre = true
    /\ l <> ""
    /\ forall_chars cls_char l = true
    /\ valid_elements elems = true
    /\ forall_chars cls_SP ws = true.

(** What the transaction of a session holds in each state. *)
Definition well_formed_session (s : session) : Prop :=
  match st s with
  | STATE_0 | STATE_1 => current_email s = Email_init
  | STATE_2 =>
      exists p, mailbox_path p /\ current_email s = mkEmail p [] "" [] ""
  | STATE_3 =>
      exists p fps,
        mailbox_path p /\ fps <> [] /\ Forall mailbox_path fps
        /\ current_email s = mkEmail p fps "" [] ""
  | STATE_4 =>
      exists p fps lines,
        mailbox_path p /\ fps <> [] /\ Forall mailbox_path fps
        /\ ~ In EOMD_SEQ lines
        /\ current_email s = mkEmail p fps "" lines ""
  end.

(** The replies of the server. *)
Definition error_replies : list string :=
  [SYN_COM_UNREC_ERR_500_MSG; SYN_PARAM_ARG_ERR_501_MSG; BAD_SEQ_COM_ERR_503_MSG].

Definition success_replies (env : peer) : list string :=
  [HELO_ACK_250_MSG_START_UNENC ++ client_address env ++ HELO_ACK_250_MSG_END_UNENC;
   OK_250_MSG; START_MAIL_354_MSG; CLOS_CON_221_MSG env].

(** A line as the framing hands it over: one terminator, at its end. *)
Definition single_line (line : string) : Prop :=
  exists body, line = body ++ NL /\ mem_char LF body = false.

(** The text of consecutive lines, as it sits in the stream buffer. *)
Definition joined (lines : list string) : string := fold_right String.append "" lines.

(** A pass that ends the loop has closed the socket: the log grew from [base]
    by events among which is the closing; no exception escaped. *)
Definition ends_closed (base : list event) (o : outcome) : Prop :=
  match o with
  | Continue _ => True
  | Break s' => exists evs, log s' = (base ++ evs)%list /\ In EvClose evs
  | Uncaught _ _ => False
  end.

(** A session that has been greeted and holds a QUIT in its buffer. *)
Definition sample_quit_socket : socket :=
  mkSocket [Some ("HELO client.example" ++ NL ++ "QUIT" ++ NL)] [].

Definition sample_quit_session : session :=
  mkSession STATE_1 Email_init (mkRS ("QUIT" ++ NL)) (mkSocket [] [])
    [EvRecv ("HELO client.example" ++ NL ++ "QUIT" ++ NL);
     EvSend ("250 Hello 10.0.0.7 pleased to meet you" ++ NL)].

(** A path made of a valid mailbox. *)
Definition valid_path (p : string) : Prop :=
  exists l elems,
    p = render_path l elems /\ valid_local l = true /\ valid_elements elems = true.

(** ** Lists of mailboxes *)

(** The further mailboxes of a list, each after a comma and optional spaces or
    tabs. *)
Fixpoint render_more (more : list (string * (string * list string))) : string :=
  match more with
  | [] => ""
  | (ws, (l, elems)) :: more' => "," ++ ws ++ render_mailbox l elems ++ render_more more'
  end.

Definition render_mailboxes (l : string) (elems : list string)
    (more : list (string * (string * list string))) : string :=
  render_mailbox l elems ++ render_more more.

Definition valid_more (more : list (string * (string * list string))) : bool :=
  forallb (fun '(ws, (l, elems)) =>
             forall_chars cls_SP ws && valid_local l && valid_elements elems) more.

(** ** Filling an email *)

(** The only way a step of [fill] raises: EarlyTerminationError, once
    standard input is exhausted. *)
Definition ends_early (out : (exn + Email) * terminal) : Prop :=
  match fst out with
  | inl x => x = EarlyTerminationError /\ stdin (snd out) = []
  | inr _ => True
  end.

(** The step returns or raises on every terminal, and ends early when it
    raises. *)
Definition fill_step (m : F Email) : Prop :=
  forall t, exists out, m t = Some out /\ ends_early out.




(** The pieces of a list of mailboxes between its commas. *)
Definition pieces (more : list (string * (string * list string))) : list string :=
  map (fun '(ws, (l, elems)) => ws ++ render_mailbox l elems) more.


(** What is typed for one email: attempts at a reverse path, attempts at
    the forward paths, the subject, the message and the line with a single
    dot that ends it, and the name of the attachment. *)
Definition typed_form (from_lines to_lines : list string) (subject : string)
    (lines : list string) (filename : string) (rest : list string) : list string :=
  (from_lines ++ to_lines ++ [subject] ++ lines ++ ["."; filename] ++ rest)%list.

Definition sample_form : list string :=
  typed_form ["a.x"; "a@x.com"] ["b@y.com,"; "b@y.com, c@z.org"] "Hi"
    ["Hello"; ".."] "note.txt" ["left"].

(** A message line as [fill] stores it: a typed line with its terminator,
    other than the end-of-data marker. *)
Definition stored_line (line : string) : Prop :=
  line <> Mail.EOMD_SEQ /\ exists text, line = text ++ NL.

(** What [fill] has made of the email [e] when it returns [e']. *)
Definition filled_from (e e' : Email) : Prop :=
  (exists m, _reverse_path e' = "<" ++ m ++ ">"
             /\ parse_mailbox (mkRS m) = (inr tt, mkRS ""))
  /\ _forward_paths e' <> []
  /\ Forall (fun p => exists m, p = "<" ++ m ++ ">") (_forward_paths e')
  /\ exists new, _message_lines e' = (_message_lines e ++ new)%list
                 /\ Forall stored_line new.

(** What the terminal shows once the sample form has been read. *)
Definition sample_printed : list string :=
  ["From:" ++ NL;
   "Invalid <mailbox> provided for reverse-path: error parsing for <mailbox> production rule."
   ++ NL;
   "From:" ++ NL;
   "To:" ++ NL;
   "Invalid <mailbox> sequence for forward-paths: error parsing for <string> production rule."
   ++ NL;
   "To:" ++ NL; "Subject:" ++ NL; "Message:" ++ NL; "Attachment:" ++ NL].

(** ** What the driver can raise *)




(** A socket on which the answer to the first recipient never comes. *)
Definition sample_silent_client : client :=
  mkClient (mkSocket [Some ("220 mail.example" ++ NL);
                      Some ("250 Hello 10.0.0.9 pleased to meet you" ++ NL);
                      Some ("250 OK" ++ NL); None] []) [].

(** What the loop of [parse_comma_sep_mailboxes] does with what follows a
    mailbox, [fuel] passes being left. *)
Definition after_mailbox (fuel : nat) (tail : string)
    : option ((exn + unit) * RemainingString) :=
  match tail with
  | EmptyString => Some (inr tt, mkRS "")
  | String c tail' =>
      if Ascii.eqb c "," then comma_sep_loop fuel (mkRS (skip cls_SP tail'))
      else Some (inl (ParsingError "comma-sep-mailboxes"), mkRS tail)
  end.


(** The pass over [s] delivers mail: the data state, and the end-of-data
    marker as the first line of the buffer. *)
Definition delivers (s : session) : bool :=
  match st s with
  | STATE_4 =>
      contains_complete_msg (sock_stream_rem_string s)
      && String.eqb (fst (split_line (get (sock_stream_rem_string s)))) Server.EOMD_SEQ
  | _ => false
  end.

(** How a pass that does not deliver mail can end. *)
Definition ends_or_fails_to_receive (env : peer) (s : session) (o : outcome) : Prop :=
  match o with
  | Continue _ => True
  | Break s' => exists evs, log s' = (log s ++ evs)%list /\ In EvClose evs
  | Uncaught e s' =>
      contains_complete_msg (sock_stream_rem_string s) = false
      /\ ((e = TypeError
           /\ fst (sock_recv (connection_socket s)) = None
           /\ log s' = (log s ++ [EvClose])%list)
          \/ (e = UnicodeDecodeError
              /\ exists chunk,
                   fst (sock_recv (connection_socket s)) = Some chunk
                   /\ Server.decode env chunk = None
                   /\ log s' = (log s ++ [EvRecv chunk])%list))
  end.

(** ** The language of a pattern *)

Definition flatten (ms : list string) : string := fold_right String.append "" ms.

(** The texts a pattern matches, whatever the order in which the matcher
    tries them. *)
Fixpoint in_lang (r : regexp) (m : string) {struct r} : Prop :=
  match r with
  | REps => m = ""
  | RChar c => m = String c ""
  | RClass p => exists a, p a = true /\ m = String a ""
  | RSeq r1 r2 => exists m1 m2, in_lang r1 m1 /\ in_lang r2 m2 /\ m = m1 ++ m2
  | RStar r1 => exists ms, Forall (in_lang r1) ms /\ m = flatten ms
  end.

(** * Properties *)

(** ** Strings *)

Lemma str_app_nil_r (s : string) : s ++ "" = s.
Proof. induction s as [|a s IH]; simpl; [reflexivity | now rewrite IH]. Qed.

Lemma str_app_assoc (a b c : string) : (a ++ b) ++ c = a ++ b ++ c.
Proof. induction a as [|x a IH]; simpl; [reflexivity | now rewrite IH]. Qed.

Lemma str_length_app (a b : string) :
  String.length (a ++ b) = String.length a + String.length b.
Proof. induction a as [|x a IH]; simpl; [reflexivity | now rewrite IH]. Qed.

Lemma take_app (a b : string) : take (String.length a) (a ++ b) = a.
Proof. induction a as [|x a IH]; simpl; [now destruct b | now rewrite IH]. Qed.

Lemma drop_app (a b : string) : drop (String.length a) (a ++ b) = b.
Proof. induction a as [|x a IH]; simpl; [reflexivity | exact IH]. Qed.

Lemma forall_chars_app p (a b : string) :
  forall_chars p (a ++ b) = forall_chars p a && forall_chars p b.
Proof.
  induction a as [|x a IH]; simpl; [reflexivity|].
  now rewrite IH, andb_assoc.
Qed.

Lemma forall_chars_impl (p q : ascii -> bool) (s : string) :
  (forall c, p c = true -> q c = true) ->
  forall_chars p s = true -> forall_chars q s = true.
Proof.
  intros Hpq; induction s as [|a s IH]; simpl; [reflexivity|].
  intros H; apply andb_true_iff in H as [Ha Hs].
  now rewrite (Hpq _ Ha), IH.
Qed.

(** ** The matcher *)

Lemma star_class p k : forall n s,
  String.length s <= n ->
  star_loop (rmatch (RClass p)) k n s = backtrack p k s.
Proof.
  induction n as [|n IH]; intros [|a s] Hn; simpl in *; try reflexivity; try lia.
  destruct (p a); [|reflexivity].
  assert (Hlt : (String.length s <? S (String.length s))%nat = true)
    by (apply Nat.ltb_lt; lia).
  rewrite Hlt, IH by lia. reflexivity.
Qed.

Lemma rmatch_star_class p k s :
  rmatch (RStar (RClass p)) s k = backtrack p k s.
Proof. simpl. apply star_class. lia. Qed.

Lemma star_loop_S body k n s :
  star_loop body k (S n) s =
  match body s (fun s' => if (String.length s' <? String.length s)%nat
                          then star_loop body k n s' else None) with
  | Some x => Some x
  | None => k s
  end.
Proof. reflexivity. Qed.

Lemma rmatch_star r s k :
  rmatch (RStar r) s k = star_loop (rmatch r) k (String.length s) s.
Proof. reflexivity. Qed.

Lemma rmatch_seq r1 r2 s k :
  rmatch (RSeq r1 r2) s k = rmatch r1 s (fun s' => rmatch r2 s' k).
Proof. reflexivity. Qed.

Lemma rmatch_class_cons p a s k :
  rmatch (RClass p) (String a s) k = if p a then k s else None.
Proof. reflexivity. Qed.

Lemma rmatch_char_cons c a s k :
  rmatch (RChar c) (String a s) k = if Ascii.eqb a c then k s else None.
Proof. reflexivity. Qed.

Lemma rmatch_plus_class p k s :
  rmatch (RPlus (RClass p)) s k =
  match s with
  | String a s' => if p a then backtrack p k s' else None
  | EmptyString => None
  end.
Proof.
  unfold RPlus. cbn [rmatch]. destruct s as [|a s]; [reflexivity|].
  destruct (p a); [|reflexivity]. apply star_class. lia.
Qed.

Lemma backtrack_Some p s : backtrack p Some s = Some (skip p s).
Proof.
  induction s as [|a s IH]; simpl; [reflexivity|].
  destruct (p a); [now rewrite IH | reflexivity].
Qed.

(** With a continuation that accepts where the run of [p] ends, the greedy
    choice is final. *)
Lemma backtrack_greedy p k (m rest : string) :
  forall_chars p m = true ->
  k rest <> None ->
  match rest with String c _ => p c = false | EmptyString => True end ->
  backtrack p k (m ++ rest) = k rest.
Proof.
  intros Hm Hk Hrest. induction m as [|a m IH]; simpl in *.
  - destruct rest as [|c r]; simpl; [reflexivity|]. now rewrite Hrest.
  - apply andb_true_iff in Hm as [Ha Hm]. rewrite Ha, (IH Hm).
    destruct (k rest); [reflexivity | congruence].
Qed.

(** Going through a run of [p] cannot lose a match found further on. *)
Lemma backtrack_through p k (m rest : string) x :
  forall_chars p m = true ->
  backtrack p k rest = Some x ->
  backtrack p k (m ++ rest) = Some x.
Proof.
  intros Hm Hk. induction m as [|a m IH]; simpl in *; [exact Hk|].
  apply andb_true_iff in Hm as [Ha Hm]. now rewrite Ha, (IH Hm).
Qed.

(** A successful match splits the subject into the matched text and the
    rest handed to the continuation. *)
Lemma rmatch_sound P : forall r, re_chars P r -> forall s k x,
  rmatch r s k = Some x ->
  exists m rest, s = m ++ rest /\ forall_chars P m = true /\ k rest = Some x.
Proof.
  induction r as [|c|p|r1 IH1 r2 IH2|r1 IH1]; intros HP s k x H; simpl in *.
  - exists "", s. auto.
  - destruct s as [|a s]; [discriminate|].
    destruct (Ascii.eqb a c) eqn:E; [|discriminate].
    apply Ascii.eqb_eq in E; subst a.
    exists (String c ""), s. simpl. now rewrite HP.
  - destruct s as [|a s]; [discriminate|].
    destruct (p a) eqn:E; [|discriminate].
    exists (String a ""), s. simpl. now rewrite (HP _ E).
  - destruct HP as [HP1 HP2].
    destruct (IH1 HP1 _ _ _ H) as (m1 & rest1 & -> & Hm1 & H2).
    destruct (IH2 HP2 _ _ _ H2) as (m2 & rest2 & -> & Hm2 & H3).
    exists (m1 ++ m2), rest2. rewrite str_app_assoc, forall_chars_app, Hm1, Hm2. auto.
  - remember (String.length s) as n eqn:En. clear En.
    revert s H. induction n as [|n IHn]; intros s H; simpl in H.
    + exists "", s. auto.
    + destruct (rmatch r1 s _) as [y|] eqn:E.
      * injection H as ->.
        destruct (IH1 HP _ _ _ E) as (m1 & rest1 & -> & Hm1 & H2).
        destruct (_ <? _)%nat; [|discriminate].
        destruct (IHn _ H2) as (m2 & rest2 & -> & Hm2 & H3).
        exists (m1 ++ m2), rest2. rewrite str_app_assoc, forall_chars_app, Hm1, Hm2. auto.
      * exists "", s. auto.
Qed.

Lemma re_chars_true r : re_chars (fun _ => true) r.
Proof. induction r; simpl; auto. Qed.

(** ** The cursor *)

(** [consume] leaves the rest of the subject after the match. *)
Lemma consume_rmatch r s :
  consume r (mkRS s) =
  match rmatch r s Some with
  | Some rest => (inr tt, mkRS rest)
  | None => (inl ConsumptionError, mkRS s)
  end.
Proof.
  unfold consume, re_match, get, set. simpl.
  destruct (rmatch r s Some) as [rest|] eqn:E; [|reflexivity].
  destruct (rmatch_sound _ r (re_chars_true r) _ _ _ E) as (m & rest' & -> & _ & [= ->]).
  rewrite str_length_app, Nat.add_sub, take_app, drop_app. reflexivity.
Qed.

Lemma rmatch_lit l : forall s k,
  rmatch (RLit l) s k =
  match starts_with l s with Some r => k r | None => None end.
Proof.
  induction l as [|c l IH]; intros s k; simpl; [reflexivity|].
  destruct s as [|a s]; [reflexivity|].
  destruct (Ascii.eqb a c); [apply IH | reflexivity].
Qed.

Lemma starts_with_app l s : starts_with l (l ++ s) = Some s.
Proof.
  induction l as [|c l IH]; simpl; [reflexivity|].
  now rewrite Ascii.eqb_refl.
Qed.

Lemma starts_with_inv l : forall s r, starts_with l s = Some r -> s = l ++ r.
Proof.
  induction l as [|c l IH]; intros s r H; simpl in *; [congruence|].
  destruct s as [|a s]; [discriminate|].
  destruct (Ascii.eqb a c) eqn:E; [|discriminate].
  apply Ascii.eqb_eq in E. subst a. now rewrite (IH _ _ H).
Qed.

(** A literal consumed under [except ConsumptionError: raise e]. *)
Lemma consume_lit_or l e s :
  try_except (consume (RLit l)) (except_ConsumptionError (raise e)) (mkRS s) =
  match starts_with l s with
  | Some r => (inr tt, mkRS r)
  | None => (inl e, mkRS s)
  end.
Proof.
  unfold try_except. rewrite consume_rmatch, rmatch_lit.
  destruct (starts_with l s); reflexivity.
Qed.

Lemma consume_lit l s :
  consume (RLit l) (mkRS s) =
  match starts_with l s with
  | Some r => (inr tt, mkRS r)
  | None => (inl ConsumptionError, mkRS s)
  end.
Proof.
  rewrite consume_rmatch, rmatch_lit. destruct (starts_with l s); reflexivity.
Qed.

(** One or more characters of a class under
    [except ConsumptionError: raise e]. *)
Lemma consume_plus_or p e s :
  try_except (consume (RPlus (RClass p))) (except_ConsumptionError (raise e)) (mkRS s) =
  match s with
  | String a s' => if p a then (inr tt, mkRS (skip p s')) else (inl e, mkRS s)
  | EmptyString => (inl e, mkRS s)
  end.
Proof.
  unfold try_except. rewrite consume_rmatch, rmatch_plus_class.
  destruct s as [|a s]; [reflexivity|].
  destruct (p a); [|reflexivity]. now rewrite backtrack_Some.
Qed.

Lemma parse_whitespace_eq s :
  parse_whitespace (mkRS s) =
  match s with
  | String a s' =>
      if cls_SP a then (inr tt, mkRS (skip cls_SP s'))
      else (inl (ParsingError "whitespace"), mkRS s)
  | EmptyString => (inl (ParsingError "whitespace"), mkRS s)
  end.
Proof. apply consume_plus_or. Qed.

Lemma parse_arbitrary_text_eq s :
  parse_arbitrary_text (mkRS s) =
  match s with
  | String a s' =>
      if cls_printable a then (inr tt, mkRS (skip cls_printable s'))
      else (inl (ParsingError "arbitrary-text"), mkRS s)
  | EmptyString => (inl (ParsingError "arbitrary-text"), mkRS s)
  end.
Proof. apply consume_plus_or. Qed.

Lemma parse_string_eq s :
  parse_string (mkRS s) =
  match s with
  | String a s' =>
      if cls_char a then (inr tt, mkRS (skip cls_char s'))
      else (inl (ParsingError "string"), mkRS s)
  | EmptyString => (inl (ParsingError "string"), mkRS s)
  end.
Proof. apply consume_plus_or. Qed.

Lemma parse_nullspace_eq s :
  parse_nullspace (mkRS s) = (inr tt, mkRS (skip cls_SP s)).
Proof.
  unfold parse_nullspace, try_except, pat_nullspace.
  now rewrite consume_rmatch, rmatch_star_class, backtrack_Some.
Qed.

Lemma parse_CRLF_eq s :
  parse_CRLF (mkRS s) =
  match starts_with NL s with
  | Some r => (inr tt, mkRS r)
  | None => (inl (ParsingError "CRLF"), mkRS s)
  end.
Proof. apply consume_lit_or. Qed.

Lemma skip_app p (m rest : string) :
  forall_chars p m = true ->
  match rest with String c _ => p c = false | EmptyString => True end ->
  skip p (m ++ rest) = rest.
Proof.
  intros Hm Hr. induction m as [|a m IH]; simpl in *.
  - destruct rest as [|c r]; simpl; [reflexivity | now rewrite Hr].
  - apply andb_true_iff in Hm as [Ha Hm]. now rewrite Ha, IH.
Qed.

(** ** Which exceptions a production can raise *)

Lemma raises_only_bind {A B} P (m : M A) (f : A -> M B) :
  raises_only P m -> (forall a, raises_only P (f a)) -> raises_only P (bind m f).
Proof.
  intros Hm Hf rs. unfold bind. specialize (Hm rs).
  destruct (m rs) as [[e|a] rs']; simpl in *; [exact Hm | apply Hf].
Qed.

Lemma raises_only_consume_or r e :
  raises_only (fun x => is_ParsingError x) (try_except (consume r)
    (except_ConsumptionError (raise (ParsingError e)))).
Proof.
  intros [s]. unfold try_except. rewrite consume_rmatch.
  destruct (rmatch r s Some); simpl; auto.
Qed.

Lemma raises_only_mailbox : raises_only (fun x => is_ParsingError x) parse_mailbox.
Proof.
  unfold parse_mailbox, parse_local_part, parse_string, parse_domain.
  repeat (apply raises_only_bind; [|intros _]); apply raises_only_consume_or.
Qed.

Lemma raises_only_path : raises_only (fun x => is_ParsingError x) parse_path.
Proof.
  unfold parse_path.
  repeat (apply raises_only_bind; [|intros _]);
    first [apply raises_only_consume_or | apply raises_only_mailbox].
Qed.

Lemma raises_only_path_args :
  raises_only (fun x => is_ParsingError x)
    (parse_nullspace ;; parse_path ;; parse_nullspace ;; parse_CRLF).
Proof.
  repeat (apply raises_only_bind; [|intros _]);
    first [apply raises_only_consume_or | apply raises_only_path].
Qed.

Lemma raises_only_helo_args :
  raises_only (fun x => is_ParsingError x)
    (parse_whitespace ;; parse_arbitrary_text ;; parse_nullspace ;; parse_CRLF).
Proof.
  repeat (apply raises_only_bind; [|intros _]); apply raises_only_consume_or.
Qed.

Lemma raises_only_no_args :
  raises_only (fun x => is_ParsingError x) (parse_nullspace ;; parse_CRLF).
Proof.
  repeat (apply raises_only_bind; [|intros _]); apply raises_only_consume_or.
Qed.

Lemma args_block (m : M unit) rs :
  raises_only (fun x => is_ParsingError x) m ->
  args_outcome
    (try_except m
       (except_ParsingError (fun e => raise (ParameterArgumentParsingError (str e)))) rs).
Proof.
  intros Hm. specialize (Hm rs). unfold args_outcome, try_except, except_ParsingError.
  destruct (m rs) as [[e|[]] rs']; simpl in *; [|exact I].
  rewrite Hm. exact I.
Qed.

(** ** Keywords, in the words of the specification *)

Lemma lookahead_boundary r : lookahead (mkRS r) = boundary r.
Proof.
  destruct r as [|c r]; [reflexivity|].
  unfold lookahead, is_empty, get_first_char, get, is_empty; simpl.
  destruct (Ascii.eqb c " "), (Ascii.eqb c TAB), (Ascii.eqb c LF); reflexivity.
Qed.

Lemma args_kind r : args_outcome r -> kind_outcome true r.
Proof.
  unfold args_outcome, kind_outcome.
  destruct (fst r) as [[]|]; intros H; try reflexivity; contradiction.
Qed.

Lemma parse_helo_msg_kind ms :
  kind_outcome (keyword_matches _HELO ms) (parse_helo_msg (mkRS ms)).
Proof.
  unfold parse_helo_msg, bind. rewrite consume_lit_or.
  unfold keyword_matches, word_then_boundary.
  destruct (starts_with "HELO" ms) as [r|]; [|reflexivity].
  rewrite lookahead_boundary. destruct (boundary r); [|reflexivity].
  apply args_kind, args_block, raises_only_helo_args.
Qed.

Lemma parse_data_cmd_kind ms :
  kind_outcome (keyword_matches _DATA ms) (parse_data_cmd (mkRS ms)).
Proof.
  unfold parse_data_cmd, bind. rewrite consume_lit_or.
  unfold keyword_matches, word_then_boundary.
  destruct (starts_with "DATA" ms) as [r|]; [|reflexivity].
  rewrite lookahead_boundary. destruct (boundary r); [|reflexivity].
  apply args_kind, args_block, raises_only_no_args.
Qed.

Lemma parse_quit_cmd_kind ms :
  kind_outcome (keyword_matches _QUIT ms) (parse_quit_cmd (mkRS ms)).
Proof.
  unfold parse_quit_cmd, bind. rewrite consume_lit_or.
  unfold keyword_matches, word_then_boundary.
  destruct (starts_with "QUIT" ms) as [r|]; [|reflexivity].
  rewrite lookahead_boundary. destruct (boundary r); [|reflexivity].
  apply args_kind, args_block, raises_only_no_args.
Qed.

(** The keyword block of MAIL FROM and RCPT TO. *)
Lemma two_words_block w1 w2 name ms :
  let out := try_except
               (consume (RLit w1) ;; parse_whitespace ;; consume (RLit w2))
               (or_except
                  (except_ConsumptionError (raise (MessageParsingError name)))
                  (except_ParsingError (fun e => raise (MessageParsingError (str e)))))
               (mkRS ms) in
  match two_words_rest w1 w2 ms with
  | Some rest => out = (inr tt, mkRS rest)
  | None => exists m rs, out = (inl (MessageParsingError m), rs)
  end.
Proof.
  intros out. subst out.
  unfold try_except, bind, two_words_rest, raise. rewrite consume_lit.
  destruct (starts_with w1 ms) as [r|]; simpl; [|now eauto].
  rewrite parse_whitespace_eq.
  destruct r as [|c r]; simpl; [now eauto|].
  destruct (cls_SP c); simpl; [|now eauto].
  rewrite consume_lit.
  destruct (starts_with w2 (skip cls_SP r)); simpl; now eauto.
Qed.

Lemma parse_mail_from_cmd_kind ms :
  kind_outcome (keyword_matches _MAIL_FROM ms) (parse_mail_from_cmd (mkRS ms)).
Proof.
  unfold parse_mail_from_cmd. unfold bind at 1.
  pose proof (two_words_block "MAIL" "FROM:" "mail-from-cmd" ms) as H. cbv zeta in H.
  unfold keyword_matches, two_words.
  destruct (two_words_rest "MAIL" "FROM:" ms) as [rest|].
  - rewrite H. apply args_kind, args_block, raises_only_path_args.
  - destruct H as (m & rs & ->). reflexivity.
Qed.

Lemma parse_rcpt_to_cmd_kind ms :
  kind_outcome (keyword_matches _RCPT_TO ms) (parse_rcpt_to_cmd (mkRS ms)).
Proof.
  unfold parse_rcpt_to_cmd. unfold bind at 1.
  pose proof (two_words_block "RCPT" "TO:" "rcpt-to-cmd" ms) as H. cbv zeta in H.
  unfold keyword_matches, two_words.
  destruct (two_words_rest "RCPT" "TO:" ms) as [rest|].
  - rewrite H. apply args_kind, args_block, raises_only_path_args.
  - destruct H as (m & rs & ->). reflexivity.
Qed.

(** One block of the classifier, given what its production tells. *)
Lemma attempt_kind parse ms t next b :
  kind_outcome b (parse (mkRS ms)) ->
  (b = true /\ exists err, attempt parse ms t next = inr (mkMessage t err))
  \/ (b = false /\ attempt parse ms t next = next).
Proof.
  unfold kind_outcome, attempt.
  destruct (fst (parse (mkRS ms))) as [[]|]; intros H; try contradiction; eauto.
Qed.

Lemma Message_init_kind (ms : string) :
  exists err, Message_init ms = inr (mkMessage (first_matching ms) err)
              /\ (first_matching ms = _UNRECOGNIZED -> err = false).
Proof.
  unfold Message_init, first_matching, priority. cbn [find].
  destruct (attempt_kind _ _ _HELO
              (attempt parse_mail_from_cmd ms _MAIL_FROM
              (attempt parse_rcpt_to_cmd ms _RCPT_TO
              (attempt parse_data_cmd ms _DATA
              (attempt parse_quit_cmd ms _QUIT
              (inr (mkMessage _UNRECOGNIZED false)))))) _
              (parse_helo_msg_kind ms)) as [[-> [e ->]]|[-> ->]];
    [exists e; split; [reflexivity | discriminate]|].
  destruct (attempt_kind _ _ _MAIL_FROM
              (attempt parse_rcpt_to_cmd ms _RCPT_TO
              (attempt parse_data_cmd ms _DATA
              (attempt parse_quit_cmd ms _QUIT
              (inr (mkMessage _UNRECOGNIZED false))))) _
              (parse_mail_from_cmd_kind ms)) as [[-> [e ->]]|[-> ->]];
    [exists e; split; [reflexivity | discriminate]|].
  destruct (attempt_kind _ _ _RCPT_TO
              (attempt parse_data_cmd ms _DATA
              (attempt parse_quit_cmd ms _QUIT
              (inr (mkMessage _UNRECOGNIZED false)))) _
              (parse_rcpt_to_cmd_kind ms)) as [[-> [e ->]]|[-> ->]];
    [exists e; split; [reflexivity | discriminate]|].
  destruct (attempt_kind _ _ _DATA
              (attempt parse_quit_cmd ms _QUIT
              (inr (mkMessage _UNRECOGNIZED false))) _
              (parse_data_cmd_kind ms)) as [[-> [e ->]]|[-> ->]];
    [exists e; split; [reflexivity | discriminate]|].
  destruct (attempt_kind _ _ _QUIT
              (inr (mkMessage _UNRECOGNIZED false)) _
              (parse_quit_cmd_kind ms)) as [[-> [e ->]]|[-> ->]];
    [exists e; split; [reflexivity | discriminate] | exists false; split; reflexivity].
Qed.

(** C5: classification is total.  For every input string the constructor
    of the classifier returns an object, no exception escapes it, and the
    kind it assigns is that of the first command grammar, in the priority
    order HELO, MAIL FROM, RCPT TO, DATA, QUIT, whose keyword matches, or
    Unrecognized when none does. *)
Theorem classification_total (ms : string) :
  exists m, Message_init ms = inr m /\ _msg_type m = first_matching ms.
Proof.
  destruct (Message_init_kind ms) as (err & H & _).
  exists (mkMessage (first_matching ms) err). split; [exact H | reflexivity].
Qed.

Lemma Message_init_unrecognized ms :
  first_matching ms = _UNRECOGNIZED ->
  Message_init ms = inr (mkMessage _UNRECOGNIZED false).
Proof.
  intros H. destruct (Message_init_kind ms) as (err & E & Herr).
  rewrite E, H, (Herr H). reflexivity.
Qed.

(** C10: a line classified as Unrecognized has valid parameters and
    arguments: the parameter/argument-error flag is only set for lines whose
    keyword was recognized. *)
Theorem unrecognized_has_valid_params_args (ms : string) (m : Message) :
  Message_init ms = inr m ->
  is_recognized m = false ->
  has_valid_params_args m = true.
Proof.
  intros Hm Hrec. destruct (Message_init_kind ms) as (err & E & Herr).
  rewrite E in Hm. injection Hm as <-.
  unfold is_recognized, has_valid_params_args in *. simpl in *.
  destruct (first_matching ms); try discriminate.
  now rewrite Herr.
Qed.

Lemma unrecognized_has_valid_params_args_witness :
  Message_init ("NOOP" ++ NL) = inr (mkMessage _UNRECOGNIZED false)
  /\ has_valid_params_args (mkMessage _UNRECOGNIZED false) = true.
Proof.
  split; [reflexivity|].
  apply (unrecognized_has_valid_params_args ("NOOP" ++ NL)); reflexivity.
Defined.

(** ** HELO *)

Lemma boundary_SP c r : cls_SP c = true -> boundary (String c r) = true.
Proof.
  unfold cls_SP, boundary. intros H. apply orb_true_iff in H as [-> | ->];
    [reflexivity | now rewrite orb_true_r].
Qed.

(** C3 (counterexample): the bare keyword is classified as HELO with
    malformed arguments. *)
Lemma helo_bare_keyword_invalid :
  exists m, Message_init ("HELO" ++ NL) = inr m
            /\ _msg_type m = _HELO /\ has_valid_params_args m = false.
Proof. eexists. repeat split. Qed.

(** C3 (amended): the keyword HELO followed by only spaces or tabs and
    the line terminator classifies as HELO with argumentsValid = false:
    the production requires whitespace and a non-empty text after the
    keyword. *)
Theorem helo_requires_argument (ws : string) :
  forall_chars cls_SP ws = true ->
  Message_init ("HELO" ++ ws ++ NL) = inr (mkMessage _HELO true).
Proof.
  intros Hws. unfold Message_init, attempt at 1.
  unfold parse_helo_msg, bind. rewrite consume_lit_or, starts_with_app.
  rewrite lookahead_boundary.
  destruct ws as [|c ws]; simpl in Hws.
  - reflexivity.
  - apply andb_true_iff in Hws as [Hc Hws].
    cbn [String.append]. rewrite (boundary_SP _ _ Hc).
    unfold try_except, bind. rewrite parse_whitespace_eq, Hc.
    rewrite (skip_app cls_SP ws NL Hws) by reflexivity.
    reflexivity.
Qed.

Lemma helo_requires_argument_witness :
  Message_init ("HELO" ++ "  " ++ NL) = inr (mkMessage _HELO true).
Proof. apply (helo_requires_argument "  "). reflexivity. Defined.

(** With whitespace and a printable text after the keyword the arguments
    are valid. *)
Lemma helo_with_argument (ws text : string) (c a : ascii) :
  forall_chars cls_SP (String c ws) = true ->
  forall_chars cls_printable (String a text) = true ->
  Ascii.eqb a " " = false ->
  Message_init ("HELO" ++ String c ws ++ String a text ++ NL) = inr (mkMessage _HELO false).
Proof.
  intros Hws Htext Ha. simpl in Hws, Htext.
  apply andb_true_iff in Hws as [Hc Hws]. apply andb_true_iff in Htext as [Hpa Htext].
  assert (HaSP : cls_SP a = false).
  { unfold cls_SP. rewrite Ha. simpl.
    destruct (Ascii.eqb a TAB) eqn:E; [|reflexivity].
    apply Ascii.eqb_eq in E. subst a. discriminate. }
  unfold Message_init, attempt at 1.
  unfold parse_helo_msg, bind. rewrite consume_lit_or, starts_with_app.
  rewrite lookahead_boundary. cbn [String.append]. rewrite (boundary_SP _ _ Hc).
  unfold try_except, bind. rewrite parse_whitespace_eq, Hc.
  rewrite (skip_app cls_SP ws (String a (text ++ NL)) Hws HaSP).
  rewrite parse_arbitrary_text_eq, Hpa.
  rewrite (skip_app cls_printable text NL Htext) by reflexivity.
  reflexivity.
Qed.

(** ** Keywords that are a prefix of a longer token *)


Lemma two_words_rest_app w1 w2 c ws rest :
  forall_chars cls_SP (String c ws) = true ->
  match w2 with String a _ => cls_SP a = false | EmptyString => False end ->
  two_words_rest w1 w2 (w1 ++ String c ws ++ w2 ++ rest) = Some rest.
Proof.
  intros Hws Hw2. simpl in Hws. apply andb_true_iff in Hws as [Hc Hws].
  unfold two_words_rest. rewrite starts_with_app. cbn [String.append]. rewrite Hc.
  destruct w2 as [|a w2]; [contradiction|].
  rewrite (skip_app cls_SP ws (String a w2 ++ rest) Hws Hw2).
  apply starts_with_app.
Qed.



(** ** Mailboxes, in the words of the specification *)

Lemma join_dotted : forall elems e, join "." (e :: elems) = e ++ dotted elems.
Proof.
  induction elems as [|e' elems IH]; intros e.
  - simpl. now rewrite str_app_nil_r.
  - change (join "." (e :: e' :: elems)) with (e ++ "." ++ join "." (e' :: elems)).
    now rewrite IH.
Qed.

Lemma is_local_char_cls_char c : is_local_char c = true -> cls_char c = true.
Proof.
  destruct c as [[] [] [] [] [] [] [] []]; vm_compute; congruence.
Qed.

Lemma cls_letter_let_dig c : cls_letter c = true -> cls_let_dig c = true.
Proof.
  unfold cls_letter, cls_let_dig. intros ->. reflexivity.
Qed.

Lemma element_match e s2 k :
  is_element e = true ->
  match s2 with String c _ => cls_let_dig c = false | EmptyString => True end ->
  k s2 <> None ->
  rmatch pat_element (e ++ s2) k = k s2.
Proof.
  intros He Hs2 Hk. destruct e as [|a e]; [discriminate|].
  simpl in He. apply andb_true_iff in He as [Ha He].
  unfold pat_element. rewrite rmatch_seq. cbn [String.append].
  rewrite rmatch_class_cons, Ha.
  rewrite rmatch_star_class. now apply backtrack_greedy.
Qed.

Lemma dotted_stop elems rest :
  domain_stop rest ->
  match dotted elems ++ rest with
  | String c _ => cls_let_dig c = false
  | EmptyString => True
  end.
Proof.
  intros Hr. destruct elems as [|e elems]; simpl.
  - destruct rest; [exact I | apply Hr].
  - reflexivity.
Qed.

Lemma star_groups k rest x :
  domain_stop rest ->
  k rest = Some x ->
  forall elems n,
    forallb is_element elems = true ->
    String.length (dotted elems ++ rest) <= n ->
    star_loop (rmatch (RSeq (RChar ".") pat_element)) k n (dotted elems ++ rest) = Some x.
Proof.
  intros Hr Hk. induction elems as [|e elems IH]; intros n He Hn.
  - simpl. destruct n as [|n]; simpl; [exact Hk|].
    destruct rest as [|c r]; [exact Hk|].
    destruct Hr as [_ Hdot]. now rewrite Hdot.
  - simpl in He. apply andb_true_iff in He as [He Hes].
    destruct n as [|n]; [simpl in Hn; lia|].
    cbn [dotted]. rewrite !str_app_assoc.
    cbn [String.append]. rewrite star_loop_S, rmatch_seq, rmatch_char_cons.
    cbn [Ascii.eqb Bool.eqb].
    rewrite element_match; [| exact He | now apply dotted_stop |].
    + assert (Hlt : (String.length (dotted elems ++ rest)
                     <? String.length (String "." (e ++ dotted elems ++ rest)))%nat = true).
      { apply Nat.ltb_lt. simpl. rewrite !str_length_app. lia. }
      rewrite Hlt, IH; [reflexivity | exact Hes |].
      simpl in Hn. rewrite !str_app_assoc in Hn. simpl in Hn. rewrite !str_length_app in Hn.
      rewrite !str_length_app. lia.
    + assert (Hlt : (String.length (dotted elems ++ rest)
                     <? String.length (String "." (e ++ dotted elems ++ rest)))%nat = true).
      { apply Nat.ltb_lt. simpl. rewrite !str_length_app. lia. }
      rewrite Hlt, IH; [discriminate | exact Hes |].
      simpl in Hn. rewrite !str_app_assoc in Hn. simpl in Hn. rewrite !str_length_app in Hn.
      rewrite !str_length_app. lia.
Qed.

Lemma parse_domain_render elems rest :
  valid_elements elems = true ->
  domain_stop rest ->
  parse_domain (mkRS (render_domain elems ++ rest)) = (inr tt, mkRS rest).
Proof.
  intros He Hr. destruct elems as [|e elems]; [discriminate|].
  unfold valid_elements in He. simpl in He. apply andb_true_iff in He as [He Hes].
  unfold parse_domain, try_except, render_domain.
  rewrite consume_rmatch, join_dotted, str_app_assoc.
  unfold pat_domain. rewrite rmatch_seq.
  rewrite element_match; [| exact He | now apply dotted_stop |].
  - cbv beta. rewrite rmatch_star.
    now rewrite (star_groups Some rest rest Hr eq_refl elems _ Hes (le_n _)).
  - cbv beta. rewrite rmatch_star.
    now rewrite (star_groups Some rest rest Hr eq_refl elems _ Hes (le_n _)).
Qed.

Lemma parse_mailbox_render l elems rest :
  valid_local l = true ->
  valid_elements elems = true ->
  domain_stop rest ->
  parse_mailbox (mkRS (render_mailbox l elems ++ rest)) = (inr tt, mkRS rest).
Proof.
  intros Hl He Hr. destruct l as [|a l]; [discriminate|].
  unfold valid_local in Hl. simpl in Hl. apply andb_true_iff in Hl as [Ha Hl].
  unfold parse_mailbox, parse_local_part, bind, render_mailbox.
  rewrite !str_app_assoc. cbn [String.append].
  rewrite parse_string_eq, (is_local_char_cls_char _ Ha).
  rewrite (skip_app cls_char l _ (forall_chars_impl _ _ _ is_local_char_cls_char Hl))
    by reflexivity.
  rewrite consume_lit_or. cbn [starts_with Ascii.eqb Bool.eqb].
  now apply parse_domain_render.
Qed.

(** C7: for every valid mailbox, parsing its rendered path with the
    path production succeeds and consumes exactly the rendered string: nothing
    is left of the rendered string alone, whatever follows it is left
    untouched, and the text consumed between the angle brackets by the mailbox
    production is exactly the mailbox. *)
Theorem path_round_trip (l : string) (elems : list string) :
  valid_local l = true ->
  valid_elements elems = true ->
  parse_path (mkRS (render_path l elems)) = (inr tt, mkRS "")
  /\ (forall rest,
        parse_path (mkRS (render_path l elems ++ rest)) = (inr tt, mkRS rest))
  /\ (forall rest,
        parse_mailbox (mkRS (render_mailbox l elems ++ ">" ++ rest))
        = (inr tt, mkRS (">" ++ rest))).
Proof.
  intros Hl He.
  assert (Hmb : forall rest,
             parse_mailbox (mkRS (render_mailbox l elems ++ ">" ++ rest))
             = (inr tt, mkRS (">" ++ rest))).
  { intros rest. apply parse_mailbox_render; [exact Hl | exact He |].
    simpl. split; reflexivity. }
  assert (Hpath : forall rest,
             parse_path (mkRS (render_path l elems ++ rest)) = (inr tt, mkRS rest)).
  { intros rest. unfold parse_path, bind, render_path.
    rewrite consume_lit_or. cbn [String.append starts_with Ascii.eqb Bool.eqb].
    rewrite str_app_assoc, Hmb, consume_lit_or. reflexivity. }
  split; [|split]; [| exact Hpath | exact Hmb].
  rewrite <- (str_app_nil_r (render_path l elems)). apply Hpath.
Qed.

Lemma path_round_trip_witness :
  parse_path (mkRS (render_path "b" ["y"; "com"])) = (inr tt, mkRS "").
Proof.
  assert (Hl : valid_local "b" = true) by reflexivity.
  assert (He : valid_elements ["y"; "com"] = true) by reflexivity.
  destruct (path_round_trip "b" ["y"; "com"] Hl He) as [H _]. exact H.
Defined.

(** ** What the server extracts from a valid MAIL FROM or RCPT TO line *)

Lemma take_matched (m rest : string) :
  take (String.length (m ++ rest) - String.length rest) (m ++ rest) = m.
Proof. now rewrite str_length_app, Nat.add_sub, take_app. Qed.

Lemma skip_split p : forall s, exists m, s = m ++ skip p s /\ forall_chars p m = true.
Proof.
  induction s as [|a s (m & E & Hm)]; simpl.
  - exists "". auto.
  - destruct (p a) eqn:Ha.
    + exists (String a m). simpl. now rewrite Ha, Hm, <- E.
    + exists "". auto.
Qed.

Lemma backtrack_last p k (m r : string) c x :
  forall_chars p m = true ->
  p c = true ->
  backtrack p k r = None ->
  k (String c r) = Some x ->
  backtrack p k (m ++ String c r) = Some x.
Proof.
  intros Hm Hc Hr Hk. apply backtrack_through; [exact Hm|].
  simpl. now rewrite Hc, Hr.
Qed.

Lemma no_bracket_after ws tail :
  forall_chars cls_SP ws = true ->
  backtrack cls_dot then_bracket (ws ++ NL ++ tail) = None.
Proof.
  induction ws as [|a ws IH]; intros H; simpl in *; [reflexivity|].
  apply andb_true_iff in H as [Ha Hws]. rewrite (IH Hws).
  unfold cls_SP in Ha. apply orb_true_iff in Ha as [Ha | Ha];
    apply Ascii.eqb_eq in Ha; subst a; reflexivity.
Qed.

Lemma dots_then_bracket (c : ascii) (mid post : string) :
  forall_chars cls_dot mid = true ->
  backtrack cls_dot then_bracket post = None ->
  re_match (RSeq (RChar c) (RSeq (RStar (RClass cls_dot)) (RChar ">")))
    (String c (mid ++ ">" ++ post))
  = Some (String c (mid ++ ">")).
Proof.
  intros Hmid Hpost. unfold re_match.
  rewrite rmatch_seq, rmatch_char_cons, Ascii.eqb_refl, rmatch_seq, rmatch_star_class.
  change (fun s' => rmatch (RChar ">") s' Some) with then_bracket.
  cbn [String.append].
  rewrite (backtrack_last cls_dot then_bracket mid post ">" post Hmid eq_refl Hpost eq_refl).
  change (String c (mid ++ String ">" post)) with ((String c mid) ++ String ">" post).
  replace (String c mid ++ String ">" post) with ((String c (mid ++ ">")) ++ post)
    by (simpl; now rewrite str_app_assoc).
  now rewrite take_matched.
Qed.

Lemma re_search_skip (c : ascii) r (pre s : string) :
  forall_chars (fun a => negb (Ascii.eqb a c)) pre = true ->
  re_search (RSeq (RChar c) r) (pre ++ s) = re_search (RSeq (RChar c) r) s.
Proof.
  induction pre as [|a pre IH]; intros H; simpl in *; [reflexivity|].
  apply andb_true_iff in H as [Ha Hpre].
  unfold re_match. rewrite rmatch_seq, rmatch_char_cons.
  destruct (Ascii.eqb a c); [discriminate|]. now apply IH.
Qed.

Lemma re_search_here r (s m : string) :
  re_match r s = Some m -> re_search r s = Some m.
Proof. intros H. destruct s; simpl; now rewrite H. Qed.

Lemma path_char_dot c : path_char c = true -> cls_dot c = true.
Proof.
  unfold path_char, cls_dot. intros H.
  apply andb_true_iff in H as [H _]. now apply andb_true_iff in H as [H _].
Qed.

Lemma local_char_not_at c : local_char c = true -> negb (Ascii.eqb c "@") = true.
Proof. unfold local_char. intros H. now apply andb_true_iff in H as [_ H]. Qed.

Lemma local_char_path_char c : local_char c = true -> path_char c = true.
Proof. unfold local_char. intros H. now apply andb_true_iff in H as [H _]. Qed.

Lemma path_line_bracketed s p :
  path_line s p -> re_search pat_bracketed s = Some p.
Proof.
  intros (pre & l & d & ws & tail & -> & -> & Hpre & Hl & Hd & Hws).
  unfold pat_bracketed. rewrite (re_search_skip "<" _ pre _ Hpre).
  apply re_search_here. cbn [String.append].
  apply dots_then_bracket; [|now apply no_bracket_after].
  rewrite forall_chars_app. simpl.
  rewrite (forall_chars_impl _ _ _ path_char_dot
             (forall_chars_impl _ _ _ local_char_path_char Hl)).
  now rewrite (forall_chars_impl _ _ _ path_char_dot Hd).
Qed.

Lemma path_line_domain s p :
  path_line s p ->
  exists d, re_search pat_at_to_bracket p = Some ("@" ++ d ++ ">").
Proof.
  intros (pre & l & d & ws & tail & _ & -> & _ & Hl & Hd & _).
  exists d. unfold pat_at_to_bracket.
  change ("<" ++ (l ++ "@" ++ d) ++ ">") with (String "<" ((l ++ "@" ++ d) ++ ">")).
  replace (String "<" ((l ++ "@" ++ d) ++ ">"))
    with ((String "<" l) ++ "@" ++ d ++ ">")
    by (simpl; now rewrite !str_app_assoc).
  rewrite re_search_skip.
  - apply re_search_here. cbn [String.append].
    rewrite <- (str_app_nil_r (String ">" "")).
    change (d ++ String ">" "" ++ "") with (d ++ ">" ++ "").
    rewrite (dots_then_bracket "@" d "" (forall_chars_impl _ _ _ path_char_dot Hd) eq_refl).
    reflexivity.
  - simpl. apply (forall_chars_impl _ _ _ local_char_not_at Hl).
Qed.

Lemma consume_or_inv P r e s rs' :
  re_chars P r ->
  try_except (consume r) (except_ConsumptionError (raise e)) (mkRS s) = (inr tt, rs') ->
  exists m, s = m ++ get rs' /\ forall_chars P m = true.
Proof.
  intros HP. unfold try_except. rewrite consume_rmatch.
  destruct (rmatch r s Some) as [rest|] eqn:E; [|discriminate].
  intros [= <-].
  destruct (rmatch_sound P r HP _ _ _ E) as (m & rest' & -> & Hm & [= ->]).
  exists m. auto.
Qed.

Lemma cls_char_local_char c : cls_char c = true -> local_char c = true.
Proof. destruct c as [[] [] [] [] [] [] [] []]; vm_compute; congruence. Qed.

Lemma cls_let_dig_path_char c : cls_let_dig c = true -> path_char c = true.
Proof. destruct c as [[] [] [] [] [] [] [] []]; vm_compute; congruence. Qed.

Lemma re_chars_pat_string : re_chars local_char pat_string.
Proof. simpl. split; exact cls_char_local_char. Qed.

Lemma re_chars_pat_domain : re_chars path_char pat_domain.
Proof.
  simpl. repeat split;
    first [ reflexivity
          | exact cls_let_dig_path_char
          | intros a Ha; apply cls_let_dig_path_char, cls_letter_let_dig, Ha ].
Qed.

Lemma parse_mailbox_inv s rs' :
  parse_mailbox (mkRS s) = (inr tt, rs') ->
  exists l d, s = l ++ "@" ++ d ++ get rs'
              /\ forall_chars local_char l = true /\ forall_chars path_char d = true.
Proof.
  unfold parse_mailbox, parse_local_part, parse_string, parse_domain, bind.
  destruct (try_except (consume pat_string) _ (mkRS s)) as [[e|[]] [s1]] eqn:E1;
    [discriminate|].
  destruct (consume_or_inv _ _ _ _ _ re_chars_pat_string E1) as (l & -> & Hl).
  rewrite consume_lit_or. simpl get.
  destruct (starts_with "@" s1) as [s2|] eqn:E2; [|discriminate].
  apply starts_with_inv in E2. subst s1.
  intros E3.
  destruct (consume_or_inv _ _ _ _ _ re_chars_pat_domain E3) as (d & -> & Hd).
  exists l, d. auto.
Qed.

Lemma parse_path_inv s rs' :
  parse_path (mkRS s) = (inr tt, rs') ->
  exists l d, s = "<" ++ (l ++ "@" ++ d) ++ ">" ++ get rs'
              /\ forall_chars local_char l = true /\ forall_chars path_char d = true.
Proof.
  unfold parse_path, bind. rewrite consume_lit_or.
  destruct (starts_with "<" s) as [s1|] eqn:E1; [|discriminate].
  apply starts_with_inv in E1. subst s.
  destruct (parse_mailbox (mkRS s1)) as [[e|[]] [s2]] eqn:E2; [discriminate|].
  destruct (parse_mailbox_inv _ _ E2) as (l & d & -> & Hl & Hd). simpl get.
  rewrite consume_lit_or.
  destruct (starts_with ">" s2) as [s3|] eqn:E3; [|discriminate].
  apply starts_with_inv in E3. subst s2. intros [= <-].
  exists l, d. simpl get. rewrite !str_app_assoc. auto.
Qed.

Lemma path_args_inv s :
  fst ((parse_nullspace ;; parse_path ;; parse_nullspace ;; parse_CRLF) (mkRS s)) = inr tt ->
  exists ws1 l d ws tail,
    s = ws1 ++ "<" ++ (l ++ "@" ++ d) ++ ">" ++ ws ++ NL ++ tail
    /\ forall_chars cls_SP ws1 = true
    /\ forall_chars local_char l = true
    /\ forall_chars path_char d = true
    /\ forall_chars cls_SP ws = true.
Proof.
  unfold bind. rewrite parse_nullspace_eq.
  destruct (skip_split cls_SP s) as (ws1 & Es & Hws1).
  destruct (parse_path (mkRS (skip cls_SP s))) as [[e|[]] [s1]] eqn:E1; [discriminate|].
  destruct (parse_path_inv _ _ E1) as (l & d & E & Hl & Hd). simpl get in E.
  rewrite parse_nullspace_eq, parse_CRLF_eq.
  destruct (skip_split cls_SP s1) as (ws & Es1 & Hws).
  destruct (starts_with NL (skip cls_SP s1)) as [tail|] eqn:E2; [|discriminate].
  apply starts_with_inv in E2. intros _.
  exists ws1, l, d, ws, tail. repeat split; try assumption.
  rewrite Es, E, Es1, E2 at 1. reflexivity.
Qed.

Lemma two_words_rest_inv w1 w2 ms rest :
  two_words_rest w1 w2 ms = Some rest ->
  exists ws, ms = w1 ++ ws ++ w2 ++ rest /\ forall_chars cls_SP ws = true.
Proof.
  unfold two_words_rest.
  destruct (starts_with w1 ms) as [[|c r]|] eqn:E1; try discriminate.
  apply starts_with_inv in E1. subst ms.
  destruct (cls_SP c) eqn:Hc; [|discriminate].
  intros E2. apply starts_with_inv in E2.
  destruct (skip_split cls_SP r) as (m & Er & Hm).
  exists (String c m). simpl. rewrite Hc, Hm. split; [|reflexivity].
  rewrite Er, E2 at 1. reflexivity.
Qed.

(** A line accepted by the production of MAIL FROM or RCPT TO carries a
    path. *)
Lemma two_words_command_path_line w1 w2 name ms :
  forall_chars (fun a => negb (Ascii.eqb a "<")) (w1 ++ w2) = true ->
  fst ((try_except
          (consume (RLit w1) ;; parse_whitespace ;; consume (RLit w2))
          (or_except
             (except_ConsumptionError (raise (MessageParsingError name)))
             (except_ParsingError (fun e => raise (MessageParsingError (str e))))) ;;
        try_except
          (parse_nullspace ;; parse_path ;; parse_nullspace ;; parse_CRLF)
          (except_ParsingError
             (fun e => raise (ParameterArgumentParsingError (str e))))) (mkRS ms))
  = inr tt ->
  exists p, path_line ms p.
Proof.
  intros Hw. unfold bind at 1.
  pose proof (two_words_block w1 w2 name ms) as H. cbv zeta in H.
  destruct (two_words_rest w1 w2 ms) as [rest|] eqn:E.
  - rewrite H. unfold try_except at 1.
    destruct ((parse_nullspace ;; parse_path ;; parse_nullspace ;; parse_CRLF) (mkRS rest))
      as [[e|[]] rs'] eqn:E1.
    + unfold except_ParsingError. destruct (is_ParsingError e); discriminate.
    + intros _.
      assert (E1' : fst ((parse_nullspace ;; parse_path ;; parse_nullspace ;; parse_CRLF)
                           (mkRS rest)) = inr tt) by now rewrite E1.
      destruct (path_args_inv _ E1') as (ws1 & l & d & ws & tail & -> & H1 & Hl & Hd & Hws).
      destruct (two_words_rest_inv _ _ _ _ E) as (ws0 & -> & Hws0).
      eexists. exists (w1 ++ ws0 ++ w2 ++ ws1), l, d, ws, tail.
      repeat split; try assumption.
      * now rewrite !str_app_assoc.
      * rewrite forall_chars_app in Hw. apply andb_true_iff in Hw as [Hw1 Hw2].
        rewrite !forall_chars_app, Hw1, Hw2. simpl.
        assert (HSP : forall c, cls_SP c = true -> negb (Ascii.eqb c "<") = true).
        { intros c Hc. unfold cls_SP in Hc. apply orb_true_iff in Hc as [Hc|Hc];
            apply Ascii.eqb_eq in Hc; subst c; reflexivity. }
        now rewrite (forall_chars_impl _ _ _ HSP Hws0), (forall_chars_impl _ _ _ HSP H1).
  - destruct H as (m & rs & ->). discriminate.
Qed.

Ltac classify_cases H :=
  unfold Message_init, attempt in H;
  repeat match type of H with
         | context [fst (?parse (mkRS ?ms))] =>
             let E := fresh "E" in
             destruct (fst (parse (mkRS ms))) as [[]|[]] eqn:E; try discriminate H
         end.

Lemma valid_mail_from_line ms :
  Message_init ms = inr (mkMessage _MAIL_FROM false) -> exists p, path_line ms p.
Proof.
  intros H. classify_cases H.
  apply (two_words_command_path_line "MAIL" "FROM:" "mail-from-cmd"); [reflexivity|].
  assumption.
Qed.

Lemma valid_rcpt_to_line ms :
  Message_init ms = inr (mkMessage _RCPT_TO false) -> exists p, path_line ms p.
Proof.
  intros H. classify_cases H.
  apply (two_words_command_path_line "RCPT" "TO:" "rcpt-to-cmd"); [reflexivity|].
  assumption.
Qed.

(** ** The session *)










(** ** Forward paths of a session come from valid RCPT TO lines *)

Lemma message_is_rcpt_to msg :
  is_rcpt_to_cmd msg = true -> negb (has_valid_params_args msg) = false ->
  msg = mkMessage _RCPT_TO false.
Proof.
  destruct msg as [[] []]; unfold is_rcpt_to_cmd, has_valid_params_args; simpl;
    intros; try discriminate; reflexivity.
Qed.

Lemma message_is_mail_from msg :
  negb (is_mail_from_cmd msg) = false -> negb (has_valid_params_args msg) = false ->
  msg = mkMessage _MAIL_FROM false.
Proof.
  destruct msg as [[] []]; unfold is_mail_from_cmd, has_valid_params_args; simpl;
    intros; try discriminate; reflexivity.
Qed.

Lemma rcpt_accept_has_domain line p :
  Message_init line = inr (mkMessage _RCPT_TO false) ->
  bracketed_path line = inr p ->
  has_domain p = true.
Proof.
  intros Hm Hp. destruct (valid_rcpt_to_line _ Hm) as (p' & Hline).
  unfold bracketed_path in Hp. rewrite (path_line_bracketed _ _ Hline) in Hp.
  injection Hp as <-.
  destruct (path_line_domain _ _ Hline) as (d & Hd).
  unfold has_domain. now rewrite Hd.
Qed.

Lemma reply_Continue msg s0 k s' :
  reply msg s0 k = Continue s' ->
  exists s1, current_email s1 = current_email s0 /\ k s1 = Continue s'.
Proof.
  unfold reply, send_msg.
  destruct (sock_send (connection_socket s0)) as [[] sk]; [|discriminate].
  intros H. eexists. split; [|exact H]. reflexivity.
Qed.

Ltac break_match_hyp H :=
  match type of H with
  | context [match ?x with _ => _ end] => destruct x eqn:?
  | context [if ?x then _ else _] => destruct x eqn:?
  end.

Lemma paths_have_domains_add s p :
  paths_have_domains s -> has_domain p = true ->
  forallb has_domain (_forward_paths (add_forward_path (current_email s) p)) = true.
Proof.
  unfold paths_have_domains. intros Hs Hp. simpl.
  rewrite forallb_app, Hs. simpl. now rewrite Hp.
Qed.

Lemma handle_paths env line s s' :
  paths_have_domains s ->
  handle env line s = Continue s' ->
  paths_have_domains s'.
Proof.
  intros Hinv H. unfold handle, on_quit in H.
  repeat break_match_hyp H; try discriminate H;
    try (apply reply_Continue in H as (s1 & He & H); simpl in He;
         try discriminate H; injection H as <-;
         unfold paths_have_domains; simpl; rewrite ?He);
    try (injection H as <-; unfold paths_have_domains; simpl);
    try exact Hinv; try reflexivity.
  all: apply paths_have_domains_add; [assumption|];
    match goal with
    | Hm : Message_init ?l = inr ?m |- _ =>
        apply (rcpt_accept_has_domain l); [|assumption];
        rewrite Hm; f_equal; apply message_is_rcpt_to;
        [first [assumption | now apply negb_false_iff] | assumption]
    end.
Qed.

Lemma iteration_paths env s s' :
  paths_have_domains s -> iteration env s = Continue s' -> paths_have_domains s'.
Proof.
  intros Hinv. unfold iteration.
  destruct (negb (contains_complete_msg (sock_stream_rem_string s))).
  - unfold recv_msg. destruct (sock_recv (connection_socket s)) as [[chunk|] sk];
      [|discriminate].
    destruct (decode env chunk); [|discriminate].
    intros [= <-]. exact Hinv.
  - destruct (consume_and_get_msg (sock_stream_rem_string s)) as [msg_str rs].
    apply handle_paths. exact Hinv.
Qed.

Lemma run_paths env : forall n s s',
  paths_have_domains s -> run env n s = Continue s' -> paths_have_domains s'.
Proof.
  induction n as [|n IH]; intros s s' Hinv; simpl.
  - now intros [= <-].
  - destruct (iteration env s) as [s1| |] eqn:E; try discriminate.
    apply IH. exact (iteration_paths _ _ _ Hinv E).
Qed.

Lemma domain_names_defined : forall fps,
  forallb has_domain fps = true -> exists l, domain_names fps = inr l.
Proof.
  induction fps as [|p fps IH]; simpl; [eauto|].
  intros H. apply andb_true_iff in H as [Hp Hfps].
  unfold has_domain in Hp.
  destruct (re_search pat_at_to_bracket p); [|discriminate].
  destruct (IH Hfps) as (l & ->). eauto.
Qed.

(** C8: the end-of-data marker ends a transaction.  In any session
    that has reached the data state, when the reply can be sent, the marker
    line makes the server write the forward files, send the 250 reply, go back
    to the state that expects MAIL FROM and replace the transaction by a fresh
    empty one; HELO is not expected again.  A well-formed MAIL FROM processed
    next then yields a transaction with the new reverse path, no forward path
    and no data line. *)
Theorem end_of_data_resets_transaction (env : peer) (sk0 : socket) (l0 : list event)
    (n : nat) (s : session) :
  run env n (session_init sk0 l0) = Continue s ->
  st s = STATE_4 ->
  forall sk, sock_send (connection_socket s) = (true, sk) ->
  exists ff_names,
    domain_specific_forward_file_names (current_email s) = inr ff_names
    /\ handle env EOMD_SEQ s =
       Continue (mkSession STATE_1 Email_init (sock_stream_rem_string s) sk
                   (log s ++ forward_events (current_email s) ff_names
                    ++ [EvSend OK_250_MSG]))
    /\ forall line l sk',
         Message_init line = inr (mkMessage _MAIL_FROM false) ->
         sock_send sk = (true, sk') ->
         exists p,
           path_line line p
           /\ handle env line
                (mkSession STATE_1 Email_init (sock_stream_rem_string s) sk l)
              = Continue (mkSession STATE_2 (mkEmail p [] "" [] "")
                            (sock_stream_rem_string s) sk' (l ++ [EvSend OK_250_MSG])).
Proof.
  intros Hrun Hst sk Hsend.
  assert (Hinv : paths_have_domains s).
  { apply (run_paths env n (session_init sk0 l0)); [reflexivity | exact Hrun]. }
  destruct (domain_names_defined _ Hinv) as (l & Hl).
  exists (nodup string_dec l).
  assert (Hnames : domain_specific_forward_file_names (current_email s)
                   = inr (nodup string_dec l)).
  { unfold domain_specific_forward_file_names. now rewrite Hl. }
  split; [exact Hnames|]. split.
  - unfold handle. rewrite Hst. cbn [String.eqb]. rewrite String.eqb_refl, Hnames.
    unfold reply, send_msg. cbn [connection_socket logged]. rewrite Hsend.
    unfold with_state, with_email, logged, with_socket. simpl.
    now rewrite <- List.app_assoc.
  - intros line lg sk' Hm Hsend'.
    destruct (valid_mail_from_line _ Hm) as (p & Hline).
    exists p. split; [exact Hline|].
    unfold handle. cbn [st]. rewrite Hm. cbn.
    unfold bracketed_path. rewrite (path_line_bracketed _ _ Hline).
    unfold reply, send_msg. cbn [connection_socket with_email]. rewrite Hsend'.
    reflexivity.
Qed.

(** ** A sample session *)

Lemma sample_run :
  run sample_peer 7 (session_init sample_socket []) = Continue sample_data_session.
Proof. vm_compute. reflexivity. Qed.

Lemma end_of_data_resets_transaction_witness :
  handle sample_peer EOMD_SEQ sample_data_session =
  Continue (mkSession STATE_1 Email_init (mkRS "") (mkSocket [] [])
              (sample_replies
               ++ [EvOpen "forward/y.com"; EvWrite "forward/y.com" ("Hello world" ++ NL)]
               ++ [EvSend OK_250_MSG])).
Proof.
  destruct (end_of_data_resets_transaction sample_peer sample_socket [] 7
              sample_data_session sample_run eq_refl (mkSocket [] []) eq_refl)
    as (names & Hnames & H & _).
  vm_compute in Hnames. injection Hnames as <-. exact H.
Defined.

(** ** QUIT *)

Lemma quit_well_formed (ws : string) :
  forall_chars cls_SP ws = true ->
  Message_init ("QUIT" ++ ws ++ NL) = inr (mkMessage _QUIT false).
Proof.
  intros Hws. unfold Message_init.
  replace (attempt parse_helo_msg ("QUIT" ++ ws ++ NL) _HELO) with (fun x : exn + Message => x)
    by reflexivity.
  replace (attempt parse_mail_from_cmd ("QUIT" ++ ws ++ NL) _MAIL_FROM)
    with (fun x : exn + Message => x) by reflexivity.
  replace (attempt parse_rcpt_to_cmd ("QUIT" ++ ws ++ NL) _RCPT_TO)
    with (fun x : exn + Message => x) by reflexivity.
  replace (attempt parse_data_cmd ("QUIT" ++ ws ++ NL) _DATA)
    with (fun x : exn + Message => x) by reflexivity.
  unfold attempt, parse_quit_cmd, bind.
  rewrite consume_lit_or, starts_with_app, lookahead_boundary.
  assert (Hb : boundary (ws ++ NL) = true).
  { destruct ws as [|c ws]; [reflexivity|]. simpl in Hws.
    apply andb_true_iff in Hws as [Hc _]. now apply boundary_SP. }
  rewrite Hb. unfold try_except, bind.
  rewrite parse_nullspace_eq, (skip_app cls_SP ws NL Hws) by reflexivity.
  reflexivity.
Qed.

(** C2 (counterexample): in the data state a well-formed QUIT is not
    a command: the session goes on in the data state, nothing is sent, and the
    line becomes a data line. *)
Lemma quit_in_data_state_is_a_data_line :
  Message_init ("QUIT" ++ NL) = inr (mkMessage _QUIT false)
  /\ handle sample_peer ("QUIT" ++ NL) sample_data_session =
     Continue (mkSession STATE_4
                 (mkEmail "<a@x.com>" ["<b@y.com>"] ""
                    ["Hello world" ++ NL; "QUIT" ++ NL] "")
                 (mkRS "") (mkSocket [] []) sample_replies)
  /\ (forall s', handle sample_peer ("QUIT" ++ NL) sample_data_session <> Break s').
Proof. repeat split; try reflexivity. intros s'. discriminate. Qed.

(** C2 (amended): in each of the four command states, when the reply
    can be sent, a well-formed QUIT ends the session with the 221 reply, and a
    QUIT with malformed trailing content leaves the state and the transaction
    unchanged and is answered with the 501 reply.  In the data state lines are
    not classified: a QUIT line, well-formed or not, is appended to the data
    lines, the state stays the data state and nothing is sent. *)
Theorem quit_in_command_states (env : peer) (s : session) (line : string) :
  (st s <> STATE_4 ->
   forall sk, sock_send (connection_socket s) = (true, sk) ->
     (Message_init line = inr (mkMessage _QUIT false) ->
      handle env line s =
      Break (mkSession (st s) (current_email s) (sock_stream_rem_string s) sk
               (log s ++ [EvSend (CLOS_CON_221_MSG env); EvClose])))
     /\ (Message_init line = inr (mkMessage _QUIT true) ->
         handle env line s =
         Continue (mkSession (st s) (current_email s) (sock_stream_rem_string s) sk
                     (log s ++ [EvSend SYN_PARAM_ARG_ERR_501_MSG]))))
  /\ (st s = STATE_4 ->
      forall err, Message_init line = inr (mkMessage _QUIT err) ->
        handle env line s =
        Continue (mkSession STATE_4 (add_message_line (current_email s) line)
                    (sock_stream_rem_string s) (connection_socket s) (log s))).
Proof.
  split.
  - intros Hst sk Hsend. split; intros Hm; unfold handle; rewrite Hm;
      destruct (st s) eqn:E; try congruence; simpl;
      unfold on_quit, reply, send_msg; simpl; rewrite Hsend;
      unfold logged, with_socket; simpl; rewrite ?E, <- ?List.app_assoc; reflexivity.
  - intros Hst err Hm. unfold handle. rewrite Hst.
    destruct (String.eqb line EOMD_SEQ) eqn:E.
    + apply String.eqb_eq in E. subst line. discriminate Hm.
    + unfold with_email. now rewrite Hst.
Qed.

Lemma quit_in_command_states_witness :
  handle sample_peer ("QUIT" ++ NL) (session_init (mkSocket [] []) []) =
  Break (mkSession STATE_0 Email_init (mkRS "") (mkSocket [] [])
           [EvSend ("221 mail closing connection" ++ NL); EvClose])
  /\ handle sample_peer ("QUIT now" ++ NL) (session_init (mkSocket [] []) []) =
     Continue (mkSession STATE_0 Email_init (mkRS "") (mkSocket [] [])
                 [EvSend SYN_PARAM_ARG_ERR_501_MSG])
  /\ handle sample_peer ("QUIT" ++ NL) sample_data_session =
     Continue (mkSession STATE_4 (add_message_line sample_email ("QUIT" ++ NL))
                 (mkRS "") (mkSocket [] []) sample_replies).
Proof.
  assert (H0 : st (session_init (mkSocket [] []) []) <> STATE_4) by discriminate.
  split; [|split].
  - apply (proj1 (quit_in_command_states sample_peer (session_init (mkSocket [] []) [])
                    ("QUIT" ++ NL)) H0 (mkSocket [] []) eq_refl).
    reflexivity.
  - apply (proj1 (quit_in_command_states sample_peer (session_init (mkSocket [] []) [])
                    ("QUIT now" ++ NL)) H0 (mkSocket [] []) eq_refl).
    reflexivity.
  - apply (proj2 (quit_in_command_states sample_peer sample_data_session ("QUIT" ++ NL))
             eq_refl false).
    reflexivity.
Defined.

(** ** Delivery *)

(** C4 (failing input): for the transaction from <a@x.com> to
    <b@y.com> with the single data line Hello world, the end-of-data marker
    makes the server append to forward/y.com the data line alone: neither the
    reverse path nor the forward path is written. *)
Theorem forward_file_holds_only_data_lines :
  handle sample_peer EOMD_SEQ sample_data_session =
  Continue (mkSession STATE_1 Email_init (mkRS "") (mkSocket [] [])
              (sample_replies
               ++ [EvOpen "forward/y.com";
                   EvWrite "forward/y.com" ("Hello world" ++ NL);
                   EvSend ("250 OK" ++ NL)])).
Proof. reflexivity. Qed.

(** Whatever the transaction, only its data lines are written. *)
Lemma forward_events_lines e ff_names path line :
  In (EvWrite path line) (forward_events e ff_names) -> In line (_message_lines e).
Proof.
  unfold forward_events, forward_file_ready_text_lines.
  intros H. apply in_flat_map in H as (ff_name & _ & [H | H]); [discriminate|].
  apply in_map_iff in H as (x & [= _ <-] & Hx). exact Hx.
Qed.

(** ** The conversation driver, in the words of the specification *)

Lemma play_from_app sc1 sc2 : forall rs,
  play_from (sc1 ++ sc2) rs =
  match play_from sc1 rs with
  | (inr _, rest, evs) =>
      let '(r, rest', evs') := play_from sc2 rest in (r, rest', (evs ++ evs')%list)
  | (inl x, rest, evs) => (inl x, rest, evs)
  end.
Proof.
  induction sc1 as [|[code|msg] sc1 IH]; intros rs; simpl.
  - destruct (play_from sc2 rs) as [[r rest] evs]. reflexivity.
  - destruct (response_matches code (hd "" rs)); [|reflexivity].
    rewrite IH. destruct (play_from sc1 (tl rs)) as [[[x|u] rest] evs]; [reflexivity|].
    destruct (play_from sc2 rest) as [[r rest'] evs']. reflexivity.
  - rewrite IH. destruct (play_from sc1 rs) as [[[x|u] rest] evs]; [reflexivity|].
    destruct (play_from sc2 rest) as [[r rest'] evs']. reflexivity.
Qed.

Lemma wire_app l1 l2 : wire (l1 ++ l2) = (wire l1 ++ wire l2)%list.
Proof. apply filter_app. Qed.

Lemma sock_recv_reliable rs :
  sock_recv (reliable rs) = (Some (hd "" rs), reliable (tl rs)).
Proof. destruct rs; reflexivity. Qed.

Lemma raises_only_resp_code code name :
  raises_only (fun x => is_ParsingError x)
    (try_except (consume (RLit code))
       (except_ConsumptionError (raise (ParsingError name))) ;;
     parse_whitespace ;; parse_arbitrary_text ;; parse_CRLF).
Proof.
  repeat (apply raises_only_bind; [|intros _]); apply raises_only_consume_or.
Qed.

Lemma known_code_220 : known_code "220".
Proof. eexists. split; [reflexivity | apply raises_only_resp_code]. Qed.
Lemma known_code_221 : known_code "221".
Proof. eexists. split; [reflexivity | apply raises_only_resp_code]. Qed.
Lemma known_code_250 : known_code "250".
Proof. eexists. split; [reflexivity | apply raises_only_resp_code]. Qed.
Lemma known_code_354 : known_code "354".
Proof. eexists. split; [reflexivity | apply raises_only_resp_code]. Qed.

Lemma flat_map_Say (l : list string) :
  flat_map (fun x => ([Say x] ++ [])%list) l = map Say l.
Proof. induction l as [|x l IH]; simpl; [reflexivity | now f_equal]. Qed.

Lemma mime_data_lines_generated h e content_type attachment :
  guess_type h (_attachment_filename e) = Some content_type ->
  read_base64 h (_attachment_filename e) = Some attachment ->
  _get_SMTP_MIME_message_data_lines h e
  = map inr (mime_data_lines e content_type attachment).
Proof.
  intros Ht Ha. unfold _get_SMTP_MIME_message_data_lines, mime_data_lines.
  rewrite Ht, Ha, !map_app. reflexivity.
Qed.

Section Driver.

Variable h : host.
Hypothesis decode_empty : Mail.decode h "" = Some "".

Lemma encodes_head bytes texts :
  encodes h bytes texts ->
  Mail.decode h (hd "" bytes) = Some (hd "" texts)
  /\ encodes h (tl bytes) (tl texts).
Proof.
  intros [|b t bytes' texts' Hb Hrest]; cbn [hd tl].
  - split; [exact decode_empty | constructor].
  - split; [exact Hb | exact Hrest].
Qed.

Lemma implements_bind {A B} (m : D A) (f : A -> D B) sc1 sc2 :
  implements h m sc1 -> (forall a, implements h (f a) sc2) ->
  implements h (bind m f) (sc1 ++ sc2).
Proof.
  intros H1 H2 bytes texts lg Henc. cbv zeta. rewrite play_from_app. unfold bind.
  specialize (H1 bytes texts lg Henc). cbv zeta in H1.
  destruct (play_from sc1 texts) as [[[x|u] rest] evs].
  - destruct (m (mkClient (reliable bytes) lg)) as [[e|a] w]; simpl in *.
    + destruct H1 as ([= ->] & H1). auto.
    + destruct H1 as [H1 _]. discriminate.
  - destruct (m (mkClient (reliable bytes) lg)) as [[e|a] [sk lg1]]; simpl in *.
    + destruct H1 as [[a Ha] _]. discriminate.
    + destruct H1 as (_ & (bytes' & -> & Henc') & Hlg).
      specialize (H2 a bytes' rest lg1 Henc'). cbv zeta in H2.
      destruct (play_from sc2 rest) as [[[x|u'] rest'] evs'];
        rewrite Hlg, <- List.app_assoc in H2; exact H2.
Qed.

Lemma implements_ret {A} (a : A) : implements h (ret a : D A) [].
Proof.
  intros bytes texts lg Henc. simpl. split; [eauto|]. split; [eauto|].
  now rewrite List.app_nil_r.
Qed.

Lemma implements_send_msg msg : implements h (_send_msg msg) [Say msg].
Proof.
  intros bytes texts lg Henc. simpl. split; [eauto|]. split; [eauto|].
  now rewrite wire_app.
Qed.

Lemma implements_receive_and_validate code sent_msg_type sent_msg :
  known_code code -> alert_defined sent_msg_type sent_msg ->
  implements h (_receive_and_validate h code sent_msg_type sent_msg) [Expect code].
Proof.
  intros (parse & Hp & Hraise) Halert bytes texts lg Henc. cbv zeta.
  destruct (encodes_head _ _ Henc) as [Hd Htl].
  unfold _receive_and_validate, play_from, response_matches.
  cbn [client_socket client_log]. rewrite sock_recv_reliable, Hd, Hp.
  specialize (Hraise (mkRS (hd "" texts))).
  destruct (fst (parse (mkRS (hd "" texts)))) as [e|u].
  - rewrite Hraise.
    destruct (Halert
                (fun m => "unexpected server response. Sent "
                          ++ rstrip_nl m ++ ". Received: " ++ rstrip_nl (hd "" texts))
                ("Unexpected server response. Sent message data. Received: "
                 ++ rstrip_nl (hd "" texts))
                ("Unexpected server greeting. Received: " ++ rstrip_nl (hd "" texts)))
      as (text & ->).
    simpl. split; [reflexivity|]. split; [eauto|].
    rewrite !wire_app, <- List.app_assoc. reflexivity.
  - simpl. split; [eauto|]. split; [eauto|]. now rewrite wire_app.
Qed.

Lemma implements_for_each {A} (body : A -> D unit) (sc : A -> list script_step) :
  (forall a, implements h (body a) (sc a)) ->
  forall l, implements h (for_each (map inr l) body) (flat_map sc l).
Proof.
  intros Hbody. induction l as [|a l IH]; simpl.
  - apply implements_ret.
  - apply implements_bind; [apply Hbody | intros _; exact IH].
Qed.

Lemma implements_eq {A} (m : D A) sc sc' :
  implements h m sc -> sc = sc' -> implements h m sc'.
Proof. now intros H <-. Qed.

Ltac driver_step :=
  first
    [ apply implements_receive_and_validate;
      [ first [ exact known_code_220 | exact known_code_221
              | exact known_code_250 | exact known_code_354 ]
      | intros f d g; eexists; reflexivity ]
    | apply implements_send_msg
    | apply implements_ret ].

Lemma send_implements (e : Email) (data_lines : list string) :
  _get_SMTP_MIME_message_data_lines h e = map inr data_lines ->
  implements h (send h e None) (lockstep_script h e data_lines).
Proof.
  intros Hgen. unfold send, _get_rcpt_to_cmds. rewrite Hgen, <- (map_map _ inr).
  eapply implements_eq.
  - eapply implements_bind; [driver_step | intros _].
    eapply implements_bind; [driver_step | intros sent_helo].
    eapply implements_bind; [driver_step | intros _].
    eapply implements_bind; [driver_step | intros sent_mail].
    eapply implements_bind; [driver_step | intros _].
    eapply implements_bind.
    { apply (implements_for_each _ (fun cmd => ([Say cmd] ++ [Expect "250"])%list)).
      intros cmd. eapply implements_bind; [driver_step | intros sent_rcpt; driver_step]. }
    intros _.
    eapply implements_bind; [driver_step | intros sent_data].
    eapply implements_bind; [driver_step | intros _].
    eapply implements_bind.
    { apply (implements_for_each _ (fun x => ([Say x] ++ [])%list)).
      intros x. eapply implements_bind; [driver_step | intros _; driver_step]. }
    intros _.
    eapply implements_bind; [driver_step | intros _].
    eapply implements_bind; [driver_step | intros _].
    eapply implements_bind; [driver_step | intros sent_quit].
    driver_step.
  - unfold lockstep_script, _get_helo_msg, _get_mail_from_cmd, _get_data_cmd,
      _get_eomd_seq, _get_quit_cmd, Mail.EOMD_SEQ.
    rewrite flat_map_Say, flat_map_concat_map, map_map, <- flat_map_concat_map.
    reflexivity.
Qed.

End Driver.

(** C9 (counterexample): the driver does not always perform the whole
    exchange.  With an attachment that cannot be read, and a server that
    answers every command as expected, the driver stops in the middle of the
    data: OSError escapes it after the blank line before the attachment, and
    neither the end-of-data marker nor QUIT is sent, nor is the connection
    closed.  And a greeting that is not text does not surface as a protocol
    violation: the connection is closed and SocketError is raised. *)
Lemma driver_stops_before_end_of_data :
  (let out := send sample_bare_host sample_letter None
                (mkClient (reliable sample_good_responses) []) in
   fst out = inl OSError
   /\ client_log (snd out)
      = [EvRecv ("220 mail.example" ++ NL);
         EvSend ("HELO client.example" ++ NL);
         EvRecv ("250 Hello 10.0.0.9 pleased to meet you" ++ NL);
         EvSend ("MAIL FROM: <a@x.com>" ++ NL);
         EvRecv ("250 OK" ++ NL);
         EvSend ("RCPT TO: <b@y.com>" ++ NL);
         EvRecv ("250 OK" ++ NL);
         EvSend ("DATA" ++ NL);
         EvRecv ("354 Start mail input; end with <CRLF>.<CRLF>" ++ NL);
         EvSend ("From: <a@x.com>" ++ NL);
         EvSend ("To: <b@y.com>" ++ NL);
         EvSend ("Subject: Hi" ++ NL);
         EvSend ("MIME-Version: 1.0" ++ NL);
         EvSend ("Content-Type: multipart/mixed; boundary=98766789" ++ NL);
         EvSend NL;
         EvSend ("--98766789" ++ NL);
         EvSend ("Content-Transfer-Encoding: quoted-printable" ++ NL);
         EvSend ("Content-Type: text/plain" ++ NL);
         EvSend NL;
         EvSend ("Hello world" ++ NL);
         EvSend ("--98766789" ++ NL);
         EvSend ("Content-Transfer-Encoding: base64" ++ NL);
         EvSend ("Content-Type: text/plain" ++ NL);
         EvSend NL])
  /\ (let out := send sample_host sample_letter None
                   (mkClient (reliable [sample_garbled_greeting]) []) in
      fst out = inl SocketError
      /\ client_log (snd out) = [EvClose; EvPrint "Error receiving server greeting."]).
Proof. vm_compute. repeat split. Qed.

(** C9 (amended): when the attachment of the email can be read and its
    type guessed, over a connection on which nothing fails and every response
    is text (no bytes at all being the empty text), what the driver returns
    and what it puts on the wire are those of the script: expect 220, send HELO and expect 250, send MAIL FROM and
    expect 250, send one RCPT TO per forward path in order and expect 250
    after each, send DATA and expect 354, send the data lines of the email (its
    headers, the message lines and the attachment) and the end-of-data marker
    and expect one 250, send QUIT and expect 221; the first response that does
    not match the expected response code closes the connection and raises the
    protocol violation to the caller, and nothing is sent or received after
    it. *)
Theorem driver_lock_step (h : host) (e : Email) (content_type attachment : string)
    (bytes responses : list string) :
  guess_type h (_attachment_filename e) = Some content_type ->
  read_base64 h (_attachment_filename e) = Some attachment ->
  Mail.decode h "" = Some "" ->
  encodes h bytes responses ->
  let out := send h e None (mkClient (reliable bytes) []) in
  (match fst out with inl x => inl x | inr _ => inr tt end,
   wire (client_log (snd out)))
  = play (lockstep_script h e (mime_data_lines e content_type attachment)) responses.
Proof.
  intros Ht Ha Hempty Henc out. subst out.
  pose proof (send_implements h Hempty e _ (mime_data_lines_generated h e _ _ Ht Ha)
                bytes responses [] Henc) as H.
  cbv zeta in H. unfold play.
  destruct (play_from (lockstep_script h e (mime_data_lines e content_type attachment))
              responses) as [[[x|[]] rest] evs].
  - destruct H as (-> & _ & ->). reflexivity.
  - destruct H as ((a & ->) & _ & ->). reflexivity.
Qed.

(** ** A sample conversation *)

Lemma driver_lock_step_witness :
  (match fst (send sample_host sample_letter None
                (mkClient (reliable sample_responses) [])) with
   | inl x => inl x
   | inr _ => inr tt
   end,
   wire (client_log (snd (send sample_host sample_letter None
                            (mkClient (reliable sample_responses) [])))))
  = (inl SMTPBreakOfProtocolError,
     [EvRecv ("220 mail.example" ++ NL);
      EvSend ("HELO client.example" ++ NL);
      EvRecv ("250 Hello 10.0.0.9 pleased to meet you" ++ NL);
      EvSend ("MAIL FROM: <a@x.com>" ++ NL);
      EvRecv ("250 OK" ++ NL);
      EvSend ("RCPT TO: <b@y.com>" ++ NL);
      EvRecv ("503 Bad sequence of commands" ++ NL);
      EvClose]).
Proof.
  assert (Henc : encodes sample_host sample_responses sample_responses)
    by (repeat constructor).
  rewrite (driver_lock_step sample_host sample_letter "text/plain" ("QUJD" ++ NL)
             sample_responses sample_responses eq_refl eq_refl eq_refl Henc).
  reflexivity.
Defined.


(** ** The scenarios of the specification *)

(** A complete transaction followed by QUIT, over a connection on which
    nothing fails. *)
Example end_to_end_scenario :
  run sample_peer 9
    (session_init
       (mkSocket [Some ("HELO client.example" ++ NL ++ "MAIL FROM:<a@x.com>" ++ NL
                        ++ "RCPT TO:<b@y.com>" ++ NL ++ "DATA" ++ NL
                        ++ "Hello world" ++ NL ++ "." ++ NL ++ "QUIT" ++ NL)] []) [])
  = Break (mkSession STATE_1 Email_init (mkRS "") (mkSocket [] [])
             [EvRecv ("HELO client.example" ++ NL ++ "MAIL FROM:<a@x.com>" ++ NL
                      ++ "RCPT TO:<b@y.com>" ++ NL ++ "DATA" ++ NL
                      ++ "Hello world" ++ NL ++ "." ++ NL ++ "QUIT" ++ NL);
              EvSend ("250 Hello 10.0.0.7 pleased to meet you" ++ NL);
              EvSend ("250 OK" ++ NL);
              EvSend ("250 OK" ++ NL);
              EvSend ("354 Start mail input; end with <CRLF>.<CRLF>" ++ NL);
              EvOpen "forward/y.com";
              EvWrite "forward/y.com" ("Hello world" ++ NL);
              EvSend ("250 OK" ++ NL);
              EvSend ("221 mail closing connection" ++ NL);
              EvClose]).
Proof. vm_compute. reflexivity. Qed.

(** A recognized command in the wrong state is answered with 503 and leaves
    the state unchanged. *)
Example bad_sequence_scenario :
  handle sample_peer ("RCPT TO:<b@y.com>" ++ NL)
    (mkSession STATE_1 Email_init (mkRS "") (mkSocket [] []) [])
  = Continue (mkSession STATE_1 Email_init (mkRS "") (mkSocket [] [])
                [EvSend ("503 Bad sequence of commands" ++ NL)]).
Proof. reflexivity. Qed.

(** * Further properties of the sources *)

(** ** The cursor and the productions *)

Lemma consume_cases (r : regexp) (rs : RemainingString) :
  match consume r rs with
  | (inr _, rs') =>
      exists m, re_match r (get rs) = Some m /\ get rs = m ++ get rs'
  | (inl e, rs') =>
      e = ConsumptionError /\ rs' = rs /\ re_match r (get rs) = None
  end.
Proof.
  destruct rs as [s]. rewrite consume_rmatch. unfold re_match. simpl get.
  destruct (rmatch r s Some) as [rest|] eqn:E; [|auto].
  destruct (rmatch_sound _ r (re_chars_true r) _ _ _ E) as (m & rest' & -> & _ & [= ->]).
  exists m. now rewrite take_matched.
Qed.

Lemma rmatch_in_lang : forall r s k x,
  rmatch r s k = Some x ->
  exists m rest, s = m ++ rest /\ in_lang r m /\ k rest = Some x.
Proof.
  induction r as [|c|p|r1 IH1 r2 IH2|r1 IH1]; intros s k x H.
  - change (k s = Some x) in H. exists "", s. cbn [in_lang]. auto.
  - destruct s as [|a s]; [discriminate|]. rewrite rmatch_char_cons in H.
    destruct (Ascii.eqb a c) eqn:E; [|discriminate].
    apply Ascii.eqb_eq in E; subst a. exists (String c ""), s. cbn [in_lang]. auto.
  - destruct s as [|a s]; [discriminate|]. rewrite rmatch_class_cons in H.
    destruct (p a) eqn:E; [|discriminate].
    exists (String a ""), s. cbn [in_lang]. eauto.
  - rewrite rmatch_seq in H.
    destruct (IH1 _ _ _ H) as (m1 & rest1 & -> & Hm1 & H2).
    destruct (IH2 _ _ _ H2) as (m2 & rest2 & -> & Hm2 & H3).
    exists (m1 ++ m2), rest2. rewrite str_app_assoc. cbn [in_lang]. eauto 7.
  - rewrite rmatch_star in H.
    remember (String.length s) as n eqn:En. clear En.
    revert s H. induction n as [|n IHn]; intros s H.
    + exists "", s. split; [reflexivity|]. split; [|exact H]. exists []. auto.
    + rewrite star_loop_S in H.
      destruct (rmatch r1 s _) as [y|] eqn:E.
      * injection H as ->.
        destruct (IH1 _ _ _ E) as (m1 & rest1 & -> & Hm1 & H2).
        destruct (_ <? _)%nat; [|discriminate].
        destruct (IHn _ H2) as (m2 & rest2 & -> & (ms & Hms & ->) & H3).
        exists (m1 ++ flatten ms), rest2. rewrite str_app_assoc.
        split; [reflexivity|]. split; [|exact H3].
        exists (m1 :: ms). split; [now constructor | reflexivity].
      * exists "", s. split; [reflexivity|]. split; [|exact H]. exists []. auto.
Qed.

Lemma star_loop_complete (body : string -> (string -> option string) -> option string)
    (P : string -> Prop) (k : string -> option string) (rest : string) :
  (forall m, P m -> forall tail k', k' tail <> None -> body (m ++ tail) k' <> None) ->
  k rest <> None ->
  forall ms, Forall P ms ->
  forall n, String.length (flatten ms ++ rest) <= n ->
  star_loop body k n (flatten ms ++ rest) <> None.
Proof.
  intros Hbody Hk. induction 1 as [|m ms Hm Hms IH]; intros n Hn.
  - cbn [flatten fold_right String.append]. destruct n as [|n]; [exact Hk|].
    rewrite star_loop_S. now destruct (body rest _).
  - cbn [flatten fold_right]. fold (flatten ms).
    destruct m as [|a m]; [exact (IH n Hn)|].
    destruct n as [|n].
    { cbn [flatten fold_right String.append String.length] in Hn. lia. }
    rewrite star_loop_S, str_app_assoc.
    match goal with
    | |- match body _ ?k' with _ => _ end <> None =>
        pose proof (Hbody _ Hm (flatten ms ++ rest) k') as Hstep
    end.
    cbv beta in Hstep.
    assert (Hlt : (String.length (flatten ms ++ rest)
                   <? String.length (String a m ++ flatten ms ++ rest))%nat = true).
    { apply Nat.ltb_lt. rewrite (str_length_app (String a m)). simpl. lia. }
    rewrite Hlt in Hstep.
    assert (Hloop : star_loop body k n (flatten ms ++ rest) <> None).
    { apply IH. cbn [flatten fold_right] in Hn. fold (flatten ms) in Hn.
      rewrite str_app_assoc, (str_length_app (String a m)) in Hn. simpl in Hn. lia. }
    specialize (Hstep Hloop).
    destruct (body (String a m ++ flatten ms ++ rest) _); [discriminate | contradiction].
Qed.

Lemma in_lang_rmatch : forall r m,
  in_lang r m -> forall rest k, k rest <> None -> rmatch r (m ++ rest) k <> None.
Proof.
  induction r as [|c|p|r1 IH1 r2 IH2|r1 IH1]; intros m Hm rest k Hk; cbn [in_lang] in Hm.
  - subst m. exact Hk.
  - subst m. cbn [String.append]. rewrite rmatch_char_cons, Ascii.eqb_refl. exact Hk.
  - destruct Hm as (a & Ha & ->). cbn [String.append].
    rewrite rmatch_class_cons, Ha. exact Hk.
  - destruct Hm as (m1 & m2 & H1 & H2 & ->).
    rewrite rmatch_seq, str_app_assoc. apply (IH1 _ H1). now apply (IH2 _ H2).
  - destruct Hm as (ms & Hms & ->). rewrite rmatch_star.
    apply (star_loop_complete (rmatch r1) (in_lang r1)); auto.
Qed.

(** X1: [consume] is the matcher at the cursor.  When it returns, what
    it has removed from the front of the remaining string is a text of the
    language of the pattern; when it raises, it raises ConsumptionError, leaves
    the remaining string as it was, and no prefix of the remaining string at
    all is in the language of the pattern: the backtracking of the matcher
    misses no match. *)
Theorem consume_removes_matched_prefix (r : regexp) (rs : RemainingString) :
  match consume r rs with
  | (inr _, rs') => exists m, in_lang r m /\ get rs = m ++ get rs'
  | (inl e, rs') =>
      e = ConsumptionError /\ rs' = rs
      /\ forall m rest, get rs = m ++ rest -> ~ in_lang r m
  end.
Proof.
  destruct rs as [s]. rewrite consume_rmatch. simpl get.
  destruct (rmatch r s Some) as [rest|] eqn:E.
  - destruct (rmatch_in_lang _ _ _ _ E) as (m & rest' & -> & Hm & [= ->]).
    exists m. auto.
  - split; [reflexivity|]. split; [reflexivity|].
    intros m rest -> Hm. apply (in_lang_rmatch r m Hm rest Some); [discriminate | exact E].
Qed.

Lemma leaves_suffix_ret {A} (a : A) : leaves_suffix (ret a : M A).
Proof. intros s. exists "". reflexivity. Qed.

Lemma leaves_suffix_raise {A} e : leaves_suffix (raise e : M A).
Proof. intros s. exists "". reflexivity. Qed.

Lemma leaves_suffix_bind {A B} (m : M A) (f : A -> M B) :
  leaves_suffix m -> (forall a, leaves_suffix (f a)) -> leaves_suffix (bind m f).
Proof.
  intros Hm Hf s. unfold bind. destruct (Hm s) as (pre & E).
  destruct (m (mkRS s)) as [[e|a] [s1]]; simpl in *; [eauto|].
  destruct (Hf a s1) as (pre' & E'). exists (pre ++ pre').
  now rewrite str_app_assoc, <- E'.
Qed.

Lemma leaves_suffix_try {A} (m : M A) (h : handler RemainingString A) :
  leaves_suffix m -> (forall e k, h e = Some k -> leaves_suffix k) ->
  leaves_suffix (try_except m h).
Proof.
  intros Hm Hh s. unfold try_except. destruct (Hm s) as (pre & E).
  destruct (m (mkRS s)) as [[e|a] [s1]]; simpl in *; [|eauto].
  destruct (h e) as [k|] eqn:Ek; [|simpl; eauto].
  destruct (Hh e k Ek s1) as (pre' & E'). exists (pre ++ pre').
  now rewrite str_app_assoc, <- E'.
Qed.

Lemma leaves_suffix_consume r : leaves_suffix (consume r).
Proof.
  intros s. pose proof (consume_cases r (mkRS s)) as H.
  destruct (consume r (mkRS s)) as [[e|u] rs']; simpl in *.
  - destruct H as (_ & -> & _). exists "". reflexivity.
  - destruct H as (m & _ & E). eauto.
Qed.

Lemma leaves_suffix_if {A} (c : RemainingString -> bool) (m1 m2 : M A) :
  leaves_suffix m1 -> leaves_suffix m2 ->
  leaves_suffix (fun rs => if c rs then m1 rs else m2 rs).
Proof. intros H1 H2 s. destruct (c (mkRS s)); [apply H1 | apply H2]. Qed.

Lemma handler_raises_suffix {A} (h : handler RemainingString A) :
  (forall e k, h e = Some k -> exists x, k = raise x) ->
  forall e k, h e = Some k -> leaves_suffix k.
Proof. intros H e k Hk. destruct (H e k Hk) as (x & ->). apply leaves_suffix_raise. Qed.

Lemma except_ConsumptionError_raises {A} x :
  forall e (k : M A), except_ConsumptionError (raise x) e = Some k -> exists y, k = raise y.
Proof. intros [] k; simpl; intros [= <-]; eauto. Qed.

Lemma except_ParsingError_raises {A} (f : exn -> exn) :
  forall e (k : M A),
    except_ParsingError (fun e => raise (f e)) e = Some k -> exists y, k = raise y.
Proof.
  intros e k. unfold except_ParsingError. destruct (is_ParsingError e); intros [= <-]; eauto.
Qed.

Lemma or_except_raises {A} (h1 h2 : handler RemainingString A) :
  (forall e k, h1 e = Some k -> exists y, k = raise y) ->
  (forall e k, h2 e = Some k -> exists y, k = raise y) ->
  forall e k, or_except h1 h2 e = Some k -> exists y, k = raise y.
Proof.
  intros H1 H2 e k. unfold or_except. destruct (h1 e) as [k1|] eqn:E.
  - intros [= <-]. eauto.
  - apply H2.
Qed.

Ltac suffix_step :=
  first
    [ apply leaves_suffix_bind; [|intros ?]
    | apply leaves_suffix_if
    | apply leaves_suffix_try;
      [| apply handler_raises_suffix;
         first [ apply except_ConsumptionError_raises
               | apply (except_ParsingError_raises
                          (fun e => ParameterArgumentParsingError (str e)))
               | apply or_except_raises;
                 [ apply except_ConsumptionError_raises
                 | apply (except_ParsingError_raises
                            (fun e => MessageParsingError (str e))) ] ] ]
    | apply leaves_suffix_consume
    | apply leaves_suffix_raise
    | apply leaves_suffix_ret ].

(** X2: a production only ever removes a prefix of the text it is handed:
    whether it returns or raises, what it leaves in the cursor is a suffix of
    what it found there. *)
Theorem productions_leave_suffix : Forall leaves_suffix productions.
Proof.
  unfold productions.
  repeat (apply Forall_cons; [| ]); try apply Forall_nil;
    unfold parse_helo_msg, parse_mail_from_cmd, parse_rcpt_to_cmd, parse_data_cmd,
      parse_quit_cmd, parse_220_resp_code_msg, parse_221_resp_code_msg,
      parse_250_resp_code_msg, parse_354_resp_code_msg,
      parse_reverse_path, parse_forward_path, parse_path, parse_mailbox,
      parse_local_part, parse_whitespace, parse_nullspace, parse_CRLF, parse_domain,
      parse_string, parse_arbitrary_text;
    repeat suffix_step.
Qed.

Lemma raises_only_weaken {A} (P Q : exn -> bool) (m : M A) :
  (forall e, P e = true -> Q e = true) -> raises_only P m -> raises_only Q m.
Proof.
  intros HPQ Hm rs. specialize (Hm rs). destruct (fst (m rs)); [now apply HPQ | exact I].
Qed.

Lemma raises_only_raise {A} (P : exn -> bool) e : P e = true -> raises_only P (raise e : M A).
Proof. intros H rs. exact H. Qed.

Lemma raises_only_consume r : raises_only is_match_failure (consume r).
Proof.
  intros [s]. rewrite consume_rmatch. destruct (rmatch r s Some); simpl; auto.
Qed.

(** A [try] whose clauses catch whatever the body raises and raise in turn. *)
Lemma raises_only_try {A} (P Q : exn -> bool) (m : M A) (h : handler RemainingString A) :
  raises_only Q m ->
  (forall e, Q e = true -> exists y, h e = Some (raise y) /\ P y = true) ->
  raises_only P (try_except m h).
Proof.
  intros Hm Hh rs. unfold try_except. specialize (Hm rs).
  destruct (m rs) as [[e|a] rs']; simpl in *; [|exact I].
  destruct (Hh e Hm) as (y & -> & Hy). exact Hy.
Qed.

Lemma raises_only_if {A} P (c : RemainingString -> bool) (m1 m2 : M A) :
  raises_only P m1 -> raises_only P m2 ->
  raises_only P (fun rs => if c rs then m1 rs else m2 rs).
Proof. intros H1 H2 rs. destruct (c rs); [apply H1 | apply H2]. Qed.

Lemma catches_ConsumptionError {A} x (P : exn -> bool) :
  P x = true ->
  forall e, match e with ConsumptionError => true | _ => false end = true ->
    exists y, except_ConsumptionError (raise x : M A) e = Some (raise y) /\ P y = true.
Proof. intros Hx [] H; try discriminate. simpl. eauto. Qed.

Lemma raises_only_consume_exact r :
  raises_only (fun e => match e with ConsumptionError => true | _ => false end) (consume r).
Proof.
  intros [s]. rewrite consume_rmatch. destruct (rmatch r s Some); simpl; auto.
Qed.

Lemma catches_ParsingError {A} (f : exn -> exn) (P : exn -> bool) :
  (forall e, P (f e) = true) ->
  forall e, is_ParsingError e = true ->
    exists y, except_ParsingError (fun e => raise (f e) : M A) e = Some (raise y)
              /\ P y = true.
Proof. intros Hf e He. unfold except_ParsingError. rewrite He. eauto. Qed.

Lemma catches_match_failure {A} x (f : exn -> exn) (P : exn -> bool) :
  P x = true -> (forall e, P (f e) = true) ->
  forall e, is_match_failure e = true ->
    exists y, or_except (except_ConsumptionError (raise x))
                (except_ParsingError (fun e => raise (f e) : M A)) e = Some (raise y)
              /\ P y = true.
Proof.
  intros Hx Hf e He. unfold or_except, except_ParsingError.
  destruct e; simpl in *; try discriminate; eauto.
Qed.

Lemma is_ParsingError_match_failure e : is_ParsingError e = true -> is_match_failure e = true.
Proof. destruct e; simpl; auto. Qed.

Ltac raises_step :=
  first
    [ apply raises_only_bind; [|intros ?]
    | apply raises_only_if
    | apply raises_only_consume_or
    | apply (raises_only_try _ (fun x => is_ParsingError x));
      [| apply catches_ParsingError; intros; reflexivity ]
    | apply (raises_only_try _ is_match_failure);
      [| apply catches_match_failure; [reflexivity | intros; reflexivity] ]
    | apply (raises_only_try _ (fun e => match e with ConsumptionError => true | _ => false end));
      [ apply raises_only_consume_exact | apply catches_ConsumptionError; reflexivity ]
    | apply raises_only_consume
    | apply (raises_only_weaken (fun x => is_ParsingError x) is_match_failure);
      [ exact is_ParsingError_match_failure | ]
    | apply raises_only_raise; reflexivity ].

(** X3: no production lets a low-level match failure escape: whatever
    the text, a production returns or raises a ParsingError (possibly one of
    its two subclasses), never a bare ConsumptionError. *)
Theorem productions_raise_parsing_errors :
  Forall (raises_only (fun x => is_ParsingError x)) productions.
Proof.
  unfold productions.
  repeat (apply Forall_cons; [| ]); try apply Forall_nil;
    unfold parse_helo_msg, parse_mail_from_cmd, parse_rcpt_to_cmd, parse_data_cmd,
      parse_quit_cmd, parse_220_resp_code_msg, parse_221_resp_code_msg,
      parse_250_resp_code_msg, parse_354_resp_code_msg,
      parse_reverse_path, parse_forward_path, parse_path, parse_mailbox,
      parse_local_part, parse_whitespace, parse_nullspace, parse_CRLF, parse_domain,
      parse_string, parse_arbitrary_text;
    repeat raises_step.
Qed.

(** ** The classifier on whole families of lines *)

Lemma no_args_block_eq r :
  fst (try_except (parse_nullspace ;; parse_CRLF)
         (except_ParsingError (fun e => raise (ParameterArgumentParsingError (str e))))
         (mkRS r))
  = if ends_line r then inr tt else inl (ParameterArgumentParsingError "CRLF").
Proof.
  unfold try_except, bind, ends_line. rewrite parse_nullspace_eq, parse_CRLF_eq.
  destruct (starts_with NL (skip cls_SP r)); reflexivity.
Qed.

(** X4: DATA and QUIT followed by a keyword boundary are recognized
    whatever comes next, and their arguments are valid exactly when only spaces
    and tabs separate the keyword from the line terminator; what follows the
    terminator is not looked at. *)
Theorem no_argument_commands (r : string) :
  boundary r = true ->
  Message_init ("DATA" ++ r) = inr (mkMessage _DATA (negb (ends_line r)))
  /\ Message_init ("QUIT" ++ r) = inr (mkMessage _QUIT (negb (ends_line r))).
Proof.
  intros Hb. split; unfold Message_init.
  - replace (attempt parse_helo_msg ("DATA" ++ r) _HELO) with (fun x : exn + Message => x)
      by reflexivity.
    replace (attempt parse_mail_from_cmd ("DATA" ++ r) _MAIL_FROM)
      with (fun x : exn + Message => x) by reflexivity.
    replace (attempt parse_rcpt_to_cmd ("DATA" ++ r) _RCPT_TO)
      with (fun x : exn + Message => x) by reflexivity.
    unfold attempt at 1. unfold parse_data_cmd, bind.
    rewrite consume_lit_or, starts_with_app, lookahead_boundary, Hb, no_args_block_eq.
    destruct (ends_line r); reflexivity.
  - replace (attempt parse_helo_msg ("QUIT" ++ r) _HELO) with (fun x : exn + Message => x)
      by reflexivity.
    replace (attempt parse_mail_from_cmd ("QUIT" ++ r) _MAIL_FROM)
      with (fun x : exn + Message => x) by reflexivity.
    replace (attempt parse_rcpt_to_cmd ("QUIT" ++ r) _RCPT_TO)
      with (fun x : exn + Message => x) by reflexivity.
    replace (attempt parse_data_cmd ("QUIT" ++ r) _DATA)
      with (fun x : exn + Message => x) by reflexivity.
    unfold attempt at 1. unfold parse_quit_cmd, bind.
    rewrite consume_lit_or, starts_with_app, lookahead_boundary, Hb, no_args_block_eq.
    destruct (ends_line r); reflexivity.
Qed.

Lemma no_argument_commands_witness :
  Message_init ("DATA" ++ String TAB (" " ++ NL ++ "ignored"))
  = inr (mkMessage _DATA false)
  /\ Message_init ("QUIT" ++ " now" ++ NL) = inr (mkMessage _QUIT true).
Proof.
  split.
  - apply (proj1 (no_argument_commands (String TAB (" " ++ NL ++ "ignored")) eq_refl)).
  - apply (proj2 (no_argument_commands (" now" ++ NL) eq_refl)).
Defined.

Lemma parse_path_render l elems rest :
  valid_local l = true ->
  valid_elements elems = true ->
  parse_path (mkRS (render_path l elems ++ rest)) = (inr tt, mkRS rest).
Proof.
  intros Hl He. unfold parse_path, bind, render_path.
  rewrite consume_lit_or. cbn [String.append starts_with Ascii.eqb Bool.eqb].
  rewrite str_app_assoc, parse_mailbox_render; [| exact Hl | exact He | simpl; auto].
  rewrite consume_lit_or. reflexivity.
Qed.

Lemma path_args_render l elems ws2 ws3 tail :
  valid_local l = true ->
  valid_elements elems = true ->
  forall_chars cls_SP ws2 = true ->
  forall_chars cls_SP ws3 = true ->
  try_except (parse_nullspace ;; parse_path ;; parse_nullspace ;; parse_CRLF)
    (except_ParsingError (fun e => raise (ParameterArgumentParsingError (str e))))
    (mkRS (ws2 ++ render_path l elems ++ ws3 ++ NL ++ tail))
  = (inr tt, mkRS tail).
Proof.
  intros Hl He H2 H3. unfold try_except, bind.
  rewrite parse_nullspace_eq, (skip_app cls_SP ws2 _ H2) by reflexivity.
  rewrite (parse_path_render l elems _ Hl He).
  rewrite parse_nullspace_eq, (skip_app cls_SP ws3 _ H3) by reflexivity.
  rewrite parse_CRLF_eq. reflexivity.
Qed.

Lemma path_commands_valid (l : string) (elems : list string) (a : ascii)
    (ws1 ws2 ws3 tail : string) :
  valid_local l = true ->
  valid_elements elems = true ->
  forall_chars cls_SP (String a ws1) = true ->
  forall_chars cls_SP ws2 = true ->
  forall_chars cls_SP ws3 = true ->
  Message_init ("MAIL" ++ String a ws1 ++ "FROM:" ++ ws2 ++ render_path l elems
                ++ ws3 ++ NL ++ tail) = inr (mkMessage _MAIL_FROM false)
  /\ Message_init ("RCPT" ++ String a ws1 ++ "TO:" ++ ws2 ++ render_path l elems
                   ++ ws3 ++ NL ++ tail) = inr (mkMessage _RCPT_TO false).
Proof.
  intros Hl He H1 H2 H3. split; unfold Message_init.
  - replace (attempt parse_helo_msg _ _HELO) with (fun x : exn + Message => x)
      by reflexivity.
    unfold attempt at 1. unfold parse_mail_from_cmd, parse_reverse_path. unfold bind at 1.
    pose proof (two_words_block "MAIL" "FROM:" "mail-from-cmd"
                  ("MAIL" ++ String a ws1 ++ "FROM:" ++ ws2 ++ render_path l elems
                   ++ ws3 ++ NL ++ tail)) as H.
    cbv zeta in H. rewrite (two_words_rest_app "MAIL" "FROM:" a ws1 _ H1) in H by reflexivity.
    rewrite H, (path_args_render l elems ws2 ws3 tail Hl He H2 H3). reflexivity.
  - replace (attempt parse_helo_msg _ _HELO) with (fun x : exn + Message => x)
      by reflexivity.
    replace (attempt parse_mail_from_cmd _ _MAIL_FROM) with (fun x : exn + Message => x)
      by reflexivity.
    unfold attempt at 1. unfold parse_rcpt_to_cmd, parse_forward_path. unfold bind at 1.
    pose proof (two_words_block "RCPT" "TO:" "rcpt-to-cmd"
                  ("RCPT" ++ String a ws1 ++ "TO:" ++ ws2 ++ render_path l elems
                   ++ ws3 ++ NL ++ tail)) as H.
    cbv zeta in H. rewrite (two_words_rest_app "RCPT" "TO:" a ws1 _ H1) in H by reflexivity.
    rewrite H, (path_args_render l elems ws2 ws3 tail Hl He H2 H3). reflexivity.
Qed.

(** X5: MAIL FROM and RCPT TO are accepted with valid arguments for
    every valid mailbox, with one or more spaces or tabs inside the keyword
    and any number of them before and after the path; what follows the line
    terminator is not looked at. *)
Theorem path_commands_accept (l : string) (elems : list string) (a : ascii)
    (ws1 ws2 ws3 tail : string) :
  valid_local l = true ->
  valid_elements elems = true ->
  forall_chars cls_SP (String a ws1) = true ->
  forall_chars cls_SP ws2 = true ->
  forall_chars cls_SP ws3 = true ->
  Message_init ("MAIL" ++ String a ws1 ++ "FROM:" ++ ws2 ++ render_path l elems
                ++ ws3 ++ NL ++ tail) = inr (mkMessage _MAIL_FROM false)
  /\ Message_init ("RCPT" ++ String a ws1 ++ "TO:" ++ ws2 ++ render_path l elems
                   ++ ws3 ++ NL ++ tail) = inr (mkMessage _RCPT_TO false).
Proof. apply path_commands_valid. Qed.

Lemma path_commands_accept_witness :
  Message_init ("MAIL" ++ String TAB " " ++ "FROM:" ++ "" ++ render_path "a" ["x"; "com"]
                ++ " " ++ NL ++ "") = inr (mkMessage _MAIL_FROM false).
Proof.
  apply (proj1 (path_commands_accept "a" ["x"; "com"] TAB " " "" " " ""
                  eq_refl eq_refl eq_refl eq_refl eq_refl)).
Defined.

(** X6: a line that is empty or whose first character is none of H, M,
    R, D, Q (keywords are upper case) is Unrecognized, with valid arguments. *)
Theorem foreign_first_character (line : string) :
  match line with
  | EmptyString => True
  | String c _ => mem_char c "HMRDQ" = false
  end ->
  Message_init line = inr (mkMessage _UNRECOGNIZED false).
Proof.
  intros H. apply Message_init_unrecognized.
  destruct line as [|c r]; [reflexivity|].
  cbn [mem_char] in H. rewrite !orb_false_iff in H.
  destruct H as (HH & HM & HR & HD & HQ & _).
  rewrite Ascii.eqb_sym in HH, HM, HR, HD, HQ.
  unfold first_matching, priority, find, keyword_matches, word_then_boundary,
    two_words, two_words_rest.
  cbn [starts_with]. now rewrite HH, HM, HR, HD, HQ.
Qed.

Lemma foreign_first_character_witness :
  Message_init ("helo client.example" ++ NL) = inr (mkMessage _UNRECOGNIZED false)
  /\ Message_init "" = inr (mkMessage _UNRECOGNIZED false).
Proof.
  split.
  - apply (foreign_first_character ("helo client.example" ++ NL)). reflexivity.
  - apply (foreign_first_character ""). exact I.
Defined.

(** ** The state machine *)

Lemma reply_inv msg s0 k s' :
  reply msg s0 k = Continue s' ->
  exists sk, sock_send (connection_socket s0) = (true, sk)
             /\ k (logged (with_socket s0 sk) [EvSend msg]) = Continue s'.
Proof.
  unfold reply, send_msg.
  destruct (sock_send (connection_socket s0)) as [[] sk]; [|discriminate].
  intros H. eauto.
Qed.

(** *** What the productions accept *)

Lemma element_path_chars e : is_element e = true -> forall_chars path_char e = true.
Proof.
  destruct e as [|a e]; [discriminate|]. simpl. intros H.
  apply andb_true_iff in H as [Ha He].
  rewrite (cls_let_dig_path_char _ (cls_letter_let_dig _ Ha)).
  exact (forall_chars_impl _ _ _ cls_let_dig_path_char He).
Qed.

Lemma domain_path_chars : forall elems,
  forallb is_element elems = true -> forall_chars path_char (render_domain elems) = true.
Proof.
  unfold render_domain. induction elems as [|e elems IH]; [reflexivity|].
  intros H. simpl in H. apply andb_true_iff in H as [He Hes].
  destruct elems as [|e' elems]; [now apply element_path_chars|].
  change (join "." (e :: e' :: elems)) with (e ++ "." ++ join "." (e' :: elems)).
  rewrite forall_chars_app, (element_path_chars _ He). simpl. exact (IH Hes).
Qed.


Lemma flatten_class p : forall ms,
  Forall (in_lang (RClass p)) ms -> forall_chars p (flatten ms) = true.
Proof.
  induction 1 as [|m ms (a & Ha & ->) _ IH]; [reflexivity|].
  cbn [flatten fold_right String.append forall_chars]. fold (flatten ms).
  now rewrite Ha, IH.
Qed.

Lemma lang_pat_string l :
  in_lang pat_string l -> l <> "" /\ forall_chars cls_char l = true.
Proof.
  unfold pat_string, RPlus. cbn [in_lang].
  intros (m1 & m2 & (a & Ha & ->) & (ms & Hms & ->) & ->).
  cbn [String.append forall_chars]. split; [discriminate|].
  now rewrite Ha, (flatten_class _ _ Hms).
Qed.

Lemma lang_pat_element e : in_lang pat_element e -> is_element e = true.
Proof.
  unfold pat_element. cbn [in_lang].
  intros (m1 & m2 & (a & Ha & ->) & (ms & Hms & ->) & ->).
  cbn [String.append is_element]. now rewrite Ha, (flatten_class _ _ Hms).
Qed.

Lemma lang_groups : forall ms,
  Forall (in_lang (RSeq (RChar ".") pat_element)) ms ->
  exists elems, forallb is_element elems = true /\ flatten ms = dotted elems.
Proof.
  induction 1 as [|m ms Hm _ (elems & He & IH)]; [now exists []|].
  cbn [in_lang] in Hm. destruct Hm as (m1 & m2 & -> & Hm2 & ->).
  fold (in_lang pat_element m2) in Hm2.
  exists (m2 :: elems). cbn [forallb]. rewrite (lang_pat_element _ Hm2), He.
  split; [reflexivity|].
  cbn [flatten fold_right dotted]. fold (flatten ms).
  now rewrite IH, !str_app_assoc.
Qed.

Lemma lang_pat_domain d :
  in_lang pat_domain d ->
  exists elems, valid_elements elems = true /\ d = render_domain elems.
Proof.
  unfold pat_domain. cbn [in_lang].
  intros (m1 & m2 & Hm1 & (ms & Hms & ->) & ->).
  fold (in_lang pat_element m1) in Hm1.
  destruct (lang_groups _ Hms) as (elems & He & ->).
  exists (m1 :: elems). unfold valid_elements, render_domain. cbn [forallb].
  rewrite (lang_pat_element _ Hm1), He, join_dotted. auto.
Qed.

Lemma consume_or_lang r e s rs' :
  try_except (consume r) (except_ConsumptionError (raise e)) (mkRS s) = (inr tt, rs') ->
  exists m, s = m ++ get rs' /\ in_lang r m.
Proof.
  unfold try_except. rewrite consume_rmatch.
  destruct (rmatch r s Some) as [rest|] eqn:E; [|discriminate].
  intros [= <-].
  destruct (rmatch_in_lang r _ _ _ E) as (m & rest' & -> & Hm & [= ->]).
  exists m. auto.
Qed.

Lemma parse_mailbox_lang s rs' :
  parse_mailbox (mkRS s) = (inr tt, rs') ->
  exists l elems,
    s = l ++ "@" ++ render_domain elems ++ get rs'
    /\ l <> "" /\ forall_chars cls_char l = true /\ valid_elements elems = true.
Proof.
  unfold parse_mailbox, parse_local_part, parse_string, parse_domain, bind.
  destruct (try_except (consume pat_string) _ (mkRS s)) as [[e|[]] [s1]] eqn:E1;
    [discriminate|].
  destruct (consume_or_lang _ _ _ _ E1) as (l & -> & Hl).
  apply lang_pat_string in Hl as [Hne Hl].
  rewrite consume_lit_or. simpl get.
  destruct (starts_with "@" s1) as [s2|] eqn:E2; [|discriminate].
  apply starts_with_inv in E2. subst s1.
  intros E3.
  destruct (consume_or_lang _ _ _ _ E3) as (d & -> & Hd).
  apply lang_pat_domain in Hd as (elems & He & ->).
  exists l, elems. auto.
Qed.

Lemma parse_path_lang s rs' :
  parse_path (mkRS s) = (inr tt, rs') ->
  exists l elems,
    s = "<" ++ (l ++ "@" ++ render_domain elems) ++ ">" ++ get rs'
    /\ l <> "" /\ forall_chars cls_char l = true /\ valid_elements elems = true.
Proof.
  unfold parse_path, bind. rewrite consume_lit_or.
  destruct (starts_with "<" s) as [s1|] eqn:E1; [|discriminate].
  apply starts_with_inv in E1. subst s.
  destruct (parse_mailbox (mkRS s1)) as [[e|[]] [s2]] eqn:E2; [discriminate|].
  destruct (parse_mailbox_lang _ _ E2) as (l & elems & -> & Hne & Hl & He). simpl get.
  rewrite consume_lit_or.
  destruct (starts_with ">" s2) as [s3|] eqn:E3; [|discriminate].
  apply starts_with_inv in E3. subst s2. intros [= <-].
  exists l, elems. simpl get. rewrite !str_app_assoc. auto.
Qed.

Lemma parse_path_grammar l elems :
  l <> "" ->
  forall_chars cls_char l = true ->
  valid_elements elems = true ->
  parse_path (mkRS ("<" ++ (l ++ "@" ++ render_domain elems) ++ ">")) = (inr tt, mkRS "").
Proof.
  intros Hne Hl He. destruct l as [|a l]; [congruence|].
  simpl in Hl. apply andb_true_iff in Hl as [Ha Hl].
  unfold parse_path, bind. rewrite consume_lit_or.
  cbn [String.append starts_with Ascii.eqb Bool.eqb].
  unfold parse_mailbox, parse_local_part, bind.
  rewrite !str_app_assoc. cbn [String.append].
  rewrite parse_string_eq, Ha.
  rewrite (skip_app cls_char l _ Hl) by reflexivity.
  rewrite consume_lit_or. cbn [starts_with Ascii.eqb Bool.eqb].
  rewrite (parse_domain_render elems ">" He) by (simpl; auto).
  rewrite consume_lit_or. reflexivity.
Qed.

Lemma path_args_lang s :
  fst ((parse_nullspace ;; parse_path ;; parse_nullspace ;; parse_CRLF) (mkRS s)) = inr tt ->
  exists ws1 l elems ws tail,
    s = ws1 ++ "<" ++ (l ++ "@" ++ render_domain elems) ++ ">" ++ ws ++ NL ++ tail
    /\ forall_chars cls_SP ws1 = true
    /\ l <> ""
    /\ forall_chars cls_char l = true
    /\ valid_elements elems = true
    /\ forall_chars cls_SP ws = true.
Proof.
  unfold bind. rewrite parse_nullspace_eq.
  destruct (skip_split cls_SP s) as (ws1 & Es & Hws1).
  destruct (parse_path (mkRS (skip cls_SP s))) as [[e|[]] [s1]] eqn:E1; [discriminate|].
  destruct (parse_path_lang _ _ E1) as (l & elems & E & Hne & Hl & He). simpl get in E.
  rewrite parse_nullspace_eq, parse_CRLF_eq.
  destruct (skip_split cls_SP s1) as (ws & Es1 & Hws).
  destruct (starts_with NL (skip cls_SP s1)) as [tail|] eqn:E2; [|discriminate].
  apply starts_with_inv in E2. intros _.
  exists ws1, l, elems, ws, tail. repeat split; try assumption.
  rewrite Es, E, Es1, E2 at 1. reflexivity.
Qed.

Lemma two_words_command_grammar_line w1 w2 name ms :
  forall_chars (fun a => negb (Ascii.eqb a "<")) (w1 ++ w2) = true ->
  fst ((try_except
          (consume (RLit w1) ;; parse_whitespace ;; consume (RLit w2))
          (or_except
             (except_ConsumptionError (raise (MessageParsingError name)))
             (except_ParsingError (fun e => raise (MessageParsingError (str e))))) ;;
        try_except
          (parse_nullspace ;; parse_path ;; parse_nullspace ;; parse_CRLF)
          (except_ParsingError
             (fun e => raise (ParameterArgumentParsingError (str e))))) (mkRS ms))
  = inr tt ->
  exists p, grammar_line ms p.
Proof.
  intros Hw. unfold bind at 1.
  pose proof (two_words_block w1 w2 name ms) as H. cbv zeta in H.
  destruct (two_words_rest w1 w2 ms) as [rest|] eqn:E.
  - rewrite H. unfold try_except at 1.
    destruct ((parse_nullspace ;; parse_path ;; parse_nullspace ;; parse_CRLF) (mkRS rest))
      as [[e|[]] rs'] eqn:E1.
    + unfold except_ParsingError. destruct (is_ParsingError e); discriminate.
    + intros _.
      assert (E1' : fst ((parse_nullspace ;; parse_path ;; parse_nullspace ;; parse_CRLF)
                           (mkRS rest)) = inr tt) by now rewrite E1.
      destruct (path_args_lang _ E1')
        as (ws1 & l & elems & ws & tail & -> & H1 & Hne & Hl & He & Hws).
      destruct (two_words_rest_inv _ _ _ _ E) as (ws0 & -> & Hws0).
      eexists. exists (w1 ++ ws0 ++ w2 ++ ws1), l, elems, ws, tail.
      repeat split; try assumption.
      * now rewrite !str_app_assoc.
      * rewrite forall_chars_app in Hw. apply andb_true_iff in Hw as [Hw1 Hw2].
        rewrite !forall_chars_app, Hw1, Hw2. simpl.
        assert (HSP : forall c, cls_SP c = true -> negb (Ascii.eqb c "<") = true).
        { intros c Hc. unfold cls_SP in Hc. apply orb_true_iff in Hc as [Hc|Hc];
            apply Ascii.eqb_eq in Hc; subst c; reflexivity. }
        now rewrite (forall_chars_impl _ _ _ HSP Hws0), (forall_chars_impl _ _ _ HSP H1).
  - destruct H as (m & rs & ->). discriminate.
Qed.

Lemma valid_mail_from_grammar_line ms :
  Message_init ms = inr (mkMessage _MAIL_FROM false) -> exists p, grammar_line ms p.
Proof.
  intros H. classify_cases H.
  apply (two_words_command_grammar_line "MAIL" "FROM:" "mail-from-cmd"); [reflexivity|].
  assumption.
Qed.

Lemma valid_rcpt_to_grammar_line ms :
  Message_init ms = inr (mkMessage _RCPT_TO false) -> exists p, grammar_line ms p.
Proof.
  intros H. classify_cases H.
  apply (two_words_command_grammar_line "RCPT" "TO:" "rcpt-to-cmd"); [reflexivity|].
  assumption.
Qed.

Lemma grammar_line_path_line s p : grammar_line s p -> path_line s p.
Proof.
  intros (pre & l & elems & ws & tail & Hs & Hp & Hpre & _ & Hl & He & Hws).
  exists pre, l, (render_domain elems), ws, tail. repeat split; try assumption.
  - exact (forall_chars_impl _ _ _ cls_char_local_char Hl).
  - destruct elems as [|el elems]; [discriminate|]. now apply domain_path_chars.
Qed.

Lemma grammar_line_mailbox_path s p : grammar_line s p -> mailbox_path p.
Proof.
  intros (pre & l & elems & ws & tail & _ & -> & _ & Hne & Hl & He & _). split.
  - now apply parse_path_grammar.
  - exists l, elems. auto.
Qed.

Lemma mailbox_path_stored p : mailbox_path p -> stored_path p.
Proof.
  intros (_ & l & elems & -> & _ & Hl & He). exists l, (render_domain elems).
  split; [reflexivity|]. split.
  - exact (forall_chars_impl _ _ _ cls_char_local_char Hl).
  - destruct elems as [|el elems]; [discriminate|]. now apply domain_path_chars.
Qed.

Lemma accepted_path_defined line msg (mail : bool) :
  Message_init line = inr msg ->
  (if mail then is_mail_from_cmd msg else is_rcpt_to_cmd msg) = true ->
  negb (has_valid_params_args msg) = false ->
  exists p, bracketed_path line = inr p /\ path_line line p.
Proof.
  intros Hm Hk Hv.
  assert (Hex : exists p', path_line line p').
  { destruct mail.
    - apply valid_mail_from_line. rewrite Hm. f_equal.
      apply message_is_mail_from; [now rewrite Hk | exact Hv].
    - apply valid_rcpt_to_line. rewrite Hm. f_equal.
      apply message_is_rcpt_to; [exact Hk | exact Hv]. }
  destruct Hex as (p' & Hline). exists p'. split; [|exact Hline].
  unfold bracketed_path. now rewrite (path_line_bracketed _ _ Hline).
Qed.

Lemma accepted_mailbox_path line msg p (mail : bool) :
  Message_init line = inr msg ->
  (if mail then is_mail_from_cmd msg else is_rcpt_to_cmd msg) = true ->
  negb (has_valid_params_args msg) = false ->
  bracketed_path line = inr p ->
  mailbox_path p.
Proof.
  intros Hm Hk Hv Hp.
  assert (Hex : exists p', grammar_line line p').
  { destruct mail.
    - apply valid_mail_from_grammar_line. rewrite Hm. f_equal.
      apply message_is_mail_from; [now rewrite Hk | exact Hv].
    - apply valid_rcpt_to_grammar_line. rewrite Hm. f_equal.
      apply message_is_rcpt_to; [exact Hk | exact Hv]. }
  destruct Hex as (p' & Hline).
  unfold bracketed_path in Hp.
  rewrite (path_line_bracketed _ _ (grammar_line_path_line _ _ Hline)) in Hp.
  injection Hp as <-. exact (grammar_line_mailbox_path _ _ Hline).
Qed.

Ltac stored_path_of mail :=
  match goal with
  | Hm : Message_init ?l = inr ?m, Hp : bracketed_path ?l = inr ?p |- _ =>
      assert (Hsp : mailbox_path p)
        by (apply (accepted_mailbox_path l m p mail Hm);
            [ first [assumption | now apply negb_false_iff] | assumption | assumption ])
  end.

Lemma handle_well_formed env line s s' :
  well_formed_session s ->
  handle env line s = Continue s' ->
  well_formed_session s'.
Proof.
  intros Hwf H. unfold handle, on_quit in H. unfold well_formed_session in *.
  destruct (st s) eqn:Est;
    repeat break_match_hyp H; try discriminate H;
    try (apply reply_inv in H as (sk & Hsend & H); try discriminate H);
    injection H as <-; simpl; rewrite ?Est; simpl; try exact Hwf; try reflexivity.
  - stored_path_of true. rewrite Hwf. exists s0. auto.
  - stored_path_of false. destruct Hwf as (p & Hp & ->).
    exists p, [s0]. split; [exact Hp|]. split; [discriminate|].
    split; [now constructor | reflexivity].
  - stored_path_of false. destruct Hwf as (p & fps & Hp & Hne & Hfps & ->).
    exists p, (fps ++ [s0])%list. split; [exact Hp|].
    split; [destruct fps; discriminate|].
    split; [apply Forall_app; auto | reflexivity].
  - destruct Hwf as (p & fps & Hp & Hne & Hfps & ->).
    exists p, fps, []. split; [exact Hp|]. split; [exact Hne|]. split; [exact Hfps|].
    split; [intros [] | reflexivity].
  - destruct Hwf as (p & fps & lines & Hp & Hne & Hfps & Hl & ->).
    exists p, fps, (lines ++ [line])%list.
    split; [exact Hp|]. split; [exact Hne|]. split; [exact Hfps|].
    split; [|reflexivity].
    intros Hin. apply in_app_or in Hin as [Hin | [Hin | []]]; [now apply Hl|].
    match goal with
    | E : String.eqb _ _ = false |- _ => rewrite Hin, String.eqb_refl in E; discriminate E
    end.
Qed.

Lemma iteration_well_formed env s s' :
  well_formed_session s -> iteration env s = Continue s' -> well_formed_session s'.
Proof.
  intros Hwf. unfold iteration.
  destruct (negb (contains_complete_msg (sock_stream_rem_string s))).
  - unfold recv_msg. destruct (sock_recv (connection_socket s)) as [[chunk|] sk];
      [|discriminate].
    destruct (decode env chunk); [|discriminate].
    intros [= <-]. exact Hwf.
  - destruct (consume_and_get_msg (sock_stream_rem_string s)) as [msg_str rs].
    apply handle_well_formed. exact Hwf.
Qed.

Lemma run_well_formed env : forall n s0 s,
  well_formed_session s0 -> run env n s0 = Continue s -> well_formed_session s.
Proof.
  induction n as [|n IH]; intros s0 s Hwf; simpl.
  - now intros [= <-].
  - destruct (iteration env s0) as [s1| |] eqn:E; try discriminate.
    apply IH. exact (iteration_well_formed _ _ _ Hwf E).
Qed.

(** X7: in every session reached from the start of a connection the
    transaction fits the state: it is empty while HELO or MAIL FROM is
    expected; it holds a reverse path and nothing else while the first RCPT TO
    is expected; from then on it also holds at least one forward path; data
    lines are only held in the data state, and none of them is the end-of-data
    marker.  Every path held is a path of the grammar, which the path
    production accepts whole: between angle brackets, a local part of one or
    more characters of the string production, an at sign, and a domain of one
    or more elements separated by dots. *)
Theorem session_invariant (env : peer) (sk : socket) (l : list event) :
  forall n s, run env n (session_init sk l) = Continue s -> well_formed_session s.
Proof. intros n s. apply run_well_formed. reflexivity. Qed.

Lemma session_invariant_witness : well_formed_session sample_data_session.
Proof. exact (session_invariant sample_peer sample_socket [] 7 sample_data_session sample_run). Defined.

Ltac one_reply Hsend Est :=
  unfold on_quit, reply, send_msg, with_email, with_state, with_socket, logged;
  cbn [connection_socket st current_email sock_stream_rem_string log
       has_valid_params_args _param_arg_error negb];
  rewrite Hsend;
  cbn [connection_socket st current_email sock_stream_rem_string log];
  rewrite <- ?List.app_assoc; cbn [List.app]; rewrite ?Est;
  eexists; split; cycle 1;
  [ first [ left; split; reflexivity
          | right; eexists; repeat split; reflexivity ]
  | try unfold error_replies, success_replies; simpl; auto 10 ].

(** X8: in a command state every line gets exactly one reply, and no
    exception escapes the state machine, whatever the line: when the reply can
    be sent, either the line is a valid QUIT, answered with 221 before the
    socket is closed and the loop left, or the loop goes on after one reply
    taken from the seven the server knows. *)
Theorem command_line_gets_one_reply (env : peer) (s : session) (line : string)
    (sk : socket) :
  st s <> STATE_4 ->
  sock_send (connection_socket s) = (true, sk) ->
  exists r,
    In r (error_replies ++ success_replies env)
    /\ ((handle env line s =
         Break (mkSession (st s) (current_email s) (sock_stream_rem_string s) sk
                  (log s ++ [EvSend r; EvClose]))
         /\ r = CLOS_CON_221_MSG env)
        \/ exists s',
             handle env line s = Continue s'
             /\ log s' = (log s ++ [EvSend r])%list
             /\ connection_socket s' = sk
             /\ sock_stream_rem_string s' = sock_stream_rem_string s).
Proof.
  intros Hst Hsend. destruct (Message_init_kind line) as (err & Hm & _).
  remember (first_matching line) as t eqn:Et. clear Et.
  unfold handle. rewrite Hm.
  destruct (st s) eqn:Est; try congruence;
    destruct t, err; cbn -[on_quit reply bracketed_path];
    try (destruct (accepted_path_defined line _ true Hm eq_refl eq_refl) as (p & -> & _));
    try (destruct (accepted_path_defined line _ false Hm eq_refl eq_refl) as (p & -> & _));
    one_reply Hsend Est.
Qed.

Lemma command_line_gets_one_reply_witness :
  exists r,
    In r (error_replies ++ success_replies sample_peer)
    /\ ((handle sample_peer ("NOOP" ++ NL) (session_init (mkSocket [] []) []) =
         Break (mkSession STATE_0 Email_init (mkRS "") (mkSocket [] [])
                  ([] ++ [EvSend r; EvClose]))
         /\ r = CLOS_CON_221_MSG sample_peer)
        \/ exists s',
             handle sample_peer ("NOOP" ++ NL) (session_init (mkSocket [] []) [])
             = Continue s'
             /\ log s' = ([] ++ [EvSend r])%list
             /\ connection_socket s' = mkSocket [] []
             /\ sock_stream_rem_string s' = mkRS "").
Proof.
  apply (command_line_gets_one_reply sample_peer (session_init (mkSocket [] []) [])
           ("NOOP" ++ NL) (mkSocket [] [])); [discriminate | reflexivity].
Defined.

Lemma app_single_inv {A} (l : list A) (x y : A) : (l ++ [x] = l ++ [y])%list -> x = y.
Proof. intros H. apply app_inv_head in H. now injection H. Qed.

Lemma app_self_inv {A} (l : list A) (x : A) : l <> (l ++ [x])%list.
Proof.
  intros H. apply (f_equal (@List.length A)) in H.
  rewrite List.length_app in H. simpl in H. lia.
Qed.

Lemma not_error_reply r :
  In r error_replies ->
  match r with String "5" _ => True | _ => False end.
Proof. intros [<- | [<- | [<- | []]]]; exact I. Qed.

(** X9: an error reply changes nothing: whenever the state machine
    answers a line with 500, 501 or 503 and goes on, the state and the
    transaction are what they were before the line. *)
Theorem error_reply_changes_nothing (env : peer) (s s' : session) (line r : string) :
  handle env line s = Continue s' ->
  log s' = (log s ++ [EvSend r])%list ->
  In r error_replies ->
  st s' = st s /\ current_email s' = current_email s.
Proof.
  intros H Hlog Hr. apply not_error_reply in Hr.
  unfold handle, on_quit in H.
  destruct (st s) eqn:Est;
    repeat break_match_hyp H; try discriminate H;
    try (apply reply_inv in H as (sk & Hsend & H); try discriminate H);
    injection H as <-; simpl in Hlog |- *; rewrite ?Est;
    try (split; reflexivity);
    try (apply app_single_inv in Hlog; injection Hlog as <-; contradiction).
  - rewrite <- List.app_assoc in Hlog. apply app_inv_head in Hlog.
    destruct (forward_events (current_email s) l) as [|ev evs]; simpl in Hlog.
    + injection Hlog as <-. contradiction.
    + injection Hlog as _ Hlog. destruct evs; discriminate.
  - now apply app_self_inv in Hlog.
Qed.

Lemma error_reply_changes_nothing_witness :
  st (mkSession STATE_1 Email_init (mkRS "") (mkSocket [] [])
        [EvSend BAD_SEQ_COM_ERR_503_MSG]) = STATE_1
  /\ current_email (mkSession STATE_1 Email_init (mkRS "") (mkSocket [] [])
                      [EvSend BAD_SEQ_COM_ERR_503_MSG]) = Email_init.
Proof.
  apply (error_reply_changes_nothing sample_peer
           (mkSession STATE_1 Email_init (mkRS "") (mkSocket [] []) []) _
           ("RCPT TO:<b@y.com>" ++ NL) BAD_SEQ_COM_ERR_503_MSG).
  - reflexivity.
  - reflexivity.
  - right. right. left. reflexivity.
Defined.

(** ** Several lines in a row *)

Lemma mem_char_app c (a b : string) : mem_char c (a ++ b) = mem_char c a || mem_char c b.
Proof.
  induction a as [|x a IH]; simpl; [reflexivity|]. now rewrite IH, orb_assoc.
Qed.

Lemma split_line_single : forall body rest,
  mem_char LF body = false ->
  split_line ((body ++ NL) ++ rest) = (body ++ NL, rest).
Proof.
  induction body as [|a body IH]; intros rest H; simpl in *; [reflexivity|].
  apply orb_false_iff in H as [Ha Hb]. now rewrite Ha, IH.
Qed.

Lemma iteration_first_line env q e sk lg line rest :
  single_line line ->
  iteration env (mkSession q e (mkRS (line ++ rest)) sk lg)
  = handle env line (mkSession q e (mkRS rest) sk lg).
Proof.
  intros (body & -> & Hb). unfold iteration, contains_complete_msg, consume_and_get_msg.
  cbn [sock_stream_rem_string get _remaining_string].
  rewrite !mem_char_app. cbn [mem_char NL]. rewrite Ascii.eqb_refl, orb_true_r. cbn [negb orb].
  rewrite (split_line_single body rest Hb). reflexivity.
Qed.

Lemma sock_send_reliable sk : tx_ok sk = [] -> sock_send sk = (true, sk).
Proof. unfold sock_send. now intros ->. Qed.

(** X10: recipients accumulate.  Once a first recipient is in, any run
    of well-formed RCPT TO lines waiting in the buffer is taken line by line:
    the state stays the same, each line is answered with 250 OK, and the paths
    the lines carry are appended to the forward paths in the order of arrival;
    the rest of the transaction and of the buffer is untouched. *)
Theorem rcpt_to_lines_accumulate (env : peer) (sk : socket) (rest : string) :
  tx_ok sk = [] ->
  forall lines e lg,
    Forall single_line lines ->
    Forall (fun line => Message_init line = inr (mkMessage _RCPT_TO false)) lines ->
    exists paths,
      Forall2 path_line lines paths
      /\ run env (List.length lines)
           (mkSession STATE_3 e (mkRS (joined lines ++ rest)) sk lg)
         = Continue
             (mkSession STATE_3
                (mkEmail (_reverse_path e) (_forward_paths e ++ paths) (_subject e)
                   (_message_lines e) (_attachment_filename e))
                (mkRS rest) sk
                (lg ++ repeat (EvSend OK_250_MSG) (List.length lines))).
Proof.
  intros Hsk. induction lines as [|line lines IH]; intros e lg Hsingle Hvalid.
  - exists []. split; [constructor|]. simpl. rewrite !List.app_nil_r. now destruct e.
  - inversion Hsingle as [|? ? Hs1 Hs2]; subst. inversion Hvalid as [|? ? Hv1 Hv2]; subst.
    destruct (accepted_path_defined line _ false Hv1 eq_refl eq_refl) as (p & Hp & Hline).
    destruct (IH (add_forward_path e p) (lg ++ [EvSend OK_250_MSG])%list Hs2 Hv2)
      as (paths & Hpaths & Hrun).
    exists (p :: paths). split; [now constructor|].
    cbn [List.length run joined fold_right]. rewrite str_app_assoc.
    rewrite (iteration_first_line env _ _ _ _ _ _ Hs1).
    unfold handle. cbn [st]. rewrite Hv1. cbn -[reply bracketed_path]. rewrite Hp.
    unfold reply, send_msg. cbn [connection_socket with_email]. rewrite (sock_send_reliable _ Hsk).
    unfold logged, with_socket, with_email.
    cbn [st current_email sock_stream_rem_string connection_socket log].
    fold (joined lines). refine (eq_trans Hrun _).
    cbn [add_forward_path _reverse_path _forward_paths
      _subject _message_lines _attachment_filename repeat].
    rewrite <- !List.app_assoc. reflexivity.
Qed.

Lemma rcpt_to_lines_accumulate_witness :
  exists paths,
    Forall2 path_line ["RCPT TO:<c@z.org>" ++ NL; "RCPT  TO: <d@w.net> " ++ NL] paths
    /\ run sample_peer 2
         (mkSession STATE_3 sample_email
            (mkRS (joined ["RCPT TO:<c@z.org>" ++ NL; "RCPT  TO: <d@w.net> " ++ NL] ++ "DA"))
            (mkSocket [] []) [])
       = Continue
           (mkSession STATE_3
              (mkEmail "<a@x.com>" (["<b@y.com>"] ++ paths) "" ["Hello world" ++ NL] "")
              (mkRS "DA") (mkSocket [] [])
              ([] ++ repeat (EvSend OK_250_MSG) 2)).
Proof.
  apply (rcpt_to_lines_accumulate sample_peer (mkSocket [] []) "DA" eq_refl
           ["RCPT TO:<c@z.org>" ++ NL; "RCPT  TO: <d@w.net> " ++ NL] sample_email []).
  - repeat constructor.
    + exists "RCPT TO:<c@z.org>". split; reflexivity.
    + exists "RCPT  TO: <d@w.net> ". split; reflexivity.
  - repeat constructor.
Defined.

(** X11: data lines accumulate.  In the data state any run of lines
    waiting in the buffer, none of them the end-of-data marker, is appended to
    the data lines verbatim and in order, whatever the lines look like;
    nothing is sent and nothing else changes. *)
Theorem data_lines_accumulate (env : peer) (sk : socket) (rest : string) :
  forall lines e lg,
    Forall single_line lines ->
    ~ In EOMD_SEQ lines ->
    run env (List.length lines)
      (mkSession STATE_4 e (mkRS (joined lines ++ rest)) sk lg)
    = Continue
        (mkSession STATE_4
           (mkEmail (_reverse_path e) (_forward_paths e) (_subject e)
              (_message_lines e ++ lines) (_attachment_filename e))
           (mkRS rest) sk lg).
Proof.
  induction lines as [|line lines IH]; intros e lg Hsingle Hno.
  - simpl. rewrite List.app_nil_r. now destruct e.
  - inversion Hsingle as [|? ? Hs1 Hs2]; subst.
    cbn [List.length run joined fold_right]. rewrite str_app_assoc.
    rewrite (iteration_first_line env _ _ _ _ _ _ Hs1).
    unfold handle. cbn [st].
    destruct (String.eqb line EOMD_SEQ) eqn:E.
    + apply String.eqb_eq in E. subst line. exfalso. apply Hno. now left.
    + unfold with_email. cbn [st current_email sock_stream_rem_string connection_socket log].
      fold (joined lines). rewrite IH; [| exact Hs2 | intros Hin; apply Hno; now right].
      cbn [add_message_line _reverse_path _forward_paths _subject _message_lines
           _attachment_filename].
      rewrite <- List.app_assoc. reflexivity.
Qed.

Lemma data_lines_accumulate_witness :
  run sample_peer 2
    (mkSession STATE_4 sample_email
       (mkRS (joined ["QUIT" ++ NL; ".." ++ NL] ++ "."))
       (mkSocket [] []) [])
  = Continue
      (mkSession STATE_4
         (mkEmail "<a@x.com>" ["<b@y.com>"] ""
            (["Hello world" ++ NL] ++ ["QUIT" ++ NL; ".." ++ NL]) "")
         (mkRS ".") (mkSocket [] []) []).
Proof.
  apply (data_lines_accumulate sample_peer (mkSocket [] []) "."
           ["QUIT" ++ NL; ".." ++ NL] sample_email []).
  - repeat constructor.
    + exists "QUIT". split; reflexivity.
    + exists "..". split; reflexivity.
  - intros [H | [H | []]]; discriminate.
Defined.

(** ** How a session ends *)

Lemma reply_ends base msg s0 k :
  (exists pre, log s0 = (base ++ pre)%list) ->
  (forall s1, log s1 = (log s0 ++ [EvSend msg])%list -> ends_closed base (k s1)) ->
  ends_closed base (reply msg s0 k).
Proof.
  intros (pre & Hpre) Hk. unfold reply, send_msg.
  destruct (sock_send (connection_socket s0)) as [[] sk].
  - apply Hk. reflexivity.
  - simpl. eexists. rewrite Hpre, <- List.app_assoc. split; [reflexivity|].
    apply in_or_app. right. now left.
Qed.

Lemma ends_closed_quit base s1 pre msg :
  log s1 = ((base ++ pre) ++ [EvSend msg])%list ->
  ends_closed base (Break (logged s1 [EvClose])).
Proof.
  intros H. simpl. eexists. rewrite H, <- !List.app_assoc. split; [reflexivity|].
  apply in_or_app. right. simpl. auto.
Qed.

Ltac ends_step :=
  first
    [ exact I
    | apply reply_ends;
      [ first [ exists []; simpl; now rewrite List.app_nil_r
              | eexists; simpl; reflexivity ]
      | intros s1 Hs1 ]
    | eapply ends_closed_quit;
      match goal with H : log _ = _ |- _ => rewrite H end;
      simpl; rewrite <- (List.app_nil_r (log _)) at 1; reflexivity ].

Lemma handle_ends env line s :
  (st s = STATE_4 -> String.eqb line Server.EOMD_SEQ = false) ->
  ends_closed (log s) (handle env line s).
Proof.
  intros Hdata. destruct (Message_init_kind line) as (err & Hm & _).
  remember (first_matching line) as t eqn:Et. clear Et.
  unfold handle.
  destruct (st s) eqn:Est.
  5: { rewrite (Hdata eq_refl). exact I. }
  all: rewrite Hm; destruct t, err; cbn -[on_quit reply bracketed_path];
    try (destruct (accepted_path_defined line _ true Hm eq_refl eq_refl) as (p & -> & _));
    try (destruct (accepted_path_defined line _ false Hm eq_refl eq_refl) as (p & -> & _));
    unfold on_quit; cbn [has_valid_params_args _param_arg_error negb];
    repeat ends_step.
Qed.

(** X12: how a pass through the loop can end when it is not the pass
    that delivers mail (the pass over the end-of-data marker, which writes the
    forward files).  Whatever the session, an exception escapes such a pass in
    two cases only, both while bytes are requested: receiving fails, the
    socket is closed and building the message to print raises TypeError; or
    the bytes received cannot be decoded, and UnicodeDecodeError escapes with
    the socket left open.  A pass that leaves the loop, after a valid QUIT or
    a reply that could not be sent, has closed the socket. *)
Theorem session_end_closes_socket (env : peer) (s : session) :
  delivers s = false ->
  ends_or_fails_to_receive env s (iteration env s).
Proof.
  intros Hdel. unfold iteration, delivers in *.
  destruct (contains_complete_msg (sock_stream_rem_string s)) eqn:Hc; cbn [negb].
  - unfold consume_and_get_msg.
    destruct (split_line (get (sock_stream_rem_string s))) as [msg_str rest].
    assert (Hdata : st (with_buffer s (set (sock_stream_rem_string s) rest)) = STATE_4 ->
                    String.eqb msg_str Server.EOMD_SEQ = false).
    { cbn [with_buffer st]. intros Est. rewrite Est in Hdel. exact Hdel. }
    pose proof (handle_ends env msg_str _ Hdata) as H.
    destruct (handle env msg_str _); simpl in H |- *; auto. contradiction.
  - unfold recv_msg.
    destruct (sock_recv (connection_socket s)) as [[chunk|] sk'] eqn:Hr.
    + destruct (Server.decode env chunk) eqn:Hd; cbn; auto.
      split; [exact Hc|]. right. split; [reflexivity|]. exists chunk.
      rewrite Hr. auto.
    + cbn. split; [exact Hc|]. left. rewrite Hr. auto.
Qed.

Lemma session_end_closes_socket_witness :
  ends_or_fails_to_receive sample_peer sample_quit_session
    (Break (mkSession STATE_1 Email_init (mkRS "") (mkSocket [] [])
              [EvRecv ("HELO client.example" ++ NL ++ "QUIT" ++ NL);
               EvSend ("250 Hello 10.0.0.7 pleased to meet you" ++ NL);
               EvSend ("221 mail closing connection" ++ NL);
               EvClose])).
Proof.
  exact (session_end_closes_socket sample_peer sample_quit_session eq_refl).
Defined.

(** Bytes that are no text end the session: the exception leaves the loop,
    and the socket is not closed. *)
Example garbled_chunk_scenario :
  run sample_peer 3
    (session_init (mkSocket [Some ("HELO client.example" ++ NL);
                             Some sample_garbled_greeting] []) [])
  = Uncaught UnicodeDecodeError
      (mkSession STATE_1 Email_init (mkRS "") (mkSocket [] [])
         [EvRecv ("HELO client.example" ++ NL);
          EvSend ("250 Hello 10.0.0.7 pleased to meet you" ++ NL);
          EvRecv sample_garbled_greeting]).
Proof. vm_compute. reflexivity. Qed.

(** ** What is stored, and where it is delivered *)

Lemma stored_path_domain l d :
  forall_chars local_char l = true ->
  forall_chars path_char d = true ->
  re_search pat_at_to_bracket ("<" ++ (l ++ "@" ++ d) ++ ">") = Some ("@" ++ d ++ ">").
Proof.
  intros Hl Hd. unfold pat_at_to_bracket.
  change ("<" ++ (l ++ "@" ++ d) ++ ">") with (String "<" ((l ++ "@" ++ d) ++ ">")).
  replace (String "<" ((l ++ "@" ++ d) ++ ">"))
    with ((String "<" l) ++ "@" ++ d ++ ">")
    by (simpl; now rewrite !str_app_assoc).
  rewrite re_search_skip.
  - apply re_search_here. cbn [String.append].
    rewrite <- (str_app_nil_r (String ">" "")).
    change (d ++ String ">" "" ++ "") with (d ++ ">" ++ "").
    rewrite (dots_then_bracket "@" d "" (forall_chars_impl _ _ _ path_char_dot Hd) eq_refl).
    reflexivity.
  - simpl. apply (forall_chars_impl _ _ _ local_char_not_at Hl).
Qed.

Lemma slice_at_domain d : slice_1_m1 ("@" ++ d ++ ">") = d.
Proof.
  unfold slice_1_m1. cbn [String.append String.length drop].
  rewrite str_length_app. cbn [String.length].
  replace (S (String.length d + 1) - 2) with (String.length d) by lia.
  apply take_app.
Qed.

Lemma domain_names_stored : forall fps,
  Forall stored_path fps ->
  exists doms,
    domain_names fps = inr doms
    /\ Forall2 (fun p d => exists l, p = "<" ++ (l ++ "@" ++ d) ++ ">"
                                     /\ forall_chars local_char l = true) fps doms.
Proof.
  induction fps as [|p fps IH]; intros H.
  - exists []. split; [reflexivity | constructor].
  - apply Forall_cons_iff in H as [(l & d & Hp & Hl & Hd) Hfps].
    destruct (IH Hfps) as (doms & Hdoms & Hall).
    exists (d :: doms). split.
    + cbn [domain_names]. rewrite Hp, (stored_path_domain l d Hl Hd), Hdoms, slice_at_domain.
      reflexivity.
    + constructor; [eauto | exact Hall].
Qed.

(** X13: where mail is delivered.  In every session that has reached
    the data state, the forward files opened when the end-of-data marker
    arrives are named after the domains of the forward paths, each domain being
    the text between the at sign and the closing bracket of its path; a domain
    that occurs several times names one file. *)
Theorem delivery_files_are_the_domains (env : peer) (sk : socket) (l : list event)
    (n : nat) (s : session) :
  run env n (session_init sk l) = Continue s ->
  st s = STATE_4 ->
  exists doms,
    Forall2 (fun p d => exists lp, p = "<" ++ (lp ++ "@" ++ d) ++ ">"
                                   /\ forall_chars local_char lp = true)
      (_forward_paths (current_email s)) doms
    /\ domain_specific_forward_file_names (current_email s) = inr (nodup string_dec doms)
    /\ NoDup (nodup string_dec doms)
    /\ (forall d, In d (nodup string_dec doms) <-> In d doms)
    /\ doms <> [].
Proof.
  intros Hrun Hst.
  pose proof (run_well_formed env n (session_init sk l) s eq_refl Hrun) as Hwf.
  unfold well_formed_session in Hwf. rewrite Hst in Hwf.
  destruct Hwf as (p & fps & lines & _ & Hne & Hfps & _ & He).
  rewrite He. cbn [_forward_paths].
  apply (Forall_impl _ mailbox_path_stored) in Hfps.
  destruct (domain_names_stored fps Hfps) as (doms & Hdoms & Hall).
  exists doms. split; [exact Hall|]. split.
  - unfold domain_specific_forward_file_names. cbn [_forward_paths]. now rewrite Hdoms.
  - split; [apply NoDup_nodup|]. split; [intros d; apply nodup_In|].
    intros ->. inversion Hall. subst. now apply Hne.
Qed.

Lemma delivery_files_are_the_domains_witness :
  exists doms,
    Forall2 (fun p d => exists lp, p = "<" ++ (lp ++ "@" ++ d) ++ ">"
                                   /\ forall_chars local_char lp = true)
      (_forward_paths (current_email sample_data_session)) doms
    /\ domain_specific_forward_file_names (current_email sample_data_session)
       = inr (nodup string_dec doms)
    /\ NoDup (nodup string_dec doms)
    /\ (forall d, In d (nodup string_dec doms) <-> In d doms)
    /\ doms <> [].
Proof.
  exact (delivery_files_are_the_domains sample_peer sample_socket [] 7
           sample_data_session sample_run eq_refl).
Defined.

Lemma is_local_char_local_char c : is_local_char c = true -> local_char c = true.
Proof. intros H. now apply cls_char_local_char, is_local_char_cls_char. Qed.

Lemma SP_not_bracket c : cls_SP c = true -> negb (Ascii.eqb c "<") = true.
Proof.
  unfold cls_SP. intros H. apply orb_true_iff in H as [H|H];
    apply Ascii.eqb_eq in H; subst c; reflexivity.
Qed.

Lemma render_path_line pre l elems ws tail :
  forall_chars (fun a => negb (Ascii.eqb a "<")) pre = true ->
  valid_local l = true ->
  valid_elements elems = true ->
  forall_chars cls_SP ws = true ->
  path_line (pre ++ render_path l elems ++ ws ++ NL ++ tail) (render_path l elems).
Proof.
  intros Hpre Hl He Hws. exists pre, l, (render_domain elems), ws, tail.
  unfold render_path, render_mailbox. repeat split; auto.
  - now rewrite !str_app_assoc.
  - destruct l; [discriminate|].
    exact (forall_chars_impl _ _ _ is_local_char_local_char Hl).
  - apply domain_path_chars. destruct elems; [discriminate | exact He].
Qed.

Lemma keyword_no_bracket w1 w2 a ws1 ws2 :
  forall_chars (fun c => negb (Ascii.eqb c "<")) (w1 ++ w2) = true ->
  forall_chars cls_SP (String a ws1) = true ->
  forall_chars cls_SP ws2 = true ->
  forall_chars (fun c => negb (Ascii.eqb c "<")) (w1 ++ String a ws1 ++ w2 ++ ws2) = true.
Proof.
  intros Hw H1 H2. rewrite forall_chars_app in Hw. apply andb_true_iff in Hw as [Hw1 Hw2].
  rewrite !forall_chars_app, Hw1, Hw2.
  now rewrite (forall_chars_impl _ _ _ SP_not_bracket H1),
    (forall_chars_impl _ _ _ SP_not_bracket H2).
Qed.

(** X14: what the server keeps of a path command.  For every valid
    mailbox, a MAIL FROM line makes the path it carries, and nothing around
    it, the reverse path and moves on to the state that expects the first
    recipient; a RCPT TO line appends exactly the path it carries to the
    forward paths, in the state that expects the first recipient as in the one
    that accepts further ones; and the forward file of such a path is named
    after exactly its domain. *)
Theorem path_commands_store (env : peer) (l : string) (elems : list string) (a : ascii)
    (ws1 ws2 ws3 : string) (e : Email) (buf : RemainingString) (sk sk' : socket)
    (lg : list event) :
  valid_local l = true ->
  valid_elements elems = true ->
  forall_chars cls_SP (String a ws1) = true ->
  forall_chars cls_SP ws2 = true ->
  forall_chars cls_SP ws3 = true ->
  sock_send sk = (true, sk') ->
  handle env ("MAIL" ++ String a ws1 ++ "FROM:" ++ ws2 ++ render_path l elems
              ++ ws3 ++ NL) (mkSession STATE_1 e buf sk lg)
  = Continue (mkSession STATE_2 (set_reverse_path e (render_path l elems)) buf sk'
                (lg ++ [EvSend OK_250_MSG]))
  /\ handle env ("RCPT" ++ String a ws1 ++ "TO:" ++ ws2 ++ render_path l elems
                 ++ ws3 ++ NL) (mkSession STATE_2 e buf sk lg)
     = Continue (mkSession STATE_3 (add_forward_path e (render_path l elems)) buf sk'
                   (lg ++ [EvSend OK_250_MSG]))
  /\ handle env ("RCPT" ++ String a ws1 ++ "TO:" ++ ws2 ++ render_path l elems
                 ++ ws3 ++ NL) (mkSession STATE_3 e buf sk lg)
     = Continue (mkSession STATE_3 (add_forward_path e (render_path l elems)) buf sk'
                   (lg ++ [EvSend OK_250_MSG]))
  /\ domain_names [render_path l elems] = inr [render_domain elems].
Proof.
  intros Hl He H1 H2 H3 Hsend.
  destruct (path_commands_valid l elems a ws1 ws2 ws3 "" Hl He H1 H2 H3) as [Hmail Hrcpt].
  assert (Hpm : bracketed_path ("MAIL" ++ String a ws1 ++ "FROM:" ++ ws2
                                ++ render_path l elems ++ ws3 ++ NL ++ "")
                = inr (render_path l elems)).
  { unfold bracketed_path. rewrite (path_line_bracketed _ (render_path l elems)); [reflexivity|].
    pose proof (render_path_line ("MAIL" ++ String a ws1 ++ "FROM:" ++ ws2) l elems ws3 ""
                  (keyword_no_bracket "MAIL" "FROM:" a ws1 ws2 eq_refl H1 H2) Hl He H3) as H.
    now rewrite !str_app_assoc in H. }
  assert (Hpr : bracketed_path ("RCPT" ++ String a ws1 ++ "TO:" ++ ws2
                                ++ render_path l elems ++ ws3 ++ NL ++ "")
                = inr (render_path l elems)).
  { unfold bracketed_path. rewrite (path_line_bracketed _ (render_path l elems)); [reflexivity|].
    pose proof (render_path_line ("RCPT" ++ String a ws1 ++ "TO:" ++ ws2) l elems ws3 ""
                  (keyword_no_bracket "RCPT" "TO:" a ws1 ws2 eq_refl H1 H2) Hl He H3) as H.
    now rewrite !str_app_assoc in H. }
  rewrite (str_app_nil_r NL) in Hmail, Hrcpt, Hpm, Hpr.
  repeat split.
  - unfold handle. cbn [st]. rewrite Hmail, Hpm. cbn -[reply].
    unfold reply, send_msg. cbn [connection_socket with_email]. now rewrite Hsend.
  - unfold handle. cbn [st]. rewrite Hrcpt, Hpr. cbn -[reply].
    unfold reply, send_msg. cbn [connection_socket with_email]. now rewrite Hsend.
  - unfold handle. cbn [st]. rewrite Hrcpt, Hpr. cbn -[reply].
    unfold reply, send_msg. cbn [connection_socket with_email]. now rewrite Hsend.
  - cbn [domain_names]. unfold render_path, render_mailbox.
    rewrite stored_path_domain, slice_at_domain; [reflexivity | |].
    + destruct l; [discriminate|].
      exact (forall_chars_impl _ _ _ is_local_char_local_char Hl).
    + apply domain_path_chars. destruct elems; [discriminate | exact He].
Qed.

Lemma path_commands_store_witness :
  handle sample_peer ("MAIL" ++ String " " "" ++ "FROM:" ++ " " ++ render_path "a" ["x"; "com"]
                      ++ "" ++ NL)
    (mkSession STATE_1 Email_init (mkRS "") (mkSocket [] []) [])
  = Continue (mkSession STATE_2 (set_reverse_path Email_init (render_path "a" ["x"; "com"]))
                (mkRS "") (mkSocket [] []) ([] ++ [EvSend OK_250_MSG]))
  /\ domain_names [render_path "a" ["x"; "com"]] = inr [render_domain ["x"; "com"]].
Proof.
  destruct (path_commands_store sample_peer "a" ["x"; "com"] " " "" " " "" Email_init
              (mkRS "") (mkSocket [] []) (mkSocket [] []) []
              eq_refl eq_refl eq_refl eq_refl eq_refl eq_refl) as (H1 & _ & _ & H4).
  split; [exact H1 | exact H4].
Defined.

(** ** Client and server understand each other *)

Lemma resp_code_parse code name s :
  fst ((try_except (consume (RLit code))
          (except_ConsumptionError (raise (ParsingError name))) ;;
        parse_whitespace ;; parse_arbitrary_text ;; parse_CRLF) (mkRS s))
  = match starts_with code s with
    | None => inl (ParsingError name)
    | Some EmptyString => inl (ParsingError "whitespace")
    | Some (String c r) =>
        if cls_SP c then
          match skip cls_SP r with
          | EmptyString => inl (ParsingError "arbitrary-text")
          | String a t =>
              if cls_printable a then
                match starts_with NL (skip cls_printable t) with
                | Some _ => inr tt
                | None => inl (ParsingError "CRLF")
                end
              else inl (ParsingError "arbitrary-text")
          end
        else inl (ParsingError "whitespace")
    end.
Proof.
  unfold bind. rewrite consume_lit_or.
  destruct (starts_with code s) as [[|c r]|]; try reflexivity.
  rewrite parse_whitespace_eq. destruct (cls_SP c); [|reflexivity].
  rewrite parse_arbitrary_text_eq.
  destruct (skip cls_SP r) as [|a t]; [reflexivity|].
  destruct (cls_printable a); [|reflexivity].
  rewrite parse_CRLF_eq. destruct (starts_with NL (skip cls_printable t)); reflexivity.
Qed.

Lemma skip_head p : forall s,
  match skip p s with String a _ => p a = false | EmptyString => True end.
Proof.
  induction s as [|a s IH]; simpl; [exact I|].
  destruct (p a) eqn:E; [exact IH | exact E].
Qed.

Lemma printable_not_tab c : cls_printable c = true -> Ascii.eqb c TAB = false.
Proof. destruct c as [[] [] [] [] [] [] [] []]; vm_compute; congruence. Qed.

(** A response line: the code, a space, a printable text that does not start
    with a space, the terminator. *)
Lemma resp_code_accepts code name a text :
  forall_chars cls_printable (String a text) = true ->
  Ascii.eqb a " " = false ->
  fst ((try_except (consume (RLit code))
          (except_ConsumptionError (raise (ParsingError name))) ;;
        parse_whitespace ;; parse_arbitrary_text ;; parse_CRLF)
         (mkRS (code ++ " " ++ String a text ++ NL)))
  = inr tt.
Proof.
  intros Ht Ha. simpl in Ht. apply andb_true_iff in Ht as [Hpa Ht].
  rewrite resp_code_parse, starts_with_app. cbn [String.append cls_SP Ascii.eqb Bool.eqb orb].
  cbn [skip]. unfold cls_SP at 1. rewrite Ha, (printable_not_tab _ Hpa). cbn [orb].
  rewrite Hpa, (skip_app cls_printable text NL Ht) by reflexivity. reflexivity.
Qed.

(** The same when the text starts with a name that may be empty or start
    with spaces, followed by a space and a word. *)
Lemma resp_code_accepts_padded code name h b word :
  forall_chars cls_printable h = true ->
  forall_chars cls_printable (String b word) = true ->
  Ascii.eqb b " " = false ->
  fst ((try_except (consume (RLit code))
          (except_ConsumptionError (raise (ParsingError name))) ;;
        parse_whitespace ;; parse_arbitrary_text ;; parse_CRLF)
         (mkRS (code ++ " " ++ h ++ " " ++ String b word ++ NL)))
  = inr tt.
Proof.
  intros Hh Hw Hb.
  destruct (skip_split cls_SP h) as (m & Eh & Hm).
  pose proof (skip_head cls_SP h) as Hhead.
  assert (Hw' := Hw). simpl in Hw'. apply andb_true_iff in Hw' as [Hpb Hword].
  assert (HbSP : cls_SP b = false).
  { unfold cls_SP. now rewrite Hb, (printable_not_tab _ Hpb). }
  rewrite resp_code_parse, starts_with_app. cbn [String.append cls_SP Ascii.eqb Bool.eqb orb].
  rewrite Eh, str_app_assoc.
  rewrite Eh, forall_chars_app in Hh. apply andb_true_iff in Hh as [_ Ht].
  destruct (skip cls_SP h) as [|a t].
  - cbn [String.append].
    replace (m ++ String " " (String b (word ++ NL)))
      with ((m ++ " ") ++ String b (word ++ NL)) by (now rewrite str_app_assoc).
    rewrite (skip_app cls_SP (m ++ " ") (String b (word ++ NL))); [| | exact HbSP].
    + rewrite Hpb, (skip_app cls_printable word NL Hword) by reflexivity. reflexivity.
    + rewrite forall_chars_app, Hm. reflexivity.
  - simpl in Ht. apply andb_true_iff in Ht as [Hpa Ht].
    cbn [String.append].
    rewrite (skip_app cls_SP m (String a (t ++ String " " (String b (word ++ NL)))) Hm Hhead), Hpa.
    replace (t ++ String " " (String b (word ++ NL)))
      with ((t ++ " " ++ String b word) ++ NL) by (now rewrite !str_app_assoc).
    rewrite (skip_app cls_printable (t ++ " " ++ String b word) NL) by
      (try reflexivity; rewrite forall_chars_app, Ht; exact Hw).
    reflexivity.
Qed.

(** X15: the client understands the server.  When the names the server
    puts in its replies are printable (and the name of the greeting does not
    start with a space), each success reply matches the response code the
    client expects for it: the greeting 220, the HELO acknowledgement and OK
    250, the start-of-data reply 354, the closing reply 221.  An error reply
    (500, 501, 503) matches none of the four codes, so the client takes it as a
    protocol violation whatever it expects. *)
Theorem client_understands_server (env : peer) (a : ascii) (name : string) :
  Server.getfqdn env = String a name ->
  forall_chars cls_printable (String a name) = true ->
  Ascii.eqb a " " = false ->
  forall_chars cls_printable (gethostname env) = true ->
  forall_chars cls_printable (client_address env) = true ->
  response_matches "220" (GREETING_220_MSG env) = true
  /\ response_matches "250" (HELO_ACK_250_MSG_START_UNENC ++ client_address env
                             ++ HELO_ACK_250_MSG_END_UNENC) = true
  /\ response_matches "250" OK_250_MSG = true
  /\ response_matches "354" START_MAIL_354_MSG = true
  /\ response_matches "221" (CLOS_CON_221_MSG env) = true
  /\ (forall code r,
        In code ["220"; "221"; "250"; "354"] -> In r error_replies ->
        response_matches code r = false).
Proof.
  intros Hfqdn Hname Ha Hhost Haddr.
  split; [|split; [|split; [|split; [|split]]]].
  - unfold response_matches, GREETING_220_MSG. cbn [parsing_procedure String.eqb Ascii.eqb Bool.eqb].
    unfold parse_220_resp_code_msg. rewrite Hfqdn.
    change ("220 " ++ String a name ++ NL) with ("220" ++ " " ++ String a name ++ NL).
    now rewrite resp_code_accepts.
  - unfold response_matches. cbn [parsing_procedure String.eqb Ascii.eqb Bool.eqb].
    unfold parse_250_resp_code_msg, HELO_ACK_250_MSG_START_UNENC, HELO_ACK_250_MSG_END_UNENC.
    replace ("250 Hello " ++ client_address env ++ " pleased to meet you" ++ NL)
      with ("250" ++ " " ++ String "H" ("ello " ++ client_address env
                                      ++ " pleased to meet you") ++ NL)
      by (cbn [String.append]; now rewrite !str_app_assoc).
    rewrite resp_code_accepts; [reflexivity | | reflexivity].
    cbn [forall_chars String.append]. rewrite forall_chars_app, Haddr. reflexivity.
  - reflexivity.
  - reflexivity.
  - unfold response_matches, CLOS_CON_221_MSG. cbn [parsing_procedure String.eqb Ascii.eqb Bool.eqb].
    unfold parse_221_resp_code_msg.
    replace ("221 " ++ gethostname env ++ " closing connection" ++ NL)
      with ("221" ++ " " ++ gethostname env ++ " " ++ String "c" "losing connection" ++ NL)
      by reflexivity.
    now rewrite resp_code_accepts_padded.
  - intros code r Hcode Hr.
    destruct Hcode as [<- | [<- | [<- | [<- | []]]]];
      destruct Hr as [<- | [<- | [<- | []]]]; reflexivity.
Qed.

Lemma client_understands_server_witness :
  response_matches "220" (GREETING_220_MSG sample_peer) = true
  /\ response_matches "221" (CLOS_CON_221_MSG sample_peer) = true.
Proof.
  destruct (client_understands_server sample_peer "m" "ail.example"
              eq_refl eq_refl eq_refl eq_refl eq_refl) as (H1 & _ & _ & _ & H5 & _).
  split; [exact H1 | exact H5].
Defined.

Lemma mail_from_cmd_valid p :
  valid_path p -> Message_init ("MAIL FROM: " ++ p ++ NL) = inr (mkMessage _MAIL_FROM false).
Proof.
  intros (l & elems & -> & Hl & He).
  exact (proj1 (path_commands_valid l elems " " "" " " "" "" Hl He eq_refl eq_refl eq_refl)).
Qed.

Lemma rcpt_to_cmd_valid p :
  valid_path p -> Message_init ("RCPT TO: " ++ p ++ NL) = inr (mkMessage _RCPT_TO false).
Proof.
  intros (l & elems & -> & Hl & He).
  exact (proj2 (path_commands_valid l elems " " "" " " "" "" Hl He eq_refl eq_refl eq_refl)).
Qed.

Lemma helo_msg_valid h a name :
  Mail.getfqdn h = String a name ->
  forall_chars cls_printable (String a name) = true ->
  Ascii.eqb a " " = false ->
  Message_init (_get_helo_msg h) = inr (mkMessage _HELO false).
Proof.
  intros Hfqdn Hname Ha. unfold _get_helo_msg. rewrite Hfqdn.
  exact (helo_with_argument "" name " " a eq_refl Hname Ha).
Qed.

(** X16: the server understands the client.  When the name of the
    client host is printable and does not start with a space, and the reverse
    path and the forward paths of the email are paths of valid mailboxes, every
    command the client builds is classified by the server as the command it is
    meant to be, with valid arguments. *)
Theorem server_understands_client (h : host) (e : Email) (a : ascii) (name : string) :
  Mail.getfqdn h = String a name ->
  forall_chars cls_printable (String a name) = true ->
  Ascii.eqb a " " = false ->
  valid_path (_reverse_path e) ->
  Forall valid_path (_forward_paths e) ->
  Message_init (_get_helo_msg h) = inr (mkMessage _HELO false)
  /\ Message_init (_get_mail_from_cmd e) = inr (mkMessage _MAIL_FROM false)
  /\ Forall (fun c => exists cmd, c = inr cmd
                                  /\ Message_init cmd = inr (mkMessage _RCPT_TO false))
       (_get_rcpt_to_cmds e)
  /\ Message_init _get_data_cmd = inr (mkMessage _DATA false)
  /\ Message_init _get_quit_cmd = inr (mkMessage _QUIT false).
Proof.
  intros Hfqdn Hname Ha Hrp Hfps.
  split; [exact (helo_msg_valid h a name Hfqdn Hname Ha)|].
  split; [exact (mail_from_cmd_valid _ Hrp)|].
  split; [|split; reflexivity].
  unfold _get_rcpt_to_cmds. apply Forall_map.
  apply (Forall_impl _ (P := valid_path)); [|exact Hfps].
  intros p Hp. eexists. split; [reflexivity|]. exact (rcpt_to_cmd_valid p Hp).
Qed.

Lemma server_understands_client_witness :
  Message_init (_get_helo_msg sample_host) = inr (mkMessage _HELO false)
  /\ Message_init (_get_mail_from_cmd sample_letter) = inr (mkMessage _MAIL_FROM false).
Proof.
  assert (Hrp : valid_path (_reverse_path sample_letter)).
  { exists "a", ["x"; "com"]. repeat split. }
  assert (Hfps : Forall valid_path (_forward_paths sample_letter)).
  { repeat constructor. exists "b", ["y"; "com"]. repeat split. }
  destruct (server_understands_client sample_host sample_letter "c" "lient.example"
              eq_refl eq_refl eq_refl Hrp Hfps) as (H1 & H2 & _).
  split; [exact H1 | exact H2].
Defined.

(** ** Lists of mailboxes *)

Lemma skip_length p : forall s, String.length (skip p s) <= String.length s.
Proof.
  induction s as [|a s IH]; simpl; [lia|]. destruct (p a); simpl; lia.
Qed.

Lemma comma_sep_loop_enough : forall fuel s,
  String.length s < fuel ->
  exists out,
    comma_sep_loop fuel (mkRS s) = Some out
    /\ match fst out with
       | inr _ => get (snd out) = ""
       | inl e => is_ParsingError e = true
       end.
Proof.
  induction fuel as [|fuel IH]; intros s Hlen; [lia|].
  cbn [comma_sep_loop].
  pose proof (raises_only_mailbox (mkRS s)) as Hraise.
  destruct (parse_mailbox (mkRS s)) as [[e|[]] [s1]] eqn:E1; simpl in Hraise.
  - eexists. split; [reflexivity | exact Hraise].
  - destruct (parse_mailbox_inv _ _ E1) as (l & d & Es & _ & _). simpl get in Es.
    unfold is_empty. cbn [_remaining_string].
    destruct s1 as [|c s1]; [eexists; split; reflexivity|].
    rewrite consume_lit_or.
    destruct (starts_with "," (String c s1)) as [s2|] eqn:E2;
      [|eexists; split; reflexivity].
    apply starts_with_inv in E2. rewrite parse_nullspace_eq.
    apply IH. pose proof (skip_length cls_SP s2) as Hs.
    apply (f_equal String.length) in Es. apply (f_equal String.length) in E2.
    rewrite !str_length_app in Es. rewrite ?str_length_app in E2.
    cbn [String.length] in Es, E2. lia.
Qed.

(** X17: [parse_comma_sep_mailboxes] always leaves its loop: it returns
    or raises whatever the text, and the pass budget of the model is never
    exhausted.  When it returns, the whole text has been consumed; when it
    raises, it raises a ParsingError, never a bare ConsumptionError. *)
Theorem comma_sep_mailboxes_total (rs : RemainingString) :
  exists out,
    parse_comma_sep_mailboxes rs = Some out
    /\ match fst out with
       | inr _ => get (snd out) = ""
       | inl e => is_ParsingError e = true
       end.
Proof.
  destruct rs as [s]. unfold parse_comma_sep_mailboxes. simpl get.
  apply comma_sep_loop_enough. lia.
Qed.

Lemma render_more_stop more :
  valid_more more = true -> domain_stop (render_more more).
Proof.
  destruct more as [|[ws [l elems]] more]; intros _; simpl; auto.
Qed.

Lemma comma_sep_loop_render : forall more l elems fuel,
  valid_local l = true ->
  valid_elements elems = true ->
  valid_more more = true ->
  String.length (render_mailboxes l elems more) < fuel ->
  comma_sep_loop fuel (mkRS (render_mailboxes l elems more)) = Some (inr tt, mkRS "").
Proof.
  induction more as [|[ws [l' elems']] more IH]; intros l elems fuel Hl He Hm Hlen;
    (destruct fuel as [|fuel]; [lia|]); cbn [comma_sep_loop]; unfold render_mailboxes.
  - cbn [render_more]. rewrite (parse_mailbox_render l elems "" Hl He I). reflexivity.
  - rewrite (parse_mailbox_render l elems _ Hl He (render_more_stop _ Hm)).
    cbn [render_more is_empty _remaining_string String.append].
    rewrite consume_lit_or. cbn [starts_with Ascii.eqb Bool.eqb].
    rewrite parse_nullspace_eq.
    cbn [valid_more forallb] in Hm.
    apply andb_true_iff in Hm as [Hm1 Hm]. apply andb_true_iff in Hm1 as [Hm1 He'].
    apply andb_true_iff in Hm1 as [Hws Hl'].
    assert (Hhead : match render_mailbox l' elems' ++ render_more more with
                    | String c _ => cls_SP c = false
                    | EmptyString => True
                    end).
    { unfold render_mailbox. destruct l' as [|c l']; [discriminate|].
      cbn [String.append]. simpl in Hl'. apply andb_true_iff in Hl' as [Hc _].
      revert Hc. clear. destruct c as [[] [] [] [] [] [] [] []]; vm_compute; congruence. }
    rewrite (skip_app cls_SP ws _ Hws Hhead).
    apply (IH l' elems' fuel Hl' He' Hm).
    unfold render_mailboxes in Hlen |- *. cbn [render_more] in Hlen.
    rewrite str_length_app in Hlen. cbn [String.append String.length] in Hlen.
    rewrite str_length_app in Hlen.
    pose proof (Nat.le_0_l (String.length ws)).
    pose proof (Nat.le_0_l (String.length (render_mailbox l elems))). lia.
Qed.

(** X18: [parse_comma_sep_mailboxes] accepts every list of valid
    mailboxes separated by a comma and any number of spaces or tabs, and
    consumes it whole. *)
Theorem comma_sep_mailboxes_accepts (l : string) (elems : list string)
    (more : list (string * (string * list string))) :
  valid_local l = true ->
  valid_elements elems = true ->
  valid_more more = true ->
  parse_comma_sep_mailboxes (mkRS (render_mailboxes l elems more)) = Some (inr tt, mkRS "").
Proof.
  intros Hl He Hm. unfold parse_comma_sep_mailboxes. simpl get.
  apply comma_sep_loop_render; auto.
Qed.

Lemma comma_sep_mailboxes_accepts_witness :
  parse_comma_sep_mailboxes
    (mkRS (render_mailboxes "b" ["y"; "com"] [(" ", ("c", ["z"; "org"]))]))
  = Some (inr tt, mkRS "").
Proof.
  apply (comma_sep_mailboxes_accepts "b" ["y"; "com"] [(" ", ("c", ["z"; "org"]))]);
    reflexivity.
Defined.

(** ** Filling an email *)

Lemma fill_step_and_then (m : F Email) (k : Email -> F Email) :
  fill_step m -> (forall e, fill_step (k e)) -> fill_step (and_then m k).
Proof.
  intros Hm Hk t. unfold and_then.
  destruct (Hm t) as ([[x|e1] t1] & -> & Hout).
  - eexists. split; [reflexivity | exact Hout].
  - apply Hk.
Qed.

Lemma input_stdin prompt t :
  match input prompt t with
  | (None, t1) => stdin t = [] /\ stdin t1 = []
  | (Some line, t1) => stdin t = line :: stdin t1
  end.
Proof.
  unfold input. destruct (stdin t); simpl; auto.
Qed.

Lemma fill_reverse_path_loop_enough : forall fuel e t,
  List.length (stdin t) < fuel ->
  exists out, _fill_reverse_path_loop fuel e t = Some out /\ ends_early out.
Proof.
  induction fuel as [|fuel IH]; intros e t Hlen; [lia|].
  cbn [_fill_reverse_path_loop].
  pose proof (input_stdin ("From:" ++ NL) t) as Hin.
  destruct (input ("From:" ++ NL) t) as [[line|] t1].
  - rewrite Hin in Hlen. cbn [List.length] in Hlen.
    pose proof (raises_only_mailbox (mkRS line)) as Hraise.
    destruct (parse_mailbox (mkRS line)) as [[x|[]] rs]; cbn [fst] in Hraise.
    + rewrite Hraise. apply IH. simpl. lia.
    + destruct (has_further_chars rs).
      * apply IH. simpl. lia.
      * eexists. split; [reflexivity | exact I].
  - eexists. split; [reflexivity|]. split; [reflexivity | apply Hin].
Qed.

Lemma fill_forward_paths_loop_enough : forall fuel e t,
  List.length (stdin t) < fuel ->
  exists out, _fill_forward_paths_loop fuel e t = Some out /\ ends_early out.
Proof.
  induction fuel as [|fuel IH]; intros e t Hlen; [lia|].
  cbn [_fill_forward_paths_loop].
  pose proof (input_stdin ("To:" ++ NL) t) as Hin.
  destruct (input ("To:" ++ NL) t) as [[line|] t1].
  - rewrite Hin in Hlen. cbn [List.length] in Hlen.
    unfold parse_comma_sep_mailboxes. simpl get.
    destruct (comma_sep_loop_enough (S (String.length line)) line (Nat.lt_succ_diag_r _))
      as ([[x|[]] rs] & -> & Hout); cbn [fst snd] in Hout.
    + rewrite Hout. apply IH. simpl. lia.
    + eexists. split; [reflexivity | exact I].
  - eexists. split; [reflexivity|]. split; [reflexivity | apply Hin].
Qed.

Lemma fill_message_lines_loop_enough : forall fuel e t,
  List.length (stdin t) < fuel ->
  exists out, _fill_message_lines_loop fuel e t = Some out /\ ends_early out.
Proof.
  induction fuel as [|fuel IH]; intros e t Hlen; [lia|].
  cbn [_fill_message_lines_loop].
  pose proof (input_stdin "" t) as Hin.
  destruct (input "" t) as [[line|] t1].
  - rewrite Hin in Hlen. cbn [List.length] in Hlen. cbv zeta.
    destruct (String.eqb (line ++ NL) Mail.EOMD_SEQ).
    + eexists. split; [reflexivity | exact I].
    + apply IH. lia.
  - eexists. split; [reflexivity|]. split; [reflexivity | apply Hin].
Qed.

Lemma fill_step_fill (e : Email) : fill_step (fill e).
Proof.
  unfold fill.
  apply fill_step_and_then;
    [intros t; apply fill_reverse_path_loop_enough; lia | intros e1].
  apply fill_step_and_then;
    [intros t; apply fill_forward_paths_loop_enough; lia | intros e2].
  apply fill_step_and_then; [|intros e3].
  { intros t. unfold _fill_subject.
    pose proof (input_stdin ("Subject:" ++ NL) t) as Hin.
    destruct (input ("Subject:" ++ NL) t) as [[line|] t1];
      eexists; (split; [reflexivity|]); [exact I | split; [reflexivity | apply Hin]]. }
  apply fill_step_and_then; [|intros e4].
  { intros t. apply fill_message_lines_loop_enough. lia. }
  intros t. unfold _fill_attachment_filename.
  pose proof (input_stdin "" (print_line "Attachment:" t)) as Hin.
  destruct (input "" (print_line "Attachment:" t)) as [[line|] t1];
    eexists; (split; [reflexivity|]); [exact I | split; [reflexivity | apply Hin]].
Qed.

(** X19: [fill] always comes to an end, whatever is typed: every loop
    is left within one more pass than there are lines of input.  The only
    exception it lets escape is EarlyTerminationError, the one the agent
    catches, and it is raised only once standard input is exhausted; no
    parsing error of a mistyped mailbox reaches the caller. *)
Theorem fill_ends_early_or_returns (e : Email) (t : terminal) :
  exists out,
    fill e t = Some out
    /\ match fst out with
       | inl x => x = EarlyTerminationError /\ stdin (snd out) = []
       | inr _ => True
       end.
Proof. exact (fill_step_fill e t). Qed.





















Lemma fill_reverse_path_loop_inv : forall fuel e t e1 t1,
  _fill_reverse_path_loop fuel e t = Some (inr e1, t1) ->
  exists m, e1 = set_reverse_path e ("<" ++ m ++ ">")
            /\ parse_mailbox (mkRS m) = (inr tt, mkRS "").
Proof.
  induction fuel as [|fuel IH]; intros e t e1 t1 H; [discriminate|].
  cbn [_fill_reverse_path_loop] in H.
  destruct (input ("From:" ++ NL) t) as [[line|] t0]; [|discriminate].
  destruct (parse_mailbox (mkRS line)) as [[x|[]] [s]] eqn:E.
  - destruct (is_ParsingError x); [eauto | discriminate].
  - destruct s as [|c s]; cbn [has_further_chars _remaining_string] in H; [|eauto].
    injection H as <- _. now exists line.
Qed.

Lemma split_on_nonempty sep s : split_on sep s <> [].
Proof.
  destruct s as [|c s]; cbn [split_on]; [discriminate|].
  destruct (Ascii.eqb c sep); [discriminate|].
  destruct (split_on sep s); discriminate.
Qed.

Lemma fill_forward_paths_loop_inv : forall fuel e t e1 t1,
  _fill_forward_paths_loop fuel e t = Some (inr e1, t1) ->
  exists s, e1 = set_forward_paths e
                   (map (fun mailbox => "<" ++ strip mailbox ++ ">") (split_on "," s)).
Proof.
  induction fuel as [|fuel IH]; intros e t e1 t1 H; [discriminate|].
  cbn [_fill_forward_paths_loop] in H.
  destruct (input ("To:" ++ NL) t) as [[line|] t0]; [|discriminate].
  destruct (parse_comma_sep_mailboxes (mkRS line)) as [[[x|[]] rs]|]; [| |discriminate].
  - destruct (is_ParsingError x); [eauto | discriminate].
  - cbv zeta in H. injection H as <- _. now exists line.
Qed.

Lemma fill_message_lines_loop_inv : forall fuel e t e1 t1,
  _fill_message_lines_loop fuel e t = Some (inr e1, t1) ->
  exists new,
    e1 = mkEmail (_reverse_path e) (_forward_paths e) (_subject e)
           (_message_lines e ++ new) (_attachment_filename e)
    /\ Forall stored_line new.
Proof.
  induction fuel as [|fuel IH]; intros e t e1 t1 H; [discriminate|].
  cbn [_fill_message_lines_loop] in H.
  destruct (input "" t) as [[line|] t0]; [|discriminate]. cbv zeta in H.
  destruct (String.eqb (line ++ NL) Mail.EOMD_SEQ) eqn:E.
  - injection H as <- _. exists []. rewrite List.app_nil_r. split; [now destruct e | constructor].
  - destruct (IH _ _ _ _ H) as (new & -> & Hnew).
    exists ((line ++ NL) :: new).
    unfold add_message_line. cbn [_reverse_path _forward_paths _subject _message_lines
      _attachment_filename]. rewrite <- List.app_assoc. split; [reflexivity|].
    constructor; [|exact Hnew]. split; [now apply String.eqb_neq | now exists line].
Qed.

(** X21: what a filled email looks like, whatever was typed.  When
    [fill] returns, the reverse path is a line the mailbox parser accepted
    whole, between angle brackets; there is at least one forward path and each
    is between angle brackets; and the message has only grown, by lines that
    end with the line terminator, none of which is the end-of-data marker the
    driver sends after the message. *)
Theorem fill_result_well_formed (e e' : Email) (t t' : terminal) :
  fill e t = Some (inr e', t') -> filled_from e e'.
Proof.
  unfold fill, and_then. intros H.
  destruct (_fill_reverse_path e t) as [[[x|e1] t1]|] eqn:E1; try discriminate H.
  destruct (_fill_forward_paths e1 t1) as [[[x|e2] t2]|] eqn:E2; try discriminate H.
  destruct (_fill_subject e2 t2) as [[[x|e3] t3]|] eqn:E3; try discriminate H.
  destruct (_fill_message_lines e3 t3) as [[[x|e4] t4]|] eqn:E4; try discriminate H.
  destruct (fill_reverse_path_loop_inv _ _ _ _ _ E1) as (m & -> & Hm).
  destruct (fill_forward_paths_loop_inv _ _ _ _ _ E2) as (s & ->).
  unfold _fill_subject in E3.
  destruct (input ("Subject:" ++ NL) t2) as [[subject|] t2']; [|discriminate E3].
  injection E3 as <- _.
  destruct (fill_message_lines_loop_inv _ _ _ _ _ E4) as (new & -> & Hnew).
  unfold _fill_attachment_filename in H.
  destruct (input "" (print_line "Attachment:" t4)) as [[filename|] t4']; [|discriminate H].
  injection H as <- _.
  unfold filled_from, set_attachment_filename, set_subject, set_forward_paths, set_reverse_path.
  cbn [_reverse_path _forward_paths _subject _message_lines _attachment_filename].
  split; [now exists m|]. split.
  - intros Hnil. apply map_eq_nil in Hnil. exact (split_on_nonempty _ _ Hnil).
  - split; [|now exists new].
    apply Forall_forall. intros p Hp. apply in_map_iff in Hp as (mb & <- & _).
    now exists (strip mb).
Qed.

Lemma fill_result_well_formed_witness :
  filled_from Email_init
    (mkEmail "<a@x.com>" ["<b@y.com>"; "<c@z.org>"] "Hi"
       ["Hello" ++ NL; ".." ++ NL] "note.txt").
Proof.
  apply (fill_result_well_formed Email_init _ (mkTerminal sample_form [])
           (mkTerminal ["left"] sample_printed)).
  vm_compute. reflexivity.
Defined.

(** ** What the driver can raise *)

Section Failures.

Variable h : host.
Variable e : Email.











End Failures.


(** ** Lists of mailboxes that are turned down *)

Lemma comma_sep_loop_mono : forall fuel rs out,
  comma_sep_loop fuel rs = Some out ->
  forall fuel', fuel <= fuel' -> comma_sep_loop fuel' rs = Some out.
Proof.
  induction fuel as [|fuel IH]; intros rs out H fuel' Hle; [discriminate|].
  destruct fuel' as [|fuel']; [lia|]. cbn [comma_sep_loop] in H |- *.
  destruct (parse_mailbox rs) as [[x|u] rs1]; [exact H|].
  destruct (is_empty rs1); [exact H|].
  destruct (try_except _ _ rs1) as [[x|u'] rs2]; [exact H|].
  destruct (parse_nullspace rs2) as [[x|u''] rs3]; [exact H|].
  apply (IH _ _ H). lia.
Qed.

Lemma comma_sep_loop_agrees fuel s out :
  comma_sep_loop fuel (mkRS s) = Some out ->
  parse_comma_sep_mailboxes (mkRS s) = Some out.
Proof.
  intros H. unfold parse_comma_sep_mailboxes. simpl get.
  destruct (comma_sep_loop_enough (S (String.length s)) s (Nat.lt_succ_diag_r _))
    as (out' & Hout' & _).
  pose proof (comma_sep_loop_mono _ _ _ H (Nat.max fuel (S (String.length s)))
                (Nat.le_max_l _ _)) as H1.
  pose proof (comma_sep_loop_mono _ _ _ Hout' (Nat.max fuel (S (String.length s)))
                (Nat.le_max_r _ _)) as H2.
  rewrite Hout'. congruence.
Qed.

Lemma comma_sep_loop_tail : forall more l elems k tail,
  valid_local l = true ->
  valid_elements elems = true ->
  valid_more more = true ->
  domain_stop tail ->
  comma_sep_loop (S (List.length more + k))
    (mkRS (render_mailboxes l elems more ++ tail))
  = after_mailbox k tail.
Proof.
  induction more as [|[ws [l' elems']] more IH]; intros l elems k tail Hl He Hm Htail;
    cbn [List.length Nat.add comma_sep_loop]; unfold render_mailboxes;
    rewrite str_app_assoc.
  - cbn [render_more String.append].
    rewrite (parse_mailbox_render l elems tail Hl He Htail).
    unfold is_empty, after_mailbox. cbn [_remaining_string].
    destruct tail as [|c tail]; [reflexivity|].
    rewrite consume_lit_or. cbn [starts_with].
    destruct (Ascii.eqb c ","); [|reflexivity].
    cbn [starts_with]. rewrite parse_nullspace_eq. reflexivity.
  - cbn [valid_more forallb] in Hm.
    apply andb_true_iff in Hm as [Hm1 Hm]. apply andb_true_iff in Hm1 as [Hm1 He'].
    apply andb_true_iff in Hm1 as [Hws Hl'].
    cbn [render_more]. rewrite !str_app_assoc.
    rewrite (parse_mailbox_render l elems _ Hl He) by (simpl; auto).
    cbn [is_empty _remaining_string String.append].
    rewrite consume_lit_or. cbn [starts_with Ascii.eqb Bool.eqb].
    rewrite parse_nullspace_eq.
    assert (Hhead : match render_mailbox l' elems' ++ render_more more ++ tail with
                    | String c _ => cls_SP c = false
                    | EmptyString => True
                    end).
    { unfold render_mailbox. destruct l' as [|c l']; [discriminate|].
      cbn [String.append]. simpl in Hl'. apply andb_true_iff in Hl' as [Hc _].
      revert Hc. clear. destruct c as [[] [] [] [] [] [] [] []]; vm_compute; congruence. }
    rewrite (skip_app cls_SP ws _ Hws Hhead).
    rewrite <- (IH l' elems' k tail Hl' He' Hm Htail).
    unfold render_mailboxes. now rewrite str_app_assoc.
Qed.

(** X23: what [parse_comma_sep_mailboxes] turns down after a list of
    valid mailboxes.  A comma with nothing but spaces or tabs after it asks
    for one more mailbox, and the missing one is reported as an error of the
    string production; anything else than a comma where the last domain ends
    is reported as an error of the list production, the cursor being left on
    it. *)
Theorem comma_sep_mailboxes_rejects (l : string) (elems : list string)
    (more : list (string * (string * list string))) (ws : string) (c : ascii)
    (rest : string) :
  valid_local l = true ->
  valid_elements elems = true ->
  valid_more more = true ->
  forall_chars cls_SP ws = true ->
  domain_stop (String c rest) ->
  Ascii.eqb c "," = false ->
  parse_comma_sep_mailboxes (mkRS (render_mailboxes l elems more ++ "," ++ ws))
  = Some (inl (ParsingError "string"), mkRS "")
  /\ parse_comma_sep_mailboxes (mkRS (render_mailboxes l elems more ++ String c rest))
     = Some (inl (ParsingError "comma-sep-mailboxes"), mkRS (String c rest)).
Proof.
  intros Hl He Hm Hws Hstop Hc. split.
  - apply (comma_sep_loop_agrees (S (List.length more + 1))).
    rewrite (comma_sep_loop_tail more l elems 1 ("," ++ ws) Hl He Hm) by (simpl; auto).
    cbn [after_mailbox String.append Ascii.eqb Bool.eqb].
    pose proof (skip_app cls_SP ws "" Hws I) as Hskip.
    rewrite str_app_nil_r in Hskip. rewrite Hskip. reflexivity.
  - apply (comma_sep_loop_agrees (S (List.length more + 0))).
    rewrite (comma_sep_loop_tail more l elems 0 (String c rest) Hl He Hm Hstop).
    cbn [after_mailbox]. now rewrite Hc.
Qed.

Lemma comma_sep_mailboxes_rejects_witness :
  parse_comma_sep_mailboxes (mkRS ("b@y.com, c@z.org" ++ "," ++ " "))
  = Some (inl (ParsingError "string"), mkRS "")
  /\ parse_comma_sep_mailboxes (mkRS ("b@y.com, c@z.org" ++ "; d@w.net"))
     = Some (inl (ParsingError "comma-sep-mailboxes"), mkRS "; d@w.net").
Proof.
  apply (comma_sep_mailboxes_rejects "b" ["y"; "com"] [(" ", ("c", ["z"; "org"]))]
           " " ";" " d@w.net"); try reflexivity.
  simpl. auto.
Defined.

(** The answer to the first recipient never comes: the socket is closed,
    nothing is printed, and UnboundLocalError escapes the driver. *)
Example silent_recipient_scenario :
  let out := send sample_host sample_letter None sample_silent_client in
  fst out = inl UnboundLocalError
  /\ client_log (snd out)
     = [EvRecv ("220 mail.example" ++ NL);
        EvSend ("HELO client.example" ++ NL);
        EvRecv ("250 Hello 10.0.0.9 pleased to meet you" ++ NL);
        EvSend ("MAIL FROM: <a@x.com>" ++ NL);
        EvRecv ("250 OK" ++ NL);
        EvSend ("RCPT TO: <b@y.com>" ++ NL);
        EvClose].
Proof. vm_compute. split; reflexivity. Qed.
